(** * Catch the Falling Object: the simulation loop and the input estimator

    A shallow embedding of [src/components/VisionTracker.tsx] (the scalar
    Kalman filter behind the camera input) and of
    [src/components/GameWorld.tsx] (the per-frame [loop] of the engine),
    followed by the properties of the specification that concern them.

    Numbers.  Every TypeScript [number] is an IEEE-754 double.  The model
    takes them as exact rationals ([Q]): sums, products and quotients are
    the mathematical ones, [Math.floor] is [Qfloor], [Math.max] and
    [Math.min] are [Qmax] and [Qmin].  Equalities between computed numbers
    are therefore stated with [==] (equality of fractions).  The binary64
    behaviour of the one literal example of the specification is evaluated
    separately with the primitive floats of the kernel.

    Effects.  [Math.random()], [Date.now()] and the timestamp handed to the
    frame callback are inputs of the model; calls to the audio engine, to
    [onGameOver], to [onHandUpdate] and to [requestAnimationFrame] are
    outputs.  Canvas drawing changes no state and is left out. *)

From Stdlib Require Import QArith Qround Qminmax Qabs Lqa Lia ZArith List Bool.
From Stdlib Require Import Floats.
From Stdlib Require String Sorted Permutation.
Import ListNotations.
Open Scope Q_scope.

(** ** Numeric helpers shared by both components *)

(** [Math.max(0, Math.min(1, v))]. *)
Definition clamp01 (v : Q) : Q := Qmax 0 (Qmin 1 v).

(** [Math.floor] as a number again. *)
Definition floorQ (v : Q) : Q := inject_Z (Qfloor v).

(** * VisionTracker.tsx *)

Module VisionTracker.

(** [kalmanX.current]: the estimate [x], its variance [p], and the two noise
    constants [q] and [r]. *)
Record Kalman : Type := mkKalman {
  k_x : Q;
  k_p : Q;
  k_q : Q;
  k_r : Q
}.

(** The initial value of the [kalmanX] ref (lines 18-23). *)
Definition kalmanX : Kalman :=
  {| k_x := 0.5; k_p := 1.0; k_q := 0.08; k_r := 0.04 |}.

(** [procCanvas.width] (line 56). *)
Definition procWidth : Z := 80.

(** Perceptual brightness of one little-endian RGBA pixel (lines 96-101). *)
Definition brightness (pixel : Z) : Q :=
  let r := Z.land pixel 255 in
  let g := Z.land (Z.shiftr pixel 8) 255 in
  let b := Z.land (Z.shiftr pixel 16) 255 in
  0.299 * inject_Z r + 0.587 * inject_Z g + 0.114 * inject_Z b.

(** The luminance pass (lines 89-108): [i] is the index of the head of
    [data], the result is [(sumX, count)]. *)
Fixpoint scan (data : list Z) (i : Z) (sumX count : Z) : Z * Z :=
  match data with
  | [] => (sumX, count)
  | pixel :: rest =>
      if Qlt_le_dec 180 (brightness pixel)
      then scan rest (i + 1)%Z (sumX + i mod procWidth)%Z (count + 1)%Z
      else scan rest (i + 1)%Z sumX count
  end.

(** The ergonomic mapping of lines 116-117. *)
Definition remap (rawMeasurement : Q) : Q :=
  clamp01 ((rawMeasurement - 0.1) / 0.8).

(** The variance after the prediction step (line 121). *)
Definition predicted (k : Kalman) : Q := k_p k + k_q k.

(** The gain of line 122. *)
Definition gain (k : Kalman) : Q := predicted k / (predicted k + k_r k).

(** Lines 120-124: one update of the filter with the measurement [z]. *)
Definition kalman_update (z : Q) (k : Kalman) : Kalman :=
  let p1 := k_p k + k_q k in
  let g := p1 / (p1 + k_r k) in
  {| k_x := k_x k + g * (z - k_x k);
     k_p := (1 - g) * p1;
     k_q := k_q k;
     k_r := k_r k |}.

(** What one call of [processFrame] hands to [onHandUpdate], if anything. *)
Definition Report : Type := option (Q * bool).

(** The detection part of [processFrame] (lines 112-138) once the pixel
    pass has produced [sumX] and [count]. *)
Definition detect (sumX count : Z) (k : Kalman) : Kalman * Report :=
  if (8 <? count)%Z then
    let rawMeasurement := (inject_Z sumX / inject_Z count) / inject_Z procWidth in
    let z := remap rawMeasurement in
    let k' := kalman_update z k in
    (k', Some (k_x k', true))
  else
    (k, Some (k_x k, false)).

(** What [processFrame] finds when it is called: the guard of line 64
    fires (no video, no canvas, or the video not yet playable, as when the
    camera was refused), the display canvas has no 2D context (line 70), or
    the pixels of the 80x60 processing canvas are read as 32-bit words. *)
Inductive Feed : Type :=
| NotReady
| NoContext
| Pixels (data : list Z).

(** [processFrame] (lines 60-141).  The last component of the result tells
    whether the next frame was requested.  The tracking-quality gauge
    (line 110) is display state and is left out. *)
Definition processFrame (feed : Feed) (k : Kalman) : Kalman * Report * bool :=
  match feed with
  | NotReady => (k, None, true)
  | NoContext => (k, None, false)
  | Pixels data =>
      let '(sumX, count) := scan data 0 0 0 in
      (detect sumX count k, true)
  end.

(** A run of [processFrame] over successive calls, as long as it keeps
    requesting the next frame, with the reports in the order they were
    made. *)
Fixpoint processFrames (feeds : list Feed) (k : Kalman)
  : Kalman * list Report :=
  match feeds with
  | [] => (k, [])
  | feed :: rest =>
      let '(k1, rep, again) := processFrame feed k in
      if again then
        let '(k2, reps) := processFrames rest k1 in
        (k2, rep :: reps)
      else (k1, [rep])
  end.



(** Repeated updates with the measurements [zs], oldest first. *)
Fixpoint track (zs : list Q) (k : Kalman) : Kalman :=
  match zs with
  | [] => k
  | z :: rest => track rest (kalman_update z k)
  end.

(** The gains computed by the successive updates of [track]. *)
Fixpoint gains (zs : list Q) (k : Kalman) : list Q :=
  match zs with
  | [] => []
  | z :: rest => gain k :: gains rest (kalman_update z k)
  end.

(** [n] updates with the same measurement [z]. *)
Fixpoint hold (n : nat) (z : Q) (k : Kalman) : Kalman :=
  match n with
  | O => k
  | S m => kalman_update z (hold m z k)
  end.

(** A filter state the updates make sense on: a variance that is not
    negative (section 3 of the specification) and positive noise
    constants. *)
Definition sound (k : Kalman) : Prop :=
  0 <= k_p k /\ 0 < k_q k /\ 0 < k_r k.

(** The distance between the estimate and [z] after [n] updates with [z]. *)
Definition err (n : nat) (z : Q) (k : Kalman) : Q :=
  Qabs (k_x (hold n z k) - z).

(** The same update on binary64 numbers, for the literal example. *)
Definition kalman_update_f64 (z x p q r : float) : float * float * float :=
  let p1 := (p + q)%float in
  let g := (p1 / (p1 + r))%float in
  (p1, g, (x + g * (z - x))%float).

End VisionTracker.

(** * GameWorld.tsx *)

Module GameWorld.

(** [a < b] on numbers, as a boolean. *)
Definition ltb (a b : Q) : bool := negb (Qle_bool b a).

(** Modelled from the spec: the declarations of [../types] ([ObjectType],
    [GameTheme], [GameDifficulty], [GameObject]) are not among the sources;
    the constructors and fields below are the ones [GameWorld.tsx] uses
    (the keys of [THEME_DATA] and [DIFFICULTY_SETTINGS], the object literal
    of lines 110-118), matching the GOOD/BAD category and the tuning
    records of section 3 of the specification. *)
Inductive ObjectType : Type := GOOD | BAD.

Inductive GameTheme : Type :=
  COSMIC | NEON_CITY | NATURE | URBAN_RAIN | MIND_LAB | RETRO.

Inductive GameDifficulty : Type := EASY | MEDIUM | HARD.

(** A falling object.  [obj_id] is the random draw whose decimal expansion
    is the identifier; [obj_variant] is the index (0, 1 or 2) into the
    theme's [good] or [bad] glyph list, selected by [obj_type]. *)
Record GameObject : Type := mkObject {
  obj_id : Q;
  obj_x : Q;
  obj_y : Q;
  obj_radius : Q;
  obj_speed : Q;
  obj_type : ObjectType;
  obj_variant : Z
}.

(** [THEME_DATA[theme].gravityMult] (lines 17-24). *)
Definition gravityMult (theme : GameTheme) : Q :=
  match theme with
  | COSMIC => 0.9
  | NEON_CITY => 1.1
  | NATURE => 0.7
  | URBAN_RAIN => 1.3
  | MIND_LAB => 1.0
  | RETRO => 1.2
  end.

Record Settings : Type := mkSettings {
  initialLives : Q;
  growth : Q;
  hazardPenalty : Q;
  spawnRateBase : Q
}.

(** Lines 26-30. *)
Definition DIFFICULTY_SETTINGS (d : GameDifficulty) : Settings :=
  match d with
  | EASY => {| initialLives := 5; growth := 0.03; hazardPenalty := 1; spawnRateBase := 1200 |}
  | MEDIUM => {| initialLives := 3; growth := 0.1; hazardPenalty := 1; spawnRateBase := 1000 |}
  | HARD => {| initialLives := 1; growth := 0.25; hazardPenalty := 1; spawnRateBase := 700 |}
  end.

(** The mutable record behind the [engine] ref (lines 39-50). *)
Record Engine : Type := mkEngine {
  score : Q;
  lives : Q;
  combo : Q;
  objects : list GameObject;
  handX : Q;
  isHandDetected : bool;
  difficulty : Q;
  spawnTimer : Q;
  lastTime : Q;
  startTime : Q
}.

(** The initial value of the ref; [now] is the [Date.now()] of line 49. *)
Definition engine (gameDifficulty : GameDifficulty) (now : Q) : Engine :=
  {| score := 0;
     lives := initialLives (DIFFICULTY_SETTINGS gameDifficulty);
     combo := 0;
     objects := [];
     handX := 0.5;
     isHandDetected := true;
     difficulty := 1;
     spawnTimer := 0;
     lastTime := 0;
     startTime := now |}.

(** Field assignments [e.f = v]. *)
Definition set_score (v : Q) (e : Engine) : Engine :=
  mkEngine v (lives e) (combo e) (objects e) (handX e) (isHandDetected e)
           (difficulty e) (spawnTimer e) (lastTime e) (startTime e).
Definition set_lives (v : Q) (e : Engine) : Engine :=
  mkEngine (score e) v (combo e) (objects e) (handX e) (isHandDetected e)
           (difficulty e) (spawnTimer e) (lastTime e) (startTime e).
Definition set_combo (v : Q) (e : Engine) : Engine :=
  mkEngine (score e) (lives e) v (objects e) (handX e) (isHandDetected e)
           (difficulty e) (spawnTimer e) (lastTime e) (startTime e).
Definition set_objects (v : list GameObject) (e : Engine) : Engine :=
  mkEngine (score e) (lives e) (combo e) v (handX e) (isHandDetected e)
           (difficulty e) (spawnTimer e) (lastTime e) (startTime e).
Definition set_handX (v : Q) (e : Engine) : Engine :=
  mkEngine (score e) (lives e) (combo e) (objects e) v (isHandDetected e)
           (difficulty e) (spawnTimer e) (lastTime e) (startTime e).
Definition set_isHandDetected (v : bool) (e : Engine) : Engine :=
  mkEngine (score e) (lives e) (combo e) (objects e) (handX e) v
           (difficulty e) (spawnTimer e) (lastTime e) (startTime e).
Definition set_difficulty (v : Q) (e : Engine) : Engine :=
  mkEngine (score e) (lives e) (combo e) (objects e) (handX e) (isHandDetected e)
           v (spawnTimer e) (lastTime e) (startTime e).
Definition set_spawnTimer (v : Q) (e : Engine) : Engine :=
  mkEngine (score e) (lives e) (combo e) (objects e) (handX e) (isHandDetected e)
           (difficulty e) v (lastTime e) (startTime e).
Definition set_lastTime (v : Q) (e : Engine) : Engine :=
  mkEngine (score e) (lives e) (combo e) (objects e) (handX e) (isHandDetected e)
           (difficulty e) (spawnTimer e) v (startTime e).

(** The five [Math.random()] results one spawn consumes, in call order:
    line 109, then the fields [id], [x], [speed] and [variant]. *)
Record Draws : Type := mkDraws {
  rnd_bad : Q;
  rnd_id : Q;
  rnd_x : Q;
  rnd_speed : Q;
  rnd_variant : Q
}.

(** What a frame sends out: the two audio calls and [onGameOver]. *)
Inductive Event : Type :=
| PlayCollect (theme : GameTheme)
| PlayHazard (theme : GameTheme)
| GameOver (finalScore : Q).

(** Paddle geometry (lines 122-123). *)
Definition pw : Q := 140.
Definition ph : Q := 24.
Definition paddle_px (e : Engine) : Q := handX e * 800 - pw / 2.
Definition paddle_py : Q := 600 - 110.

(** The test of line 126. *)
Definition hit (px py : Q) (obj : GameObject) : bool :=
  ltb px (obj_x obj) && ltb (obj_x obj) (px + pw)
  && ltb py (obj_y obj) && ltb (obj_y obj) (py + ph).

(** The body of the [map] of lines 99-101. *)
Definition advance (step g d : Q) (obj : GameObject) : GameObject :=
  mkObject (obj_id obj) (obj_x obj)
           (obj_y obj + obj_speed obj * step * g * d)
           (obj_radius obj) (obj_speed obj) (obj_type obj) (obj_variant obj).

(** The object literal of lines 110-118. *)
Definition spawned (rnd : Draws) : GameObject :=
  let isBad := ltb (rnd_bad rnd) 0.22 in
  {| obj_id := rnd_id rnd;
     obj_x := rnd_x rnd * 700 + 50;
     obj_y := -50;
     obj_radius := 20;
     obj_speed := 4 + rnd_speed rnd * 3;
     obj_type := if isBad then BAD else GOOD;
     obj_variant := Qfloor (rnd_variant rnd * 3) |}.

(** The spawn interval of line 106. *)
Definition spawnRate (settings : Settings) (score : Q) : Q :=
  Qmax 200 (spawnRateBase settings - score * 3).

(** The [filter] callback of lines 125-140 run over the objects in array
    order: the engine is mutated as the pass goes, the kept objects and the
    audio calls come out in order. *)
Fixpoint resolve (theme : GameTheme) (settings : Settings) (px py : Q)
    (objs : list GameObject) (e : Engine)
  : Engine * list GameObject * list Event :=
  match objs with
  | [] => (e, [], [])
  | obj :: rest =>
      if hit px py obj then
        match obj_type obj with
        | GOOD =>
            let e1 := set_score (score e + (5 + floorQ (combo e / 4))) e in
            let e2 := set_combo (combo e1 + 1) e1 in
            let '(e3, kept, evs) := resolve theme settings px py rest e2 in
            (e3, kept, PlayCollect theme :: evs)
        | BAD =>
            let e1 := set_lives (lives e - hazardPenalty settings) e in
            let e2 := set_combo 0 e1 in
            let '(e3, kept, evs) := resolve theme settings px py rest e2 in
            (e3, kept, PlayHazard theme :: evs)
        end
      else
        let '(e3, kept, evs) := resolve theme settings px py rest e in
        (e3, obj :: kept, evs)
  end.

(** [loop] (lines 85-173) for one frame callback.  [time] is the argument
    of the callback, [now] the [Date.now()] of line 142, [rnd] the random
    draws available to the spawner.  The result is the engine after the
    frame, what was sent out, and whether [requestAnimationFrame(loop)] was
    called again. *)
Definition loop (theme : GameTheme) (gameDifficulty : GameDifficulty)
    (isPaused : bool) (time now : Q) (rnd : Draws) (e : Engine)
  : Engine * list Event * bool :=
  let settings := DIFFICULTY_SETTINGS gameDifficulty in
  if isPaused then (e, [], true)
  else
    let dt := time - lastTime e in
    let e := set_lastTime time e in
    let step := Qmin dt 32 / 16.67 in
    (* Update Objects *)
    let e := set_objects
               (filter (fun obj => ltb (obj_y obj) 650)
                  (map (advance step (gravityMult theme) (difficulty e))
                     (objects e))) e in
    (* Spawn Logic *)
    let e := set_spawnTimer (spawnTimer e + dt) e in
    let spawnRate := spawnRate settings (score e) in
    let e := if ltb spawnRate (spawnTimer e)
             then set_objects (objects e ++ [spawned rnd]) (set_spawnTimer 0 e)
             else e in
    (* Collisions *)
    let px := handX e * 800 - pw / 2 in
    let py := 600 - 110 in
    let '(e, kept, evs) := resolve theme settings px py (objects e) e in
    let e := set_objects kept e in
    let e := set_difficulty
               (1 + score e / 500 + (now - startTime e) / 120000) e in
    if Qle_bool (lives e) 0
    then (e, evs ++ [GameOver (floorQ (score e))], false)
    else (e, evs, true).

(** What reaches the engine between two frames: [handleHandUpdate]
    (lines 60-63, vision mode) or the mouse listener (lines 67-72, cursor
    mode). *)
Inductive Input : Type :=
| HandUpdate (x : Q) (detected : bool)
| MouseMove (clientX rectLeft rectWidth : Q).

Definition handleHandUpdate (x : Q) (detected : bool) (e : Engine) : Engine :=
  set_isHandDetected detected (set_handX x e).

Definition handleMove (isPaused : bool) (clientX rectLeft rectWidth : Q) (e : Engine)
  : Engine :=
  if isPaused then e
  else set_handX (clamp01 ((clientX - rectLeft) / rectWidth)) e.

Definition deliver (isPaused : bool) (e : Engine) (i : Input) : Engine :=
  match i with
  | HandUpdate x detected => handleHandUpdate x detected e
  | MouseMove clientX rectLeft rectWidth => handleMove isPaused clientX rectLeft rectWidth e
  end.

(** One scheduled frame: the pause flag the callback sees, the inputs
    delivered since the previous frame, and the frame's own inputs. *)
Record Frame : Type := mkFrame {
  f_paused : bool;
  f_inputs : list Input;
  f_time : Q;
  f_now : Q;
  f_rnd : Draws
}.

Definition frame (theme : GameTheme) (gameDifficulty : GameDifficulty)
    (f : Frame) (e : Engine) : Engine * list Event * bool :=
  loop theme gameDifficulty (f_paused f) (f_time f) (f_now f) (f_rnd f)
       (fold_left (deliver (f_paused f)) (f_inputs f) e).

(** The frames of a session, as long as [loop] keeps rescheduling itself:
    once a frame returns without requesting the next one, the remaining
    frames never happen. *)
Fixpoint run (theme : GameTheme) (gameDifficulty : GameDifficulty)
    (fs : list Frame) (e : Engine) : Engine * list Event * bool :=
  match fs with
  | [] => (e, [], true)
  | f :: rest =>
      let '(e1, evs, again) := frame theme gameDifficulty f e in
      if again then
        let '(e2, evs2, again2) := run theme gameDifficulty rest e1 in
        (e2, evs ++ evs2, again2)
      else (e1, evs, false)
  end.

End GameWorld.

(** * The components of the specification, read off [loop] *)

Module Pipeline.
Import GameWorld.

(** Difficulty Controller: the expression of line 142. *)
Definition difficultyController (score elapsedMs : Q) : Q :=
  1 + score / 500 + elapsedMs / 120000.

(** Motion Updater: lines 99-102 with the multiplier [mult]. *)
Definition motionUpdater (theme : GameTheme) (dt mult : Q)
    (objs : list GameObject) : list GameObject :=
  filter (fun obj => ltb (obj_y obj) 650)
    (map (advance (Qmin dt 32 / 16.67) (gravityMult theme) mult) objs).

(** Object Spawner: lines 105-119. *)
Definition spawner (settings : Settings) (dt : Q) (rnd : Draws) (e : Engine)
  : Engine :=
  let e := set_spawnTimer (spawnTimer e + dt) e in
  if ltb (spawnRate settings (score e)) (spawnTimer e)
  then set_objects (objects e ++ [spawned rnd]) (set_spawnTimer 0 e)
  else e.

(** Collision Resolver: lines 122-140. *)
Definition collisionResolver (theme : GameTheme) (settings : Settings)
    (e : Engine) : Engine * list Event :=
  let '(e1, kept, evs) :=
    resolve theme settings (paddle_px e) paddle_py (objects e) e in
  (set_objects kept e1, evs).

(** The check of lines 144-147 and the rescheduling of line 172. *)
Definition terminationCheck (r : Engine * list Event)
  : Engine * list Event * bool :=
  let '(e, evs) := r in
  if Qle_bool (lives e) 0
  then (e, evs ++ [GameOver (floorQ (score e))], false)
  else (e, evs, true).

(** The stages in the order the code runs them on a RUNNING frame. *)
Definition loop_code_order (theme : GameTheme) (gameDifficulty : GameDifficulty)
    (time now : Q) (rnd : Draws) (e : Engine) : Engine * list Event * bool :=
  let settings := DIFFICULTY_SETTINGS gameDifficulty in
  let dt := time - lastTime e in
  let e0 := set_lastTime time e in
  let e1 := set_objects (motionUpdater theme dt (difficulty e0) (objects e0)) e0 in
  let e2 := spawner settings dt rnd e1 in
  let '(e3, evs) := collisionResolver theme settings e2 in
  let e4 := set_difficulty
              (difficultyController (score e3) (now - startTime e3)) e3 in
  terminationCheck (e4, evs).

(** The stages in the order section 4.6 of the specification words them:
    Difficulty Controller, Motion Updater, Spawner, Collision Resolver,
    then the check of the lives.  This definition follows the
    specification, not the source; it is only compared with [loop]. *)
Definition loop_spec_order (theme : GameTheme) (gameDifficulty : GameDifficulty)
    (time now : Q) (rnd : Draws) (e : Engine) : Engine * list Event * bool :=
  let settings := DIFFICULTY_SETTINGS gameDifficulty in
  let dt := time - lastTime e in
  let e0 := set_lastTime time e in
  let e1 := set_difficulty
              (difficultyController (score e0) (now - startTime e0)) e0 in
  let e2 := set_objects (motionUpdater theme dt (difficulty e1) (objects e1)) e1 in
  let e3 := spawner settings dt rnd e2 in
  let '(e4, evs) := collisionResolver theme settings e3 in
  terminationCheck (e4, evs).

(** The engine, the events and the scheduling flag of a result. *)
Definition engine_of (r : Engine * list Event * bool) : Engine := fst (fst r).
Definition events_of (r : Engine * list Event * bool) : list Event := snd (fst r).
Definition again_of (r : Engine * list Event * bool) : bool := snd r.

(** The engine after the frames [fs] of a session started at [now0]. *)
Definition session (theme : GameTheme) (gameDifficulty : GameDifficulty)
    (now0 : Q) (fs : list Frame) : Engine :=
  engine_of (run theme gameDifficulty fs (engine gameDifficulty now0)).

(** The audio calls among the events: the hits, in order. *)
Definition is_hit_event (ev : Event) : bool :=
  match ev with
  | PlayCollect _ | PlayHazard _ => true
  | GameOver _ => false
  end.

Definition is_hazard (ev : Event) : bool :=
  match ev with PlayHazard _ => true | _ => false end.

Definition is_collect (ev : Event) : bool :=
  match ev with PlayCollect _ => true | _ => false end.

Definition is_game_over (ev : Event) : bool :=
  match ev with GameOver _ => true | _ => false end.

Definition hits (evs : list Event) : list Event := filter is_hit_event evs.

(** The number of hazard hits among the events, as a number. *)
Definition hazards (evs : list Event) : Q :=
  inject_Z (Z.of_nat (length (filter is_hazard evs))).

(** An object as the Motion Updater of the frame [f] leaves it. *)
Definition moved (theme : GameTheme) (f : Frame) (e : Engine)
    (obj : GameObject) : GameObject :=
  advance (Qmin (f_time f - lastTime e) 32 / 16.67) (gravityMult theme)
          (difficulty e) obj.

(** The largest step the clamp of line 93 lets through. *)
Definition maxStep : Q := 32 / 16.67.

(** The simulation part of the engine: everything but the paddle input. *)
Definition same_simulation (e e' : Engine) : Prop :=
  score e' = score e /\ lives e' = lives e /\ combo e' = combo e /\
  objects e' = objects e /\ difficulty e' = difficulty e /\
  spawnTimer e' = spawnTimer e /\ lastTime e' = lastTime e /\
  startTime e' = startTime e.

(** The fields the collision pass never writes. *)
Definition same_frame (e e' : Engine) : Prop :=
  objects e' = objects e /\ handX e' = handX e /\
  isHandDetected e' = isHandDetected e /\ difficulty e' = difficulty e /\
  spawnTimer e' = spawnTimer e /\ lastTime e' = lastTime e /\
  startTime e' = startTime e.

(** Unfolds one step of [resolve] in a hypothesis about its result and
    names the result of the recursive call. *)
Ltac step_resolve H rec :=
  cbn [resolve] in H;
  match type of H with
  | context [hit ?px ?py ?o] => destruct (hit px py o) eqn:?
  end;
  [ match type of H with
    | context [obj_type ?o] => destruct (obj_type o) eqn:?
    end | ];
  match type of H with
  | context [resolve ?t ?s ?px ?py ?r ?e] =>
      destruct (resolve t s px py r e) as [[? ?] ?] eqn:rec
  end;
  injection H as <- <- <-.

(** Unfolds one frame of [run] in a hypothesis about its result. *)
Ltac step_run H F R :=
  cbn [run] in H;
  match type of H with
  | context [frame ?t ?g ?f ?e] =>
      destruct (frame t g f e) as [[? ?] [|]] eqn:F
  end;
  [ match type of H with
    | context [run ?t ?g ?r ?e] =>
        destruct (run t g r e) as [[? ?] ?] eqn:R
    end | ];
  injection H as <- <- <-.

End Pipeline.

(** * Readings of the specification that are compared with the code *)

Module Readings.
Import GameWorld Pipeline.

(** Section 4.6, "time reference must be reset on resume": the first
    RUNNING frame after a PAUSED one sees no more time than has passed
    since that paused frame, so the spawn timer is advanced by at most that
    much, and an object is spawned only if that much is enough. *)
Definition resume_excludes_pause (theme : GameTheme)
    (gameDifficulty : GameDifficulty) : Prop :=
  forall (e : Engine) (fp fr : Frame),
    f_paused fp = true -> f_paused fr = false ->
    lastTime e <= f_time fp -> f_time fp <= f_time fr ->
    let e1 := engine_of (frame theme gameDifficulty fp e) in
    let e2 := engine_of (frame theme gameDifficulty fr e1) in
    let since := f_time fr - f_time fp in
    spawnTimer e2 <= spawnTimer e + since /\
    (spawnTimer e + since
       <= spawnRate (DIFFICULTY_SETTINGS gameDifficulty) (score e) ->
     (length (objects e2) <= length (objects e))%nat).

(** The four edges of the paddle rectangle; [Top] is the edge of the
    smaller y (the canvas y axis points down). *)
Inductive Edge : Type := Left | Right | Top | Bottom.

(** The point of [obj] lies on the given edge of the rectangle at
    [(px, py)], strictly between the two ends of that edge. *)
Definition on_edge (edge : Edge) (px py : Q) (obj : GameObject) : Prop :=
  match edge with
  | Left => obj_x obj == px /\ py < obj_y obj /\ obj_y obj < py + ph
  | Right => obj_x obj == px + pw /\ py < obj_y obj /\ obj_y obj < py + ph
  | Top => obj_y obj == py /\ px < obj_x obj /\ obj_x obj < px + pw
  | Bottom => obj_y obj == py + ph /\ px < obj_x obj /\ obj_x obj < px + pw
  end.

(** An edge belongs to the paddle (its points are hits) or does not. *)
Definition inclusive (edge : Edge) : Prop :=
  forall px py obj, on_edge edge px py obj -> hit px py obj = true.

Definition exclusive (edge : Edge) : Prop :=
  forall px py obj, on_edge edge px py obj -> hit px py obj = false.

(** Section 4.5, "inclusive on the lower/left bound, exclusive on the
    upper/right bound (or the converse)": on each axis exactly one of the
    two opposite edges belongs to the paddle. *)
Definition half_open_convention : Prop :=
  (inclusive Left /\ exclusive Right \/ exclusive Left /\ inclusive Right) /\
  (inclusive Top /\ exclusive Bottom \/ exclusive Top /\ inclusive Bottom).

(** Section 4.6 read literally: the objects a RUNNING frame leaves are at
    the heights the specification's stage order produces, that is, moved
    with the multiplier computed at the start of the same frame. *)
Definition multiplier_from_same_tick (theme : GameTheme)
    (gameDifficulty : GameDifficulty) : Prop :=
  forall (time now : Q) (rnd : Draws) (e : Engine),
    Forall2 (fun a b => obj_y a == obj_y b)
      (objects (engine_of (loop theme gameDifficulty false time now rnd e)))
      (objects (engine_of (loop_spec_order theme gameDifficulty time now rnd e))).

(** Section 4.4, "avoids tunneling through the paddle": in a session, no
    frame takes an object from above the paddle band (y < 490) to below it
    (y > 514). *)
Definition never_tunnels (theme : GameTheme)
    (gameDifficulty : GameDifficulty) : Prop :=
  forall (now0 : Q) (fs : list Frame) (f : Frame) (obj : GameObject),
    again_of (run theme gameDifficulty fs (engine gameDifficulty now0)) = true ->
    f_paused f = false ->
    let e := session theme gameDifficulty now0 fs in
    In obj (objects e) ->
    obj_y obj < paddle_py ->
    obj_y (moved theme f e obj) <= paddle_py + ph.

End Readings.

(** * Concrete sessions used as examples *)

Module Scenarios.
Import GameWorld Pipeline.

(** Random draws for a GOOD object at x = 400 with speed 6.7. *)
Definition draws_mid : Draws :=
  {| rnd_bad := 0.5; rnd_id := 0.125; rnd_x := 0.5; rnd_speed := 0.9;
     rnd_variant := 0.5 |}.

(** Random draws for a GOOD object at the left margin, x = 50. *)
Definition draws_left : Draws :=
  {| rnd_bad := 0.9; rnd_id := 0.25; rnd_x := 0; rnd_speed := 0;
     rnd_variant := 0 |}.

(** A RUNNING frame at [t] ms after the start of the session, with no
    input since the previous frame. *)
Definition running (t : Q) (rnd : Draws) : Frame :=
  {| f_paused := false; f_inputs := []; f_time := t; f_now := t; f_rnd := rnd |}.

(** A PAUSED frame at [t]. *)
Definition paused (t : Q) : Frame :=
  {| f_paused := true; f_inputs := []; f_time := t; f_now := t;
     f_rnd := draws_left |}.

(** [n] RUNNING frames 16.67 ms apart, the first one at [t]. *)
Fixpoint steady (n : nat) (t : Q) : list Frame :=
  match n with
  | O => []
  | S m => running t draws_left :: steady m (Qred (t + 16.67))
  end.

(** A session whose tab is hidden for five minutes: a first frame after
    1001 ms spawns an object above the paddle; the next frame comes at
    300000 ms, and frames then follow at 60 Hz. *)
Definition hidden_tab (n : nat) : list Frame :=
  running 1001 draws_mid :: steady n 300000.

(** The frame that follows [hidden_tab n]. *)
Definition next_steady (n : nat) : Frame :=
  nth n (steady (S n) 300000) (paused 0).

(** A session paused for a minute: a first frame at 1001 ms spawns an
    object, a paused frame comes at 61001 ms, and the first frame after
    resuming at 61017 ms. *)
Definition first_frame : Frame := running 1001 draws_mid.
Definition pause_frame : Frame := paused 61001.
Definition resume_frame : Frame := running 61017 draws_left.

(** A hazard at height [y] in the column of the centred paddle. *)
Definition hazard_at (y : Q) : GameObject :=
  {| obj_id := y; obj_x := 400; obj_y := y; obj_radius := 20; obj_speed := 4;
     obj_type := BAD; obj_variant := 0 |}.

(** An EASY game about to be lost: five hazards coming down on the paddle,
    2.5 pixels apart, the lowest just above the paddle. *)
Definition five_hazards : Engine :=
  set_objects (map hazard_at [489; 486.5; 484; 481.5; 479])
    (set_lastTime 1000 (engine EASY 0)).

End Scenarios.

(** * Further definitions: ranges and invariants *)

Module Ranges.
Import VisionTracker.

(** A normalized position. *)
Definition unit_interval (x : Q) : Prop := 0 <= x /\ x <= 1.

(** The test of line 103. *)
Definition bright (pixel : Z) : bool :=
  if Qlt_le_dec 180 (brightness pixel) then true else false.

(** The columns of the bright pixels of [data], in array order, when the
    head of [data] has index [i]. *)
Fixpoint bright_columns (data : list Z) (i : Z) : list Z :=
  match data with
  | [] => []
  | pixel :: rest =>
      if bright pixel
      then (i mod procWidth)%Z :: bright_columns rest (i + 1)%Z
      else bright_columns rest (i + 1)%Z
  end.

Definition sumZ (l : list Z) : Z := fold_right Z.add 0%Z l.

(** The centroid that line 113 computes from the result of [scan]. *)
Definition rawMeasurement (sumX count : Z) : Q :=
  (inject_Z sumX / inject_Z count) / inject_Z procWidth.

(** A report, when there is one, carries a normalized position. *)
Definition report_in_range (rep : Report) : Prop :=
  match rep with
  | Some (x, _) => unit_interval x
  | None => True
  end.

End Ranges.

Module Health.
Import GameWorld Pipeline Ranges.

(** A result of [Math.random()]: a number in [0, 1). *)
Definition random (d : Q) : Prop := 0 <= d /\ d < 1.

Definition fair (rnd : Draws) : Prop :=
  random (rnd_bad rnd) /\ random (rnd_id rnd) /\ random (rnd_x rnd) /\
  random (rnd_speed rnd) /\ random (rnd_variant rnd).

(** An input the two producers can deliver: a vision report carries a
    normalized position, a mouse event comes with the bounding box of a
    container of positive width. *)
Definition valid_input (i : Input) : Prop :=
  match i with
  | HandUpdate x _ => unit_interval x
  | MouseMove _ _ rectWidth => 0 < rectWidth
  end.

(** A frame that comes no earlier than time [t] on the frame clock and [n]
    on the wall clock, with fair draws and valid inputs. *)
Definition orderly_frame (t n : Q) (f : Frame) : Prop :=
  t <= f_time f /\ n <= f_now f /\ fair (f_rnd f) /\
  Forall valid_input (f_inputs f).

(** Frames in chronological order on both clocks, starting from [t] and
    [n]. *)
Fixpoint orderly (t n : Q) (fs : list Frame) : Prop :=
  match fs with
  | [] => True
  | f :: rest => orderly_frame t n f /\ orderly (f_time f) (f_now f) rest
  end.

(** The last frame time and wall-clock time of a list of frames. *)
Fixpoint clock (t n : Q) (fs : list Frame) : Q * Q :=
  match fs with
  | [] => (t, n)
  | f :: rest => clock (f_time f) (f_now f) rest
  end.

(** A whole number. *)
Definition whole (v : Q) : Prop := exists z : Z, v == inject_Z z.

(** The counters of the engine as the scoring rules keep them. *)
Definition tallied (gameDifficulty : GameDifficulty) (e : Engine) : Prop :=
  whole (score e) /\ whole (combo e) /\ whole (lives e) /\
  0 <= score e /\ 0 <= combo e /\
  lives e <= initialLives (DIFFICULTY_SETTINGS gameDifficulty).

(** An object as the spawner makes it and the Motion Updater keeps it.
    The upper bound of the speed is not strict: on doubles the sum
    [4 + Math.random() * 3] of line 115 rounds to 7 for the largest draw
    below 1. *)
Definition well_formed (obj : GameObject) : Prop :=
  (50 <= obj_x obj /\ obj_x obj < 750) /\
  (4 <= obj_speed obj /\ obj_speed obj <= 7) /\
  obj_radius obj == 20 /\
  (0 <= obj_variant obj <= 2)%Z /\
  (- (50) <= obj_y obj /\ obj_y obj < 650).

(** The timing side of the engine at frame time [t] and wall-clock time
    [n]. *)
Definition healthy (gameDifficulty : GameDifficulty) (t n : Q) (e : Engine)
  : Prop :=
  (0 <= lastTime e /\ lastTime e <= t) /\
  startTime e <= n /\
  0 <= score e /\ 0 <= combo e /\
  (1 <= difficulty e /\
   difficulty e <= difficultyController (score e) (n - startTime e)) /\
  (0 <= spawnTimer e /\
   spawnTimer e <= spawnRateBase (DIFFICULTY_SETTINGS gameDifficulty)) /\
  Forall well_formed (objects e) /\
  unit_interval (handX e).

(** The audio call a hit object triggers. *)
Definition sound_of (theme : GameTheme) (obj : GameObject) : Event :=
  match obj_type obj with
  | GOOD => PlayCollect theme
  | BAD => PlayHazard theme
  end.

(** The combo after the hits [evs], starting from [c]. *)
Definition streak (c : nat) (evs : list Event) : nat :=
  fold_left (fun c ev => match ev with
                         | PlayCollect _ => S c
                         | PlayHazard _ => O
                         | GameOver _ => c
                         end) evs c.

(** The points the hits [evs] earn when the combo is [c] before the first
    of them. *)
Fixpoint points (c : nat) (evs : list Event) : nat :=
  match evs with
  | [] => 0
  | PlayCollect _ :: rest => 5 + c / 4 + points (S c) rest
  | PlayHazard _ :: rest => points 0 rest
  | GameOver _ :: rest => points c rest
  end.

End Health.

(** * The end of a game *)

Module Endings.
Import GameWorld Pipeline Scenarios Health.

(** The end-to-end scenario of section 8 of the specification, "five
    consecutive BAD hits ... produce exactly one terminal event whose
    finalScore equals the score accumulated up to the fifth hit", read
    literally: when the hits of a session from the EASY start are GOOD hits
    [pre], then five hazard hits, then whatever else is resolved [post], the
    argument of [onGameOver] is the score that [pre] has earned. *)
Definition final_score_is_fixed_at_the_fifth_hit (theme : GameTheme) : Prop :=
  forall (now0 : Q) (fs : list Frame) (pre post : list Event) (finalScore : Q),
    Forall (fun ev => is_collect ev = true) pre ->
    hits (events_of (run theme EASY fs (engine EASY now0)))
    = pre ++ repeat (PlayHazard theme) 5 ++ post ->
    In (GameOver finalScore) (events_of (run theme EASY fs (engine EASY now0))) ->
    finalScore == inject_Z (Z.of_nat (points 0 pre)).

(** Random draws for a hazard of speed 4 in the column of the centred
    paddle, x = 400. *)
Definition draws_hazard : Draws :=
  {| rnd_bad := 0; rnd_id := 0.5; rnd_x := 0.5; rnd_speed := 0;
     rnd_variant := 0 |}.

(** Random draws for a GOOD object of speed 4.1 in the same column. *)
Definition draws_chaser : Draws :=
  {| rnd_bad := 0.5; rnd_id := 0.75; rnd_x := 0.5; rnd_speed := 1 # 30;
     rnd_variant := 0 |}.

(** RUNNING frames [dt] ms apart, the first one at [t], one for each of the
    given draws. *)
Fixpoint paced (dt t : Q) (draws : list Draws) : list Frame :=
  match draws with
  | [] => []
  | rnd :: rest => running t rnd :: paced dt (Qred (t + dt)) rest
  end.

(** A session throttled to one frame every 1201 ms, so that every frame
    spawns an object: five hazards, a slightly faster GOOD object right
    behind them, and then GOOD objects at the left margin, which the centred
    paddle never reaches. *)
Definition crowded_finish : list Frame :=
  paced 1201 1201
    (repeat draws_hazard 5 ++ draws_chaser :: repeat draws_left 42).

End Endings.

Module Inputs.
Import GameWorld.

(** The last vision report among the inputs, if any. *)
Definition last_report (inputs : list Input) : option (Q * bool) :=
  fold_left (fun acc i => match i with
                          | HandUpdate x detected => Some (x, detected)
                          | MouseMove _ _ _ => acc
                          end) inputs None.

End Inputs.

(** * App.tsx: what happens to the score a game reports *)

Module App.
Import GameWorld String Sorted.
#[local] Open Scope string_scope.
#[local] Open Scope list_scope.
#[local] Open Scope Q_scope.

(** Modelled from the spec: the declarations of [./types] ([GameScene],
    [InputMode], [PlayerAvatar], [LeaderboardEntry]) are not among the
    sources; the constructors and fields are the ones [App.tsx] uses (the
    scenes it renders, the object literals of [AVATARS] and of
    [handleGameOver]). *)
Inductive GameScene : Type :=
  START_MENU | HOW_TO_PLAY | GAMEPLAY | GAME_OVER | LEADERBOARD.

Inductive InputMode : Type := CURSOR | VISION.

Record PlayerAvatar : Type := mkAvatar {
  avatar_id : string;
  avatar_name : string;
  avatar_emoji : string;
  avatar_color : string
}.

Record LeaderboardEntry : Type := mkEntry {
  entry_id : string;
  entry_pilotName : string;
  entry_avatarId : string;
  entry_score : Q;
  entry_theme : GameTheme;
  entry_difficulty : GameDifficulty;
  entry_date : Q
}.

(** The four avatars of the start menu. *)
Definition AVATARS : list PlayerAvatar :=
  [ mkAvatar "aero" "Aero" "🧑‍🚀" "#60a5fa";
    mkAvatar "nova" "Nova" "👩‍🎤" "#f472b6";
    mkAvatar "gears" "Gears" "🤖" "#fbbf24";
    mkAvatar "leaf" "Leaf" "🧚" "#4ade80" ].

(** The state of the [App] component. *)
Record AppState : Type := mkApp {
  currentScene : GameScene;
  app_inputMode : InputMode;
  app_theme : GameTheme;
  app_difficulty : GameDifficulty;
  selectedAvatar : PlayerAvatar;
  pilotName : string;
  lastScore : Q;
  leaderboard : list LeaderboardEntry
}.

(** The state of the first render; [saved] is the list parsed from local
    storage, or the empty list. *)
Definition initialApp (saved : list LeaderboardEntry) : AppState :=
  {| currentScene := START_MENU;
     app_inputMode := CURSOR;
     app_theme := COSMIC;
     app_difficulty := MEDIUM;
     selectedAvatar := mkAvatar "aero" "Aero" "🧑‍🚀" "#60a5fa";
     pilotName := "PILOT_01";
     lastScore := 0;
     leaderboard := saved |}.

(** [Math.max(...xs)] for a list with a first element. *)
Definition maximum (x : Q) (xs : list Q) : Q := fold_left Qmax xs x.

(** [highScore] as every render computes it. *)
Definition highScore (board : list LeaderboardEntry) : Q :=
  match map entry_score board with
  | [] => 0
  | x :: xs => maximum x xs
  end.

(** [sort((a, b) => b.score - a.score)]: the sort of an array is stable, so
    with this comparator it is the one arrangement by decreasing score that
    keeps entries of equal score in their order; written here as insertion
    from the right. *)
Fixpoint insert (x : LeaderboardEntry) (l : list LeaderboardEntry)
  : list LeaderboardEntry :=
  match l with
  | [] => [x]
  | y :: rest =>
      if GameWorld.ltb (entry_score x) (entry_score y)
      then y :: insert x rest
      else x :: y :: rest
  end.

Definition sortByScore (l : list LeaderboardEntry) : list LeaderboardEntry :=
  fold_right insert [] l.

(** [pilotName || 'ANONYMOUS']. *)
Definition nameOrAnonymous (name : string) : string :=
  if String.eqb name "" then "ANONYMOUS" else name.

(** [handleGameOver].  [id] is the identifier drawn for the entry, [now]
    the [Date.now()] of its date. *)
Definition handleGameOver (score : Q) (id : string) (now : Q) (st : AppState)
  : AppState :=
  let newEntry :=
    {| entry_id := id;
       entry_pilotName := nameOrAnonymous (pilotName st);
       entry_avatarId := avatar_id (selectedAvatar st);
       entry_score := floorQ score;
       entry_theme := app_theme st;
       entry_difficulty := app_difficulty st;
       entry_date := now |} in
  mkApp GAME_OVER (app_inputMode st) (app_theme st) (app_difficulty st)
        (selectedAvatar st) (pilotName st) score
        (firstn 10 (sortByScore (leaderboard st ++ [newEntry]))).

(** The entry [handleGameOver] makes. *)
Definition newEntry (score : Q) (id : string) (now : Q) (st : AppState)
  : LeaderboardEntry :=
  mkEntry id (nameOrAnonymous (pilotName st)) (avatar_id (selectedAvatar st))
          (floorQ score) (app_theme st) (app_difficulty st) now.

(** A board in decreasing order of score. *)
Definition descending (l : list LeaderboardEntry) : Prop :=
  StronglySorted (fun a b => entry_score b <= entry_score a) l.

(** The entries of [l] that score at least [s], and those that score
    less, in order. *)
Definition at_least (s : Q) (l : list LeaderboardEntry)
  : list LeaderboardEntry :=
  filter (fun en => Qle_bool s (entry_score en)) l.

Definition below (s : Q) (l : list LeaderboardEntry)
  : list LeaderboardEntry :=
  filter (fun en => GameWorld.ltb (entry_score en) s) l.

(** The entries of [l] whose score is [s], in order. *)
Definition with_score (s : Q) (l : list LeaderboardEntry)
  : list LeaderboardEntry :=
  filter (fun en => Qeq_bool (entry_score en) s) l.

End App.

(** * GameOver.tsx *)

Module GameOverScreen.
Import String.
#[local] Open Scope string_scope.
#[local] Open Scope Q_scope.

(** Line 13. *)
Definition isNewHigh (score highScore : Q) : bool :=
  Qle_bool highScore score && GameWorld.ltb 0 score.

Record Evaluation : Type := mkEvaluation {
  rank : string;
  title : string;
  color : string;
  desc : string
}.

(** Lines 15-21. *)
Definition evaluation (score : Q) : Evaluation :=
  if Qle_bool 3000 score then
    mkEvaluation "S" "SINGULARITY ENTITY" "text-purple-400"
                 "Transcended physical constraints."
  else if Qle_bool 1500 score then
    mkEvaluation "A" "VOID ARCHITECT" "text-blue-400"
                 "Mastery of gravitational flux detected."
  else if Qle_bool 750 score then
    mkEvaluation "B" "GRAVITY MASTER" "text-emerald-400"
                 "Superior neural coordination."
  else if Qle_bool 250 score then
    mkEvaluation "C" "KINETIC PILOT" "text-yellow-400"
                 "Standard operational proficiency."
  else
    mkEvaluation "D" "NEURAL NOVICE" "text-zinc-500"
                 "Neural synchronization failed early.".

(** The ranks from the lowest to the highest. *)
Definition grade (r : string) : nat :=
  if String.eqb r "S" then 4
  else if String.eqb r "A" then 3
  else if String.eqb r "B" then 2
  else if String.eqb r "C" then 1
  else 0.

End GameOverScreen.

(** * Leaderboard.tsx *)

Module LeaderboardView.
Import App String.
#[local] Open Scope string_scope.

(** [getAvatarEmoji]: the emoji of the first avatar with the identifier,
    or the default glyph when there is none or its emoji is empty. *)
Definition getAvatarEmoji (avatars : list PlayerAvatar) (id : string) : string :=
  match find (fun a => String.eqb (avatar_id a) id) avatars with
  | Some a => if String.eqb (avatar_emoji a) "" then "👤" else avatar_emoji a
  | None => "👤"
  end.

End LeaderboardView.

(** * AudioEngine: the generated background sound *)

Module AudioEngine.
Import Health.






Inductive OscillatorType : Type := sine | square | sawtooth | triangle.

(** What [playTick] schedules: one oscillator from [tick_start] to
    [tick_stop], its gain rising to [tick_vol] at [tick_attack] and falling
    to 0.001 at [tick_release], connected to the delay line or to the master
    gain.  The frequency is [None] where the source reads [undefined]. *)
Record Tick : Type := mkTick {
  tick_wave : OscillatorType;
  tick_frequency : option Q;
  tick_vol : Q;
  tick_start : Q;
  tick_attack : Q;
  tick_release : Q;
  tick_stop : Q;
  tick_delayed : bool
}.

(** [playTick(time, noteIndex)] of [createMelodyPattern], with the audio
    context present; [rnd] is its call of [Math.random()]. *)
Definition playTick (notes : list Q) (step : Q) (type : OscillatorType)
    (vol : Q) (useDelay : bool) (randomFactor : Q) (rnd : Q)
    (time : Q) (noteIndex : nat) : Tick :=
  let freq := nth_error notes (noteIndex mod length notes) in
  {| tick_wave := type;
     tick_frequency :=
       match freq with
       | Some f => Some (f + rnd * randomFactor * f)
       | None => None
       end;
     tick_vol := vol;
     tick_start := time;
     tick_attack := time + 0.01;
     tick_release := time + step * 0.9;
     tick_stop := time + step;
     tick_delayed := useDelay |}.

(** [createMelodyPattern]: the 300 ticks scheduled from [now], the
    [currentTime] of the context; [rnd i] is the draw of tick [i]. *)
Definition createMelodyPattern (notes : list Q) (step : Q)
    (type : OscillatorType) (vol : Q) (useDelay : bool) (randomFactor : Q)
    (now : Q) (rnd : nat -> Q) : list Tick :=
  map (fun i => playTick notes step type vol useDelay randomFactor (rnd i)
                  (now + inject_Z (Z.of_nat i) * step) i)
      (seq 0 300).

(** The melody of the theme with the chimes (line 182). *)
Definition chimes (now : Q) (rnd : nat -> Q) : list Tick :=
  createMelodyPattern [2000; 2500; 3000] 4.0 sine 0.01 true 0.1 now rnd.

End AudioEngine.

(** * Properties *)

(** Closed numeric side conditions are settled by evaluation. *)
Ltac by_eval :=
  vm_compute;
  solve [ reflexivity | discriminate | intro; discriminate
        | repeat split; solve [ reflexivity | discriminate | intro; discriminate ] ].

(** ** The input estimator *)

Module VisionTrackerFacts.
Import VisionTracker.

Lemma gain_pos k : sound k -> 0 < gain k.
Proof.
  intros (Hp & Hq & Hr). unfold gain, predicted.
  apply Qlt_shift_div_l; lra.
Qed.

Lemma gain_lt_1 k : sound k -> gain k < 1.
Proof.
  intros (Hp & Hq & Hr). unfold gain, predicted.
  apply Qlt_shift_div_r; lra.
Qed.

Lemma update_x k z : k_x (kalman_update z k) == k_x k + gain k * (z - k_x k).
Proof. reflexivity. Qed.

Lemma one_minus_gain k : sound k ->
  1 - gain k == k_r k / (predicted k + k_r k).
Proof.
  intros (Hp & Hq & Hr). unfold gain, predicted. field. lra.
Qed.

(** The variance stays non-negative and the noise constants are never
    written: soundness is an invariant of the update. *)
Lemma update_sound z k : sound k -> sound (kalman_update z k).
Proof.
  intros Hk. pose proof (gain_lt_1 k Hk) as Hg.
  destruct Hk as (Hp & Hq & Hr). unfold sound.
  cbn [kalman_update k_p k_q k_r]. repeat split; try assumption.
  unfold gain, predicted in Hg. apply Qmult_le_0_compat; lra.
Qed.

Lemma hold_sound n z k : sound k -> sound (hold n z k).
Proof. intros H. induction n; cbn [hold]; auto using update_sound. Qed.

Lemma hold_noise n z k :
  k_q (hold n z k) = k_q k /\ k_r (hold n z k) = k_r k.
Proof. induction n; cbn [hold kalman_update k_q k_r]; auto. Qed.

Lemma gains_bounded zs : forall k, sound k ->
  Forall (fun g => 0 < g /\ g < 1) (gains zs k).
Proof.
  induction zs as [|z zs IH]; intros k Hk; cbn [gains]; constructor.
  - split; [apply gain_pos | apply gain_lt_1]; assumption.
  - apply IH, update_sound, Hk.
Qed.

Lemma update_between z k : sound k ->
  (k_x k <= k_x (kalman_update z k) /\ k_x (kalman_update z k) <= z) \/
  (z <= k_x (kalman_update z k) /\ k_x (kalman_update z k) <= k_x k).
Proof.
  intros Hk.
  pose proof (gain_pos k Hk) as G0. pose proof (gain_lt_1 k Hk) as G1.
  rewrite update_x.
  destruct (Qlt_le_dec z (k_x k)) as [Hlt|Hle]; [right|left]; split; nra.
Qed.

(** One update multiplies the distance to the measurement by [1 - gain],
    that is by [r / (p + q + r)]. *)
Lemma update_error z k : sound k ->
  Qabs (k_x (kalman_update z k) - z) * (predicted k + k_r k)
  == k_r k * Qabs (k_x k - z).
Proof.
  intros Hk.
  assert (E : k_x (kalman_update z k) - z == (1 - gain k) * (k_x k - z)).
  { rewrite update_x. ring. }
  rewrite E, Qabs_Qmult.
  rewrite (Qabs_pos (1 - gain k)) by (pose proof (gain_lt_1 k Hk); lra).
  rewrite one_minus_gain by assumption.
  destruct Hk as (Hp & Hq & Hr). field. unfold predicted. lra.
Qed.

(** After [n] updates the distance has shrunk at least like
    [r / (r + n q)]. *)
Lemma err_decay n z k : sound k ->
  err n z k * (k_r k + inject_Z (Z.of_nat n) * k_q k) <= k_r k * err 0 z k.
Proof.
  intros Hk. induction n as [|n IH].
  - unfold err; cbn [hold]. change (inject_Z (Z.of_nat 0)) with 0. lra.
  - pose proof (hold_sound n z k Hk) as (Hp & Hq & Hr).
    pose proof (update_error z (hold n z k) (hold_sound n z k Hk)) as E.
    destruct (hold_noise n z k) as [Eq Er]. rewrite Eq, Er in *.
    unfold predicted in E. rewrite Eq in E.
    change (k_x (kalman_update z (hold n z k))) with (k_x (hold (S n) z k)) in E.
    fold (err (S n) z k) in E. fold (err n z k) in E.
    assert (A0 : 0 <= err (S n) z k) by apply Qabs_nonneg.
    assert (B0 : 0 <= err n z k) by apply Qabs_nonneg.
    assert (N0 : 0 <= inject_Z (Z.of_nat n)).
    { change 0 with (inject_Z 0). rewrite <- Zle_Qle. lia. }
    assert (NS : inject_Z (Z.of_nat (S n)) == inject_Z (Z.of_nat n) + 1).
    { rewrite Nat2Z.inj_succ. unfold Z.succ. rewrite inject_Z_plus. reflexivity. }
    rewrite NS.
    set (a := err (S n) z k) in *. set (b := err n z k) in *.
    set (m := inject_Z (Z.of_nat n)) in *.
    set (p := k_p (hold n z k)) in *. set (q := k_q k) in *. set (r := k_r k) in *.
    apply Qle_trans with (b * (r + m * q)); [|exact IH].
    apply (Qmult_lt_0_le_reg_r _ _ (p + q + r)); [lra|].
    assert (E1 : a * (r + (m + 1) * q) * (p + q + r) == r * b * (r + (m + 1) * q)).
    { rewrite <- E. ring. }
    rewrite E1.
    assert (0 <= b * (m * q * q + p * (r + m * q))).
    { apply Qmult_le_0_compat; [assumption|].
      assert (0 <= m * q * q) by (repeat apply Qmult_le_0_compat; lra).
      assert (0 <= m * q) by (apply Qmult_le_0_compat; lra).
      assert (0 <= p * (r + m * q)) by (apply Qmult_le_0_compat; lra).
      lra. }
    lra.
Qed.

Lemma err_vanishes z k eps : sound k -> 0 < eps ->
  exists N : nat, forall n, (N <= n)%nat -> err n z k < eps.
Proof.
  intros Hk Heps. pose proof Hk as (Hp & Hq & Hr).
  set (c := k_r k * err 0 z k / (k_q k * eps)).
  exists (S (Z.to_nat (Qceiling c))). intros n Hn.
  pose proof (err_decay n z k Hk) as D.
  assert (A0 : 0 <= err n z k) by apply Qabs_nonneg.
  assert (Hqe : 0 < k_q k * eps) by (apply Qmult_lt_0_compat; assumption).
  assert (C0 : 0 <= c).
  { unfold c. apply Qle_shift_div_l; [assumption|].
    assert (0 <= k_r k * err 0 z k)
      by (apply Qmult_le_0_compat; [lra | apply Qabs_nonneg]).
    lra. }
  assert (Hc : c < inject_Z (Z.of_nat n)).
  { apply Qle_lt_trans with (inject_Z (Qceiling c)); [apply Qle_ceiling|].
    rewrite <- Zlt_Qlt.
    assert (0 <= Qceiling c)%Z.
    { rewrite Zle_Qle. apply Qle_trans with c; [exact C0 | apply Qle_ceiling]. }
    lia. }
  set (m := inject_Z (Z.of_nat n)) in *.
  assert (Hm : 0 < m) by lra.
  assert (Hc' : k_r k * err 0 z k < m * (k_q k * eps)).
  { assert (E : k_r k * err 0 z k == c * (k_q k * eps)).
    { unfold c. field. lra. }
    rewrite E. apply Qmult_lt_compat_r; assumption. }
  assert (Hmq : 0 < m * k_q k) by (apply Qmult_lt_0_compat; assumption).
  destruct (Qlt_le_dec (err n z k) eps) as [Hlt|Hge]; [exact Hlt|exfalso].
  assert (m * k_q k * eps <= m * k_q k * err n z k).
  { apply Qmult_le_l; assumption. }
  assert (0 <= err n z k * k_r k) by (apply Qmult_le_0_compat; lra).
  lra.
Qed.

(** C5.  One update of the filter from x = 0.5, p = 1.0 with q = 0.08,
    r = 0.04 and the measurement 1.0: the predicted variance is 1.08, the
    gain is 1.08/1.12 (0.9643 to four places) and the new estimate is
    0.5 + gain * 0.5 (0.9821 to four places). *)
Theorem literal_update :
  let k := mkKalman 0.5 1.0 0.08 0.04 in
  k = kalmanX /\
  predicted k == 1.08 /\
  gain k == 1.08 / 1.12 /\
  Qabs (gain k - 0.9643) < 0.0001 /\
  k_x (kalman_update 1.0 k) == 0.5 + gain k * 0.5 /\
  Qabs (k_x (kalman_update 1.0 k) - 0.9821) < 0.0001.
Proof. by_eval. Qed.

(** The same example on binary64 numbers, as the program computes it: the
    predicted variance is the double [1 + 0.08] (which is the double written
    1.08), the gain is the double [1.08 / 1.12], and the estimate rounds to
    0.9821. *)
#[local] Set Warnings "-inexact-float".
Lemma literal_update_f64 :
  let '(p1, g, x1) := kalman_update_f64 1 0.5 1 0.08 0.04 in
  (p1 = 1 + 0.08 /\ g = 1.08 / 1.12)%float /\
  (PrimFloat.ltb 0.9642 g && PrimFloat.ltb g 0.9644
   && PrimFloat.ltb 0.98205 x1 && PrimFloat.ltb x1 0.98215)%bool = true.
Proof. vm_compute. repeat split. Qed.

(** C6.  With a non-negative variance and positive noise constants, every
    gain computed along any sequence of updates lies strictly between 0 and
    1; and when the same measurement [z] is fed again and again, each new
    estimate lies between the previous one and [z] (no overshoot, the
    distance never grows) and the estimates converge to [z]. *)
Theorem filter_converges (k : Kalman) (z : Q) :
  0 <= k_p k -> 0 < k_q k -> 0 < k_r k ->
  (forall zs, Forall (fun g => 0 < g /\ g < 1) (gains zs k)) /\
  (forall n,
      (k_x (hold n z k) <= k_x (hold (S n) z k) /\ k_x (hold (S n) z k) <= z) \/
      (z <= k_x (hold (S n) z k) /\ k_x (hold (S n) z k) <= k_x (hold n z k))) /\
  (forall n, err (S n) z k <= err n z k) /\
  (forall eps, 0 < eps ->
     exists N : nat, forall n, (N <= n)%nat -> Qabs (k_x (hold n z k) - z) < eps).
Proof.
  intros Hp Hq Hr.
  assert (Hk : sound k) by (repeat split; assumption).
  split; [|split; [|split]].
  - intros zs. apply gains_bounded, Hk.
  - intros n. cbn [hold]. apply update_between, hold_sound, Hk.
  - intros n. unfold err. cbn [hold].
    destruct (update_between z (hold n z k) (hold_sound n z k Hk)) as [[A B]|[A B]].
    + rewrite !Qabs_neg by lra. lra.
    + rewrite !Qabs_pos by lra. lra.
  - intros eps Heps. apply (err_vanishes z k eps Hk Heps).
Qed.

Lemma filter_converges_witness :
  (0 <= k_p kalmanX /\ 0 < k_q kalmanX /\ 0 < k_r kalmanX) /\
  (forall zs, Forall (fun g => 0 < g /\ g < 1) (gains zs kalmanX)) /\
  (forall n,
      (k_x (hold n 1 kalmanX) <= k_x (hold (S n) 1 kalmanX)
       /\ k_x (hold (S n) 1 kalmanX) <= 1) \/
      (1 <= k_x (hold (S n) 1 kalmanX)
       /\ k_x (hold (S n) 1 kalmanX) <= k_x (hold n 1 kalmanX))) /\
  (forall n, err (S n) 1 kalmanX <= err n 1 kalmanX) /\
  (forall eps, 0 < eps ->
     exists N : nat, forall n, (N <= n)%nat ->
       Qabs (k_x (hold n 1 kalmanX) - 1) < eps).
Proof.
  split; [by_eval|].
  apply (filter_converges kalmanX 1); by_eval.
Defined.



(** When the camera is refused or the video is not playable yet, the frame
    is skipped: the filter state is held, nothing is reported to the
    engine, and the next frame is still requested. *)
Lemma camera_absent_reports_nothing k :
  processFrame NotReady k = (k, None, true).
Proof. reflexivity. Qed.



End VisionTrackerFacts.

(** ** The engine *)

Module GameWorldFacts.
Import GameWorld Pipeline Readings Scenarios.

Lemma ltb_lt a b : ltb a b = true <-> a < b.
Proof.
  unfold ltb. rewrite negb_true_iff.
  destruct (Qle_bool b a) eqn:E.
  - apply Qle_bool_iff in E. split; [discriminate | intros H; exfalso; lra].
  - split; [intros _ | reflexivity].
    apply Qnot_le_lt. intros H. apply Qle_bool_iff in H. congruence.
Qed.

Lemma ltb_ge a b : ltb a b = false <-> b <= a.
Proof.
  unfold ltb. rewrite negb_false_iff. apply Qle_bool_iff.
Qed.

Lemma same_frame_refl e : same_frame e e.
Proof. repeat split. Qed.

Lemma same_frame_trans e1 e2 e3 :
  same_frame e1 e2 -> same_frame e2 e3 -> same_frame e1 e3.
Proof.
  unfold same_frame. intros (A1 & A2 & A3 & A4 & A5 & A6 & A7)
                            (B1 & B2 & B3 & B4 & B5 & B6 & B7).
  repeat split; congruence.
Qed.

Section Resolve.
Variables (theme : GameTheme) (settings : Settings) (px py : Q).

Lemma resolve_same_frame objs : forall e e' kept evs,
  resolve theme settings px py objs e = (e', kept, evs) -> same_frame e e'.
Proof.
  induction objs as [|obj rest IH]; intros e e' kept evs H.
  - injection H as <- <- <-. apply same_frame_refl.
  - step_resolve H R; apply IH in R;
      (eapply same_frame_trans; [|exact R]); repeat split.
Qed.

Lemma resolve_kept objs : forall e e' kept evs,
  resolve theme settings px py objs e = (e', kept, evs) ->
  kept = filter (fun o => negb (hit px py o)) objs.
Proof.
  induction objs as [|obj rest IH]; intros e e' kept evs H.
  - injection H as <- <- <-. reflexivity.
  - step_resolve H R; apply IH in R; cbn [filter];
      match goal with Hh : hit _ _ _ = _ |- _ => rewrite Hh end;
      cbn [negb]; congruence.
Qed.

(** The pass only ever sends out audio calls, one per hit. *)
Lemma resolve_events objs : forall e e' kept evs,
  resolve theme settings px py objs e = (e', kept, evs) ->
  Forall (fun ev => is_hit_event ev = true) evs.
Proof.
  induction objs as [|obj rest IH]; intros e e' kept evs H.
  - injection H as <- <- <-. constructor.
  - step_resolve H R; apply IH in R; try constructor; auto.
Qed.

Lemma floor_quarter_nonneg c : 0 <= c -> 0 <= floorQ (c / 4).
Proof.
  intros H. unfold floorQ. change 0 with (inject_Z 0).
  rewrite <- Zle_Qle. change 0%Z with (Qfloor 0).
  apply Qfloor_resp_le. apply Qle_shift_div_l; lra.
Qed.

(** The score never goes down in the pass, and the combo stays
    non-negative. *)
Lemma resolve_score_mono objs : forall e e' kept evs,
  resolve theme settings px py objs e = (e', kept, evs) ->
  0 <= combo e -> score e <= score e' /\ 0 <= combo e'.
Proof.
  induction objs as [|obj rest IH]; intros e e' kept evs H Hc.
  - injection H as <- <- <-. split; [lra | assumption].
  - pose proof (floor_quarter_nonneg (combo e) Hc) as Hf.
    step_resolve H R; apply IH in R; cbn in *; lra.
Qed.

(** Without a collected object the score is not written at all. *)
Lemma resolve_score_same objs : forall e e' kept evs,
  resolve theme settings px py objs e = (e', kept, evs) ->
  filter is_collect evs = [] -> score e' = score e.
Proof.
  induction objs as [|obj rest IH]; intros e e' kept evs H Hn.
  - injection H as <- <- <-. reflexivity.
  - step_resolve H R; cbn [filter is_collect] in Hn; try discriminate;
      apply IH in R; auto.
Qed.

(** Each hazard hit costs [hazardPenalty] lives; nothing else writes the
    lives. *)
Lemma resolve_lives objs : forall e e' kept evs,
  resolve theme settings px py objs e = (e', kept, evs) ->
  lives e' == lives e - hazardPenalty settings * hazards evs.
Proof.
  induction objs as [|obj rest IH]; intros e e' kept evs H.
  - injection H as <- <- <-. unfold hazards. cbn. ring.
  - step_resolve H R; apply IH in R; rewrite R; unfold hazards;
      cbn [filter is_hazard length set_score set_combo set_lives lives].
    + reflexivity.
    + rewrite Nat2Z.inj_succ. unfold Z.succ. rewrite inject_Z_plus. ring.
    + reflexivity.
Qed.

End Resolve.

(** [loop] on a RUNNING frame is the composition of the stages in the
    order Motion Updater, Spawner, Collision Resolver, Difficulty
    Controller, termination check. *)
Lemma loop_running theme gd time now rnd e :
  loop theme gd false time now rnd e = loop_code_order theme gd time now rnd e.
Proof.
  unfold loop, loop_code_order, collisionResolver, terminationCheck, spawner,
    motionUpdater, difficultyController, paddle_px, paddle_py.
  cbv zeta. cbn [negb].
  match goal with
  | |- context [resolve ?t ?s ?px ?py ?os ?e0] =>
      destruct (resolve t s px py os e0) as [[e3 kept] evs]
  end.
  reflexivity.
Qed.

Lemma loop_paused theme gd time now rnd e :
  loop theme gd true time now rnd e = (e, [], true).
Proof. reflexivity. Qed.

(** Whether the spawner fires on a frame that starts in [e] at [time]. *)
Lemma spawner_objects settings dt rnd e :
  objects (spawner settings dt rnd e)
  = objects e ++ (if ltb (spawnRate settings (score e)) (spawnTimer e + dt)
                  then [spawned rnd] else []).
Proof.
  unfold spawner. cbv zeta. cbn [set_spawnTimer spawnTimer score].
  destruct (ltb _ _); cbn; [reflexivity | now rewrite app_nil_r].
Qed.

Lemma spawner_timer settings dt rnd e :
  spawnTimer (spawner settings dt rnd e)
  = if ltb (spawnRate settings (score e)) (spawnTimer e + dt)
    then 0 else spawnTimer e + dt.
Proof.
  unfold spawner. cbv zeta. cbn [set_spawnTimer spawnTimer score].
  destruct (ltb _ _); reflexivity.
Qed.

Lemma spawner_rest settings dt rnd e :
  let e' := spawner settings dt rnd e in
  score e' = score e /\ lives e' = lives e /\ combo e' = combo e /\
  handX e' = handX e /\ isHandDetected e' = isHandDetected e /\
  difficulty e' = difficulty e /\ lastTime e' = lastTime e /\
  startTime e' = startTime e.
Proof.
  unfold spawner. cbv zeta. cbn [set_spawnTimer spawnTimer score].
  destruct (ltb _ _); repeat split.
Qed.

(** Everything a RUNNING frame does, field by field. *)
Lemma loop_facts theme gd time now rnd e e' evs again :
  loop theme gd false time now rnd e = (e', evs, again) ->
  let settings := DIFFICULTY_SETTINGS gd in
  let dt := time - lastTime e in
  let fires := ltb (spawnRate settings (score e)) (spawnTimer e + dt) in
  (lastTime e' = time /\ startTime e' = startTime e /\
   handX e' = handX e /\ isHandDetected e' = isHandDetected e) /\
  spawnTimer e' = (if fires then 0 else spawnTimer e + dt) /\
  objects e'
  = filter (fun o => negb (hit (paddle_px e) paddle_py o))
      (motionUpdater theme dt (difficulty e) (objects e)
       ++ (if fires then [spawned rnd] else [])) /\
  difficulty e' = difficultyController (score e') (now - startTime e) /\
  lives e' == lives e - hazardPenalty settings * hazards evs /\
  (0 <= combo e -> score e <= score e' /\ 0 <= combo e') /\
  (filter is_collect evs = [] -> score e' = score e) /\
  again = negb (Qle_bool (lives e') 0) /\
  exists hs, Forall (fun ev => is_hit_event ev = true) hs /\
             evs = hs ++ (if again then [] else [GameOver (floorQ (score e'))]).
Proof.
  rewrite loop_running. unfold loop_code_order, collisionResolver. cbv zeta.
  set (settings := DIFFICULTY_SETTINGS gd).
  set (dt := time - lastTime e).
  set (e1 := set_objects _ (set_lastTime time e)).
  set (e2 := spawner settings dt rnd e1).
  destruct (resolve theme settings (paddle_px e2) paddle_py (objects e2) e2)
    as [[e3 kept] hs] eqn:R.
  pose proof (resolve_same_frame _ _ _ _ _ _ _ _ _ R)
    as (F1 & F2 & F3 & F4 & F5 & F6 & F7).
  pose proof (resolve_kept _ _ _ _ _ _ _ _ _ R) as K.
  pose proof (resolve_events _ _ _ _ _ _ _ _ _ R) as Ev.
  pose proof (resolve_score_mono _ _ _ _ _ _ _ _ _ R) as Sm.
  pose proof (resolve_score_same _ _ _ _ _ _ _ _ _ R) as Ss.
  pose proof (resolve_lives _ _ _ _ _ _ _ _ _ R) as Lv.
  pose proof (spawner_rest settings dt rnd e1) as (S1 & S2 & S3 & S4 & S5 & S6 & S7 & S8).
  pose proof (spawner_objects settings dt rnd e1) as So.
  pose proof (spawner_timer settings dt rnd e1) as St.
  fold e2 in S1, S2, S3, S4, S5, S6, S7, S8, So, St.
  cbn [e1 set_objects set_lastTime score lives combo handX isHandDetected
       difficulty lastTime startTime spawnTimer objects]
    in S1, S2, S3, S4, S5, S6, S7, S8, So, St.
  fold dt in So.
  assert (Px : paddle_px e2 = paddle_px e) by (unfold paddle_px; rewrite S4; reflexivity).
  unfold terminationCheck.
  cbn [set_difficulty set_objects lives score startTime].
  intros H.
  assert (Hcore :
    (lastTime e3 = time /\ startTime e3 = startTime e /\
     handX e3 = handX e /\ isHandDetected e3 = isHandDetected e) /\
    spawnTimer e3 = (if ltb (spawnRate settings (score e)) (spawnTimer e + dt)
                     then 0 else spawnTimer e + dt) /\
    kept = filter (fun o => negb (hit (paddle_px e) paddle_py o))
             (motionUpdater theme dt (difficulty e) (objects e)
              ++ (if ltb (spawnRate settings (score e)) (spawnTimer e + dt)
                  then [spawned rnd] else [])) /\
    lives e3 == lives e - hazardPenalty settings * hazards hs /\
    (0 <= combo e -> score e <= score e3 /\ 0 <= combo e3) /\
    (filter is_collect hs = [] -> score e3 = score e)).
  { repeat split.
    - rewrite F6, S7. reflexivity.
    - rewrite F7, S8. reflexivity.
    - rewrite F2, S4. reflexivity.
    - rewrite F3, S5. reflexivity.
    - rewrite F5, St. reflexivity.
    - rewrite K, Px, So. reflexivity.
    - rewrite Lv, S2. reflexivity.
    - rewrite <- S1. apply Sm. rewrite S3. assumption.
    - apply Sm. rewrite S3. assumption.
    - intros Hn. rewrite (Ss Hn), S1. reflexivity. }
  destruct Hcore as ((C1 & C2 & C3 & C4) & C5 & C6 & C7 & C8 & C9).
  destruct (Qle_bool (lives e3) 0) eqn:Q; injection H as <- <- <-;
    cbn [set_difficulty set_objects lives score startTime lastTime handX
         isHandDetected spawnTimer objects difficulty combo negb];
    rewrite ?Q; cbn [negb].
  - repeat split; try assumption.
    + rewrite C2. reflexivity.
    + unfold hazards. rewrite filter_app. cbn [filter is_hazard].
      rewrite app_nil_r. exact C7.
    + apply C8; assumption.
    + apply C8; assumption.
    + intros Hn. apply C9. rewrite filter_app in Hn. cbn in Hn.
      rewrite app_nil_r in Hn. exact Hn.
    + exists hs. split; [assumption | reflexivity].
  - repeat split; try assumption.
    + rewrite C2. reflexivity.
    + apply C8; assumption.
    + apply C8; assumption.
    + exists hs. split; [assumption | now rewrite app_nil_r].
Qed.

(** *** The collision test *)

Lemma hit_spec px py obj :
  hit px py obj = true <->
  px < obj_x obj /\ obj_x obj < px + pw /\
  py < obj_y obj /\ obj_y obj < py + ph.
Proof.
  unfold hit. rewrite !andb_true_iff, !ltb_lt. tauto.
Qed.

(** C2, the claim as stated fails: with the paddle centred (its rectangle
    is 330..470 by 490..514) a point on the left edge and a point on the
    right edge are both misses, and so are a point on the upper and on the
    lower edge; no half-open convention describes the test. *)
Lemma both_edges_miss :
  let on_left := mkObject 0 330 500 20 4 GOOD 0 in
  let on_right := mkObject 0 470 500 20 4 GOOD 0 in
  let on_top := mkObject 0 400 490 20 4 GOOD 0 in
  let on_bottom := mkObject 0 400 514 20 4 GOOD 0 in
  paddle_px (engine MEDIUM 0) == 330 /\ paddle_py == 490 /\
  hit 330 490 on_left = false /\ hit 330 490 on_right = false /\
  hit 330 490 on_top = false /\ hit 330 490 on_bottom = false /\
  ~ half_open_convention.
Proof.
  cbv zeta. repeat (split; [by_eval|]).
  intros [[[H _]|[_ H]] _].
  - assert (F : hit 330 490 (mkObject 0 330 500 20 4 GOOD 0) = true)
      by (apply H; by_eval).
    vm_compute in F. discriminate F.
  - assert (F : hit 330 490 (mkObject 0 470 500 20 4 GOOD 0) = true)
      by (apply H; by_eval).
    vm_compute in F. discriminate F.
Qed.

(** C2, amended.  The collision test is strict on all four bounds: an
    object is a hit exactly when its point lies strictly inside the paddle
    rectangle, so a point on any of the four edges is a miss.  The
    convention is the same on both axes. *)
Theorem hit_is_strict_on_both_axes (px py : Q) (obj : GameObject) :
  (hit px py obj = true <->
   px < obj_x obj /\ obj_x obj < px + pw /\
   py < obj_y obj /\ obj_y obj < py + ph) /\
  (forall edge, on_edge edge px py obj -> hit px py obj = false) /\
  (forall edge, exclusive edge).
Proof.
  assert (E : forall px py obj edge,
             on_edge edge px py obj -> hit px py obj = false).
  { clear. intros px py obj edge H.
    destruct (hit px py obj) eqn:Hh; [|reflexivity].
    apply hit_spec in Hh. exfalso. destruct Hh as (A & B & C & D).
    destruct edge; cbn [on_edge] in H; destruct H as (H & _ & _);
      rewrite H in *; lra. }
  split; [apply hit_spec|]. split.
  - intros edge. apply E.
  - intros edge px' py' obj'. apply E.
Qed.

Lemma hit_is_strict_on_both_axes_witness :
  let on_left := mkObject 0 330 500 20 4 GOOD 0 in
  on_edge Left 330 490 on_left /\ hit 330 490 on_left = false.
Proof.
  cbv zeta.
  assert (H : on_edge Left 330 490 (mkObject 0 330 500 20 4 GOOD 0)) by by_eval.
  split; [exact H|].
  exact (proj1 (proj2 (hit_is_strict_on_both_axes 330 490 _)) Left H).
Defined.

(** *** The spawn interval *)

Lemma spawnRate_floor settings s : 200 <= spawnRate settings s.
Proof. unfold spawnRate. apply Q.le_max_l. Qed.

Lemma spawnRate_antitone settings s1 s2 :
  s1 <= s2 -> spawnRate settings s2 <= spawnRate settings s1.
Proof.
  intros H. unfold spawnRate. apply Q.max_le_compat_l. lra.
Qed.

(** C8.  The interval the spawner compares its timer with is
    [max(200, spawnRateBase - score * 3)]: a RUNNING frame spawns exactly
    when the advanced timer exceeds it.  It does not increase when the score
    increases, it never falls below the floor of 200 ms, and on the medium
    tier (base 1000) it is exactly 200 from a score of 267 on. *)
Theorem spawn_interval (gd : GameDifficulty) (s1 s2 : Q) :
  s1 <= s2 ->
  let settings := DIFFICULTY_SETTINGS gd in
  spawnRate settings s1 == Qmax 200 (spawnRateBase settings - s1 * 3) /\
  spawnRate settings s2 <= spawnRate settings s1 /\
  200 <= spawnRate settings s2 /\
  200 <= spawnRate (DIFFICULTY_SETTINGS MEDIUM) s2 /\
  (267 <= s2 -> spawnRate (DIFFICULTY_SETTINGS MEDIUM) s2 == 200) /\
  (forall theme time now rnd e,
     score e = s2 ->
     spawnTimer (engine_of (loop theme gd false time now rnd e))
     = if ltb (spawnRate settings s2) (spawnTimer e + (time - lastTime e))
       then 0 else spawnTimer e + (time - lastTime e)).
Proof.
  intros H settings. repeat split.
  - apply spawnRate_antitone, H.
  - apply spawnRate_floor.
  - apply spawnRate_floor.
  - intros H2. unfold spawnRate. cbn [DIFFICULTY_SETTINGS spawnRateBase].
    apply Q.max_l. lra.
  - intros theme time now rnd e <-.
    destruct (loop theme gd false time now rnd e) as [[e' evs] again] eqn:L.
    apply loop_facts in L. cbv zeta in L.
    destruct L as (_ & L & _). exact L.
Qed.

Lemma spawn_interval_witness :
  (0 <= 300) /\
  spawnRate (DIFFICULTY_SETTINGS MEDIUM) 300
    <= spawnRate (DIFFICULTY_SETTINGS MEDIUM) 0 /\
  spawnRate (DIFFICULTY_SETTINGS MEDIUM) 0 == 1000 /\
  spawnRate (DIFFICULTY_SETTINGS MEDIUM) 300 == 200.
Proof.
  assert (H : 0 <= 300) by by_eval.
  split; [exact H|].
  split; [exact (proj1 (proj2 (spawn_interval MEDIUM 0 300 H))) | split; by_eval].
Defined.

(** *** Frames and sessions *)

(** Inputs only move the paddle. *)
Lemma deliver_same_simulation isPaused inputs : forall e,
  same_simulation e (fold_left (deliver isPaused) inputs e).
Proof.
  induction inputs as [|i rest IH]; intros e; cbn [fold_left].
  - repeat split.
  - destruct (IH (deliver isPaused e i)) as (A1 & A2 & A3 & A4 & A5 & A6 & A7 & A8).
    assert (B : same_simulation e (deliver isPaused e i)).
    { destruct i; cbn [deliver]; unfold handleHandUpdate, handleMove;
        [|destruct isPaused]; repeat split. }
    destruct B as (B1 & B2 & B3 & B4 & B5 & B6 & B7 & B8).
    repeat split; congruence.
Qed.

(** A PAUSED frame: nothing but the paddle input can change, nothing is
    sent out, the next frame is requested. *)
Lemma frame_paused theme gd f e :
  f_paused f = true ->
  frame theme gd f e
  = (fold_left (deliver true) (f_inputs f) e, [], true).
Proof. intros H. unfold frame. rewrite H. reflexivity. Qed.

Lemma hazards_app evs1 evs2 :
  hazards (evs1 ++ evs2) == hazards evs1 + hazards evs2.
Proof.
  unfold hazards. rewrite filter_app, length_app, Nat2Z.inj_add, inject_Z_plus.
  reflexivity.
Qed.

Lemma hazards_nil : hazards [] == 0.
Proof. reflexivity. Qed.

(** What any frame does to the score, the lives and the combo, and when it
    stops the loop. *)
Lemma frame_facts theme gd f e e' evs again :
  frame theme gd f e = (e', evs, again) ->
  lives e' == lives e - hazardPenalty (DIFFICULTY_SETTINGS gd) * hazards evs /\
  (0 <= combo e -> score e <= score e' /\ 0 <= combo e') /\
  (filter is_collect evs = [] -> score e' = score e) /\
  (again = true ->
   Forall (fun ev => is_hit_event ev = true) evs /\ (0 < lives e -> 0 < lives e')) /\
  (again = false ->
   lives e' <= 0 /\
   exists hs, Forall (fun ev => is_hit_event ev = true) hs /\
              evs = hs ++ [GameOver (floorQ (score e'))]).
Proof.
  intros H.
  pose proof (deliver_same_simulation (f_paused f) (f_inputs f) e)
    as (D1 & D2 & D3 & _).
  destruct (f_paused f) eqn:P.
  - rewrite (frame_paused _ _ _ _ P) in H. injection H as <- <- <-.
    rewrite D1, D2, D3. repeat split; try lra; try discriminate.
    + rewrite hazards_nil. ring.
    + constructor.
  - unfold frame in H. rewrite P in H. apply loop_facts in H. cbv zeta in H.
    destruct H as (_ & _ & _ & _ & L & Sm & Ss & A & hs & Hs & E).
    rewrite ?D1, ?D2, ?D3 in *.
    split; [exact L|]. split; [exact Sm|]. split; [exact Ss|]. split.
    + intros ->. rewrite app_nil_r in E. subst evs. split; [exact Hs|].
      intros _. symmetry in A. apply negb_true_iff in A.
      apply Qnot_le_lt. intros Hle. apply Qle_bool_iff in Hle. congruence.
    + intros ->. symmetry in A. apply negb_false_iff in A. split.
      * apply Qle_bool_iff, A.
      * exists hs. split; assumption.
Qed.

Lemma hit_events_no_game_over evs :
  Forall (fun ev => is_hit_event ev = true) evs ->
  filter is_game_over evs = [] /\ hits evs = evs.
Proof.
  induction 1 as [|ev rest Hev _ [IH1 IH2]]; [split; reflexivity|].
  unfold hits in *. cbn [filter]. rewrite Hev.
  destruct ev; try discriminate; cbn [is_game_over]; rewrite IH1, IH2; auto.
Qed.

(** The facts of [frame_facts] along a whole session. *)
Lemma run_facts theme gd fs : forall e e' evs again,
  run theme gd fs e = (e', evs, again) ->
  lives e' == lives e - hazardPenalty (DIFFICULTY_SETTINGS gd) * hazards evs /\
  (0 <= combo e -> score e <= score e' /\ 0 <= combo e') /\
  (filter is_collect evs = [] -> score e' = score e) /\
  (again = true ->
   Forall (fun ev => is_hit_event ev = true) evs /\ (0 < lives e -> 0 < lives e')) /\
  (again = false ->
   lives e' <= 0 /\
   exists hs, Forall (fun ev => is_hit_event ev = true) hs /\
              evs = hs ++ [GameOver (floorQ (score e'))]).
Proof.
  induction fs as [|f rest IH]; intros e e' evs again H.
  - injection H as <- <- <-.
    split; [rewrite hazards_nil; ring|]. split; [intros; split; [lra|assumption]|].
    split; [reflexivity|]. split; [|discriminate].
    intros _. split; [constructor | trivial].
  - step_run H F R.
    + apply frame_facts in F. destruct F as (L1 & M1 & S1 & T1 & _).
      destruct (T1 eq_refl) as (H1 & P1).
      apply IH in R. destruct R as (L2 & M2 & S2 & T2 & U2).
      split; [rewrite L2, L1, hazards_app; ring|].
      split; [intros Hc; destruct (M1 Hc) as [A B]; destruct (M2 B); split; [lra|assumption]|].
      split.
      { intros Hn. rewrite filter_app in Hn. apply app_eq_nil in Hn.
        destruct Hn as [Hn1 Hn2]. rewrite (S2 Hn2). apply S1, Hn1. }
      split.
      { intros Ha. destruct (T2 Ha) as [A B]. split.
        - apply Forall_app. split; assumption.
        - intros Hl. apply B, P1, Hl. }
      intros Ha. destruct (U2 Ha) as (Hle & hs & Hs & E). split; [exact Hle|].
      exists (l ++ hs). split; [apply Forall_app; split; assumption|].
      rewrite E, app_assoc. reflexivity.
    + apply frame_facts in F. destruct F as (L1 & M1 & S1 & _ & U1).
      split; [exact L1|]. split; [exact M1|]. split; [exact S1|].
      split; [discriminate|]. intros _. apply U1. reflexivity.
Qed.

(** Once a frame has not requested the next one, later frames never run. *)
Lemma run_stopped theme gd fs : forall e more,
  again_of (run theme gd fs e) = false ->
  run theme gd (fs ++ more) e = run theme gd fs e.
Proof.
  induction fs as [|f rest IH]; intros e more H.
  - discriminate H.
  - cbn [run app] in *.
    destruct (frame theme gd f e) as [[e1 evs1] [|]]; [|reflexivity].
    specialize (IH e1 more).
    destruct (run theme gd rest e1) as [[e2 evs2] again2] eqn:R.
    cbn [again_of snd] in H. subst again2.
    rewrite (IH eq_refl). reflexivity.
Qed.

(** A session continued by more frames, when it has not stopped. *)
Lemma run_continued theme gd fs : forall e more,
  again_of (run theme gd fs e) = true ->
  engine_of (run theme gd (fs ++ more) e)
  = engine_of (run theme gd more (engine_of (run theme gd fs e))).
Proof.
  induction fs as [|f rest IH]; intros e more H.
  - reflexivity.
  - cbn [run app] in *.
    destruct (frame theme gd f e) as [[e1 evs1] [|]]; [|discriminate H].
    specialize (IH e1 more).
    destruct (run theme gd rest e1) as [[e2 evs2] again2] eqn:R.
    cbn [again_of snd engine_of fst] in *. subst again2.
    specialize (IH eq_refl).
    destruct (run theme gd (rest ++ more) e1) as [[e3 evs3] again3].
    cbn [fst] in *. exact IH.
Qed.

Lemma hazards_of_hits evs :
  filter is_hazard (hits evs) = filter is_hazard evs.
Proof.
  unfold hits. induction evs as [|ev rest IH]; [reflexivity|].
  destruct ev; cbn [filter is_hit_event is_hazard]; rewrite ?IH; reflexivity.
Qed.

Lemma collects_of_hits evs :
  filter is_collect (hits evs) = filter is_collect evs.
Proof.
  unfold hits. induction evs as [|ev rest IH]; [reflexivity|].
  destruct ev; cbn [filter is_hit_event is_collect]; rewrite ?IH; reflexivity.
Qed.

Lemma hazardPenalty_one gd : hazardPenalty (DIFFICULTY_SETTINGS gd) = 1.
Proof. destruct gd; reflexivity. Qed.

(** The check of the lives comes after the collision pass, so an object
    that the pass resolves after the fifth hazard is still scored: with a
    GOOD object behind the five hazards of [five_hazards], all six in the
    paddle at once, the reported score is 5. *)
Lemma hits_behind_the_last_hazard_count :
  let crowd := map hazard_at [500; 501; 502; 503; 504]
               ++ [mkObject 0 400 505 20 4 GOOD 0] in
  let e := set_objects crowd five_hazards in
  events_of (run NATURE EASY (steady 1 1016.67) e)
  = repeat (PlayHazard NATURE) 5 ++ [PlayCollect NATURE; GameOver 5].
Proof. vm_compute. reflexivity. Qed.



(** *** Where the objects of a frame come from *)

Lemma step_le_maxStep dt : Qmin dt 32 / 16.67 <= maxStep.
Proof.
  unfold maxStep, Qdiv. apply Qmult_le_compat_r; [apply Q.le_min_r | by_eval].
Qed.

Lemma gravityMult_pos theme : 0 < gravityMult theme.
Proof. destruct theme; by_eval. Qed.

Lemma motionUpdater_origin theme dt mult objs o' :
  In o' (motionUpdater theme dt mult objs) ->
  exists o, In o objs /\
            o' = advance (Qmin dt 32 / 16.67) (gravityMult theme) mult o.
Proof.
  unfold motionUpdater. intros H. apply filter_In in H. destruct H as [H _].
  apply in_map_iff in H. destruct H as (o & <- & Hin). exists o. auto.
Qed.

Lemma motionUpdater_length theme dt mult objs :
  (length (motionUpdater theme dt mult objs) <= length objs)%nat.
Proof.
  unfold motionUpdater.
  etransitivity; [apply filter_length_le | rewrite length_map; reflexivity].
Qed.

(** After a RUNNING frame every object is either the one just spawned or
    an object of the previous state moved by the Motion Updater, with the
    multiplier and the time reference stored in that previous state; at
    most one object is added. *)
Lemma frame_objects theme gd f e :
  f_paused f = false ->
  let e' := engine_of (frame theme gd f e) in
  (forall o', In o' (objects e') ->
     o' = spawned (f_rnd f) \/
     exists o, In o (objects e) /\ o' = moved theme f e o) /\
  (length (objects e') <= S (length (objects e)))%nat.
Proof.
  intros P e'. subst e'. unfold frame. rewrite P.
  pose proof (deliver_same_simulation false (f_inputs f) e)
    as (_ & _ & _ & D4 & D5 & _ & D7 & _).
  set (e0 := fold_left (deliver false) (f_inputs f) e) in *.
  destruct (loop theme gd false (f_time f) (f_now f) (f_rnd f) e0)
    as [[e1 evs] again] eqn:L.
  apply loop_facts in L. cbv zeta in L. destruct L as (_ & _ & O & _).
  cbn [engine_of fst]. rewrite O, D4, D5, D7. split.
  - intros o' H. apply filter_In in H. destruct H as [H _].
    apply in_app_or in H. destruct H as [H|H].
    + right. apply motionUpdater_origin, H.
    + left.
      match type of H with In _ (if ?c then _ else _) => destruct c end;
        [|contradiction].
      destruct H as [H|[]]. symmetry. exact H.
  - etransitivity; [apply filter_length_le|]. rewrite length_app.
    pose proof (motionUpdater_length theme (f_time f - lastTime e)
                  (difficulty e) (objects e)).
    match goal with |- context [if ?c then _ else _] => destruct c end;
      cbn [length]; lia.
Qed.

(** *** Pause and resume *)

Lemma run_paused theme gd ps : forall e,
  Forall (fun f => f_paused f = true) ps ->
  same_simulation e (engine_of (run theme gd ps e)) /\
  events_of (run theme gd ps e) = [] /\
  again_of (run theme gd ps e) = true.
Proof.
  induction ps as [|f rest IH]; intros e H.
  - repeat split.
  - inversion H as [|? ? Hf Hrest]; subst. cbn [run].
    rewrite (frame_paused _ _ _ _ Hf).
    pose proof (deliver_same_simulation true (f_inputs f) e) as D.
    destruct (IH (fold_left (deliver true) (f_inputs f) e) Hrest)
      as (S & Ev & A).
    destruct (run theme gd rest (fold_left (deliver true) (f_inputs f) e))
      as [[e2 evs2] again2].
    cbn [engine_of events_of again_of fst snd] in *. subst.
    split; [|split; reflexivity].
    destruct D as (D1 & D2 & D3 & D4 & D5 & D6 & D7 & D8).
    destruct S as (S1 & S2 & S3 & S4 & S5 & S6 & S7 & S8).
    repeat split; congruence.
Qed.

(** C1, the claim as stated fails.  A session spawns an object on its
    first frame (the spawn timer is back to 0), is paused for a minute and
    resumed: the paused frame changes nothing, but the first frame after
    resuming, 16 ms after the last paused frame, spawns a second object at
    once and sets the multiplier to 1 + 61017/120000, the paused minute
    included. *)
Lemma resume_counts_the_pause :
  let e := session COSMIC MEDIUM 0 [first_frame] in
  let e1 := engine_of (frame COSMIC MEDIUM pause_frame e) in
  let e2 := engine_of (frame COSMIC MEDIUM resume_frame e1) in
  e1 = e /\
  spawnTimer e == 0 /\ lastTime e == 1001 /\
  length (objects e) = 1%nat /\ length (objects e2) = 2%nat /\
  difficulty e2 == 1 + 61017 / 120000 /\
  ~ resume_excludes_pause COSMIC MEDIUM.
Proof.
  cbv zeta. split; [reflexivity|]. repeat (split; [by_eval|]).
  intros H.
  specialize (H (session COSMIC MEDIUM 0 [first_frame]) pause_frame resume_frame).
  cbv zeta in H.
  destruct H as [_ H]; try by_eval.
  assert (F : (2 <= 1)%nat); [|lia].
  assert (L1 : length (objects (session COSMIC MEDIUM 0 [first_frame])) = 1%nat)
    by by_eval.
  rewrite L1 in H.
  etransitivity; [|apply H; by_eval].
  apply Nat.eq_le_incl. symmetry. by_eval.
Qed.

(** The multiplier a RUNNING frame stores counts the wall-clock time since
    the start of the session. *)
Lemma frame_difficulty theme gd f e :
  f_paused f = false ->
  let e' := engine_of (frame theme gd f e) in
  difficulty e' = difficultyController (score e') (f_now f - startTime e).
Proof.
  intros P e'. subst e'. unfold frame. rewrite P.
  pose proof (deliver_same_simulation false (f_inputs f) e)
    as (_ & _ & _ & _ & _ & _ & _ & D8).
  destruct (loop theme gd false (f_time f) (f_now f) (f_rnd f)
              (fold_left (deliver false) (f_inputs f) e))
    as [[e1 evs] again] eqn:L.
  apply loop_facts in L. cbv zeta in L. destruct L as (_ & _ & _ & D & _).
  cbn [engine_of fst]. rewrite D, D8. reflexivity.
Qed.

(** C1, amended.  Frames delivered while PAUSED change no simulation state
    (score, lives, combo, objects, multiplier, spawn timer, time reference
    and start time are the same after any number of them; only a vision
    report can still move the paddle), send nothing out and keep requesting
    the next frame.  On the first frame after resuming, the motion step is
    clamped to 32 ms: whatever the length of the pause, each object is
    moved by one clamped step, and at most one object is spawned.  The
    elapsed time of the difficulty computation is the wall-clock time since
    the start of the session. *)
Theorem paused_frames_change_nothing (theme : GameTheme) (gd : GameDifficulty)
    (ps : list Frame) (fr : Frame) (e : Engine) :
  Forall (fun f => f_paused f = true) ps ->
  f_paused fr = false ->
  let r := run theme gd ps e in
  let e1 := engine_of r in
  let e2 := engine_of (frame theme gd fr e1) in
  (forall time now rnd e0, loop theme gd true time now rnd e0 = (e0, [], true)) /\
  same_simulation e e1 /\ events_of r = [] /\ again_of r = true /\
  (forall o', In o' (objects e2) ->
     o' = spawned (f_rnd fr) \/
     exists o, In o (objects e) /\ o' = moved theme fr e o) /\
  Qmin (f_time fr - lastTime e) 32 / 16.67 <= maxStep /\
  (length (objects e2) <= S (length (objects e)))%nat /\
  difficulty e2 = difficultyController (score e2) (f_now fr - startTime e).
Proof.
  intros Hps Hfr r e1 e2.
  destruct (run_paused theme gd ps e Hps) as (S & Ev & A).
  fold r in S, Ev, A. fold e1 in S.
  destruct (frame_objects theme gd fr e1 Hfr) as [O Len]. fold e2 in O, Len.
  pose proof (frame_difficulty theme gd fr e1 Hfr) as Df. cbv zeta in Df.
  fold e2 in Df.
  destruct S as (S1 & S2 & S3 & S4 & S5 & S6 & S7 & S8).
  split; [intros; apply loop_paused|].
  split; [repeat split; assumption|].
  split; [exact Ev|]. split; [exact A|]. split; [|split; [|split]].
  - intros o' Hin. destruct (O o' Hin) as [H|(o & Hin' & H)]; [left; exact H|].
    right. exists o. rewrite <- S4. split; [exact Hin'|].
    rewrite H. unfold moved. rewrite S5, S7. reflexivity.
  - apply step_le_maxStep.
  - rewrite <- S4. exact Len.
  - rewrite Df, S8. reflexivity.
Qed.

Lemma paused_frames_change_nothing_witness :
  let e := session COSMIC MEDIUM 0 [first_frame] in
  let r := run COSMIC MEDIUM [pause_frame; paused 61009] e in
  (Forall (fun f => f_paused f = true) [pause_frame; paused 61009]
   /\ f_paused resume_frame = false) /\
  same_simulation e (engine_of r) /\ events_of r = [] /\ again_of r = true.
Proof.
  cbv zeta.
  assert (H1 : Forall (fun f => f_paused f = true) [pause_frame; paused 61009])
    by (repeat constructor).
  assert (H2 : f_paused resume_frame = false) by reflexivity.
  pose proof (paused_frames_change_nothing COSMIC MEDIUM _ resume_frame
                (session COSMIC MEDIUM 0 [first_frame]) H1 H2) as H.
  cbv zeta in H. destruct H as (_ & S & Ev & A & _).
  split; [split; [exact H1 | exact H2]|].
  split; [exact S|]. split; [exact Ev | exact A].
Defined.

(** *** The order of the stages *)

(** C3, the claim as stated fails.  In the session paused for a minute,
    the first frame after resuming moves the object with the multiplier the
    previous RUNNING frame stored, 1 + 1001/120000, whereas the order of
    the specification would use the multiplier of this frame,
    1 + 61017/120000: the object ends at a different height. *)
Lemma motion_uses_the_stored_multiplier :
  let e := session URBAN_RAIN MEDIUM 0 [first_frame; pause_frame] in
  let code := engine_of (loop URBAN_RAIN MEDIUM false 61017 61017 draws_left e) in
  let spec := engine_of (loop_spec_order URBAN_RAIN MEDIUM 61017 61017 draws_left e) in
  difficulty e == 1 + 1001 / 120000 /\
  match map obj_y (objects code), map obj_y (objects spec) with
  | [y; y2], [y'; y2'] =>
      y == -50 + 6.7 * (32 / 16.67) * 1.3 * (1 + 1001 / 120000) /\
      y' == -50 + 6.7 * (32 / 16.67) * 1.3 * (1 + 61017 / 120000) /\
      y2 == -50 /\ y2' == -50
  | _, _ => False
  end /\
  ~ multiplier_from_same_tick URBAN_RAIN MEDIUM.
Proof.
  cbv zeta. repeat (split; [by_eval|]).
  intros H.
  specialize (H 61017 61017 draws_left
                (session URBAN_RAIN MEDIUM 0 [first_frame; pause_frame])).
  vm_compute in H. inversion H as [|a b la lb Hy _]. discriminate Hy.
Qed.

(** C3, amended.  A RUNNING frame runs Motion Updater, Spawner, Collision
    Resolver, Difficulty Controller and then the check of the lives, in
    that order: the objects are moved with the multiplier stored by the
    previous frame, the spawner then adds its object, the collision pass
    filters the result against the paddle, the multiplier is recomputed
    from the score after the collisions, and the next frame is requested
    exactly when the lives after the collisions are positive. *)
Theorem stages_run_in_code_order (theme : GameTheme) (gd : GameDifficulty)
    (time now : Q) (rnd : Draws) (e : Engine) :
  let r := loop theme gd false time now rnd e in
  let e' := engine_of r in
  let dt := time - lastTime e in
  let fires := ltb (spawnRate (DIFFICULTY_SETTINGS gd) (score e))
                   (spawnTimer e + dt) in
  r = loop_code_order theme gd time now rnd e /\
  objects e'
  = filter (fun o => negb (hit (paddle_px e) paddle_py o))
      (motionUpdater theme dt (difficulty e) (objects e)
       ++ (if fires then [spawned rnd] else [])) /\
  difficulty e' = difficultyController (score e') (now - startTime e) /\
  again_of r = negb (Qle_bool (lives e') 0).
Proof.
  cbv zeta. split; [apply loop_running|].
  destruct (loop theme gd false time now rnd e) as [[e' evs] again] eqn:L.
  apply loop_facts in L. cbv zeta in L.
  destruct L as (_ & _ & O & D & _ & _ & _ & A & _).
  cbn [engine_of again_of fst snd]. auto.
Qed.

(** *** The motion step *)

Lemma moved_y theme f e obj :
  obj_y (moved theme f e obj)
  = obj_y obj + obj_speed obj * (Qmin (f_time f - lastTime e) 32 / 16.67)
                * gravityMult theme * difficulty e.
Proof. reflexivity. Qed.

(** C4, the claim as stated fails.  In the session whose tab was hidden
    for five minutes the multiplier has grown to 3.5; the object spawned on
    the first frame, in the column of the centred paddle, is at height
    485.2 (above the band 490..514) after [hidden_tab 18] and at 515.7
    (below it) one 16.67 ms frame later, and the session records no hit. *)
Lemma object_tunnels_through_the_band :
  let before := session URBAN_RAIN MEDIUM 0 (hidden_tab 18) in
  let after := session URBAN_RAIN MEDIUM 0 (hidden_tab 19) in
  hidden_tab 19 = hidden_tab 18 ++ [next_steady 18] /\
  events_of (run URBAN_RAIN MEDIUM (hidden_tab 19) (engine MEDIUM 0)) = [] /\
  3.5 < difficulty before /\
  match objects before, objects after with
  | o :: _, o' :: _ =>
      o' = moved URBAN_RAIN (next_steady 18) before o /\
      paddle_px before < obj_x o /\ obj_x o < paddle_px before + pw /\
      485 < obj_y o /\ obj_y o < paddle_py /\
      paddle_py + ph < obj_y o' /\ obj_y o' < 516
  | _, _ => False
  end /\
  ~ never_tunnels URBAN_RAIN MEDIUM.
Proof.
  cbv zeta. split; [reflexivity|]. split; [by_eval|]. split; [by_eval|].
  split; [vm_compute; repeat split|].
  intros H.
  specialize (H 0 (hidden_tab 18) (next_steady 18)
                (hd (spawned draws_left)
                    (objects (session URBAN_RAIN MEDIUM 0 (hidden_tab 18))))).
  cbv zeta in H.
  assert (F : obj_y (moved URBAN_RAIN (next_steady 18)
                       (session URBAN_RAIN MEDIUM 0 (hidden_tab 18))
                       (hd (spawned draws_left)
                          (objects (session URBAN_RAIN MEDIUM 0 (hidden_tab 18)))))
              <= paddle_py + ph).
  { apply H.
    - by_eval.
    - reflexivity.
    - vm_compute. left. reflexivity.
    - by_eval. }
  vm_compute in F. apply F. reflexivity.
Qed.

(** C4, amended.  Every object a RUNNING frame keeps from the previous
    state has been moved by
    [y <- y + speed * step * gravityMult * difficulty] with
    [step = min(dt, 32) / 16.67], so a frame moves an object by at most
    [speed * (32 / 16.67) * gravityMult * difficulty]; as long as that bound
    does not exceed the height of the paddle band (24), an object above the
    band before the frame is not below it after the frame. *)
Theorem motion_step_is_clamped (theme : GameTheme) (gd : GameDifficulty)
    (f : Frame) (e : Engine) (obj : GameObject) :
  f_paused f = false ->
  0 <= obj_speed obj ->
  0 <= difficulty e ->
  let step := Qmin (f_time f - lastTime e) 32 / 16.67 in
  let reach := obj_speed obj * maxStep * gravityMult theme * difficulty e in
  (forall o', In o' (objects (engine_of (frame theme gd f e))) ->
     o' = spawned (f_rnd f) \/
     exists o, In o (objects e) /\ o' = moved theme f e o) /\
  obj_y (moved theme f e obj)
  == obj_y obj + obj_speed obj * step * gravityMult theme * difficulty e /\
  step <= maxStep /\
  obj_y (moved theme f e obj) <= obj_y obj + reach /\
  (reach <= ph -> obj_y obj < paddle_py ->
   obj_y (moved theme f e obj) < paddle_py + ph).
Proof.
  intros P Hs Hd step reach.
  pose proof (step_le_maxStep (f_time f - lastTime e)) as Hstep. fold step in Hstep.
  pose proof (gravityMult_pos theme) as Hg.
  assert (Hb : obj_y (moved theme f e obj) <= obj_y obj + reach).
  { rewrite moved_y. fold step. unfold reach.
    assert (0 <= obj_speed obj * gravityMult theme * difficulty e).
    { repeat apply Qmult_le_0_compat; lra. }
    assert (step * (obj_speed obj * gravityMult theme * difficulty e)
            <= maxStep * (obj_speed obj * gravityMult theme * difficulty e)).
    { apply Qmult_le_compat_r; assumption. }
    lra. }
  split; [apply (frame_objects theme gd f e P)|].
  split; [rewrite moved_y; reflexivity|].
  split; [exact Hstep|]. split; [exact Hb|].
  intros Hr Hy. lra.
Qed.

(** The object spawned by the first frame, one 16.67 ms frame later: it
    moves by 6.7 * 1.3 * (1 + 1001/120000), well under 24. *)
Lemma motion_step_is_clamped_witness :
  let e := session URBAN_RAIN MEDIUM 0 [first_frame] in
  let f := running 1017.67 draws_left in
  let obj := hd (spawned draws_left) (objects e) in
  (f_paused f = false /\ 0 <= obj_speed obj /\ 0 <= difficulty e) /\
  obj_y (moved URBAN_RAIN f e obj)
  == -50 + 6.7 * (Qmin (1017.67 - 1001) 32 / 16.67) * 1.3 * (1 + 1001 / 120000) /\
  obj_y (moved URBAN_RAIN f e obj) <= -50 + 6.7 * maxStep * 1.3 * (1 + 1001 / 120000).
Proof.
  cbv zeta.
  assert (H1 : f_paused (running 1017.67 draws_left) = false) by reflexivity.
  assert (H2 : 0 <= obj_speed (hd (spawned draws_left)
                 (objects (session URBAN_RAIN MEDIUM 0 [first_frame])))) by by_eval.
  assert (H3 : 0 <= difficulty (session URBAN_RAIN MEDIUM 0 [first_frame])) by by_eval.
  pose proof (motion_step_is_clamped URBAN_RAIN MEDIUM _ _ _ H1 H2 H3) as H.
  cbv zeta in H. destruct H as (_ & E & _ & B & _).
  split; [split; [exact H1 | split; [exact H2 | exact H3]]|].
  split.
  - rewrite E. by_eval.
  - eapply Qle_trans; [exact B|]. by_eval.
Defined.

End GameWorldFacts.

(** ** More on the input estimator *)

Module VisionTrackerMore.
Import VisionTracker Ranges VisionTrackerFacts.

Lemma scan_columns data : forall i sumX count,
  scan data i sumX count
  = ((sumX + sumZ (bright_columns data i))%Z,
     (count + Z.of_nat (length (bright_columns data i)))%Z).
Proof.
  induction data as [|pixel rest IH]; intros i sumX count.
  - cbn. f_equal; lia.
  - cbn [scan bright_columns]. unfold bright.
    destruct (Qlt_le_dec 180 (brightness pixel)); rewrite IH.
    + cbn [sumZ fold_right length]. fold (sumZ (bright_columns rest (i + 1))).
      f_equal; lia.
    + reflexivity.
Qed.

Lemma bright_columns_bounds data : forall i,
  Forall (fun c => (0 <= c <= 79)%Z) (bright_columns data i) /\
  (length (bright_columns data i) <= length data)%nat.
Proof.
  induction data as [|pixel rest IH]; intros i; cbn [bright_columns length].
  - split; [constructor | lia].
  - destruct (IH (i + 1)%Z) as [F L]. destruct (bright pixel).
    + split; [constructor; [|exact F] | cbn [length]; lia].
      pose proof (Z.mod_pos_bound i procWidth eq_refl). unfold procWidth in *. lia.
    + split; [exact F | lia].
Qed.

Lemma sumZ_bounds l :
  Forall (fun c => (0 <= c <= 79)%Z) l ->
  (0 <= sumZ l <= 79 * Z.of_nat (length l))%Z.
Proof.
  induction 1 as [|c rest Hc _ IH]; cbn [sumZ fold_right length].
  - lia.
  - fold (sumZ rest). lia.
Qed.

(** X1.  The luminance pass counts exactly the bright pixels and adds up
    their columns; so the count is at most the number of pixels, the sum is
    between 0 and 79 times the count, and the centroid of a frame with at
    least one bright pixel lies in [0, 79/80]. *)
Theorem scan_counts_bright_pixels (data : list Z) :
  let '(sumX, count) := scan data 0 0 0 in
  sumX = sumZ (bright_columns data 0) /\
  count = Z.of_nat (length (filter bright data)) /\
  (0 <= count <= Z.of_nat (length data))%Z /\
  (0 <= sumX <= 79 * count)%Z /\
  ((0 < count)%Z ->
   0 <= rawMeasurement sumX count /\ rawMeasurement sumX count <= 79 / 80).
Proof.
  rewrite scan_columns. cbn [Z.add].
  assert (Len : forall d i, length (bright_columns d i) = length (filter bright d)).
  { induction d as [|p r IH]; intros i; cbn [bright_columns filter]; [reflexivity|].
    destruct (bright p); cbn [length]; rewrite IH; reflexivity. }
  destruct (bright_columns_bounds data 0) as [F L].
  pose proof (sumZ_bounds _ F) as B.
  split; [reflexivity|]. split; [rewrite Len; reflexivity|].
  split; [lia|]. split; [lia|].
  intros Hc. unfold rawMeasurement, procWidth.
  set (s := sumZ (bright_columns data 0)) in *.
  set (c := Z.of_nat (length (bright_columns data 0))) in *.
  assert (Hs0 : 0 <= inject_Z s) by (change 0 with (inject_Z 0); rewrite <- Zle_Qle; lia).
  assert (Hc0 : 0 < inject_Z c) by (change 0 with (inject_Z 0); rewrite <- Zlt_Qlt; lia).
  assert (Hsc : inject_Z s <= 79 * inject_Z c).
  { change 79 with (inject_Z 79). rewrite <- inject_Z_mult, <- Zle_Qle. lia. }
  assert (E : inject_Z s / inject_Z c / inject_Z 80
              == inject_Z s / (inject_Z c * 80)).
  { change (inject_Z 80) with 80. field. lra. }
  rewrite E. split.
  - apply Qle_shift_div_l; lra.
  - apply Qle_shift_div_r; [lra|].
    assert (E2 : 79 / 80 * (inject_Z c * 80) == 79 * inject_Z c) by field.
    rewrite E2. exact Hsc.
Qed.

Lemma scan_counts_bright_pixels_witness :
  let data := [4294967295; 0; 4294967295]%Z in
  scan data 0 0 0 = (2, 2)%Z /\
  rawMeasurement 2 2 <= 79 / 80.
Proof.
  cbv zeta.
  pose proof (scan_counts_bright_pixels [4294967295; 0; 4294967295]%Z) as H.
  assert (E : scan [4294967295; 0; 4294967295]%Z 0 0 0 = (2, 2)%Z)
    by (vm_compute; reflexivity).
  rewrite E in H. destruct H as (_ & _ & _ & _ & H).
  split; [exact E|]. apply H. reflexivity.
Defined.

(** The three colour channels extracted by lines 96-98. *)
Lemma channels_ignore_alpha pixel :
  Z.land (Z.land pixel 16777215) 255 = Z.land pixel 255 /\
  Z.land (Z.shiftr (Z.land pixel 16777215) 8) 255
  = Z.land (Z.shiftr pixel 8) 255 /\
  Z.land (Z.shiftr (Z.land pixel 16777215) 16) 255
  = Z.land (Z.shiftr pixel 16) 255.
Proof.
  repeat split.
  - rewrite <- Z.land_assoc. reflexivity.
  - rewrite Z.shiftr_land, <- Z.land_assoc. reflexivity.
  - rewrite Z.shiftr_land, <- Z.land_assoc. reflexivity.
Qed.

Lemma channel_range v : (0 <= Z.land v 255 <= 255)%Z.
Proof.
  assert (E : Z.land v 255 = (v mod 256)%Z)
    by (change 255%Z with (Z.ones 8); rewrite Z.land_ones by lia; reflexivity).
  rewrite E. pose proof (Z.mod_pos_bound v 256 eq_refl). lia.
Qed.

Lemma inject_Z_range v : (0 <= v <= 255)%Z -> 0 <= inject_Z v /\ inject_Z v <= 255.
Proof.
  intros [A B]. split.
  - change 0 with (inject_Z 0). rewrite <- Zle_Qle. exact A.
  - change 255 with (inject_Z 255). rewrite <- Zle_Qle. exact B.
Qed.

(** X2.  The brightness of a pixel lies between 0 and 255 and does not
    depend on its alpha byte (nor on any higher bit); opaque or
    transparent white is bright, and a pixel can only be bright if its
    green channel is at least 128, so no pure red, blue or magenta pixel is
    ever counted. *)
Theorem brightness_depends_on_colour_only (pixel : Z) :
  (0 <= brightness pixel /\ brightness pixel <= 255) /\
  brightness (Z.land pixel 16777215) = brightness pixel /\
  (Z.land pixel 16777215 = 16777215%Z -> bright pixel = true) /\
  (bright pixel = true -> (128 <= Z.land (Z.shiftr pixel 8) 255)%Z).
Proof.
  pose proof (inject_Z_range _ (channel_range pixel)) as [R0 R1].
  pose proof (inject_Z_range _ (channel_range (Z.shiftr pixel 8))) as [G0 G1].
  pose proof (inject_Z_range _ (channel_range (Z.shiftr pixel 16))) as [B0 B1].
  destruct (channels_ignore_alpha pixel) as (E1 & E2 & E3).
  split; [unfold brightness; cbv zeta; split; lra|].
  split; [unfold brightness; cbv zeta; rewrite E1, E2, E3; reflexivity|].
  split.
  - intros W. unfold bright.
    assert (E : brightness pixel = brightness 16777215).
    { unfold brightness. cbv zeta. rewrite <- E1, <- E2, <- E3, W. reflexivity. }
    rewrite E. reflexivity.
  - unfold bright. destruct (Qlt_le_dec 180 (brightness pixel)) as [H|H];
      [intros _ | discriminate].
    unfold brightness in H. cbv zeta in H.
    set (g := Z.land (Z.shiftr pixel 8) 255) in *.
    destruct (Z_lt_le_dec g 128) as [Hg|Hg]; [exfalso | exact Hg].
    assert (inject_Z g <= 127).
    { change 127 with (inject_Z 127). rewrite <- Zle_Qle. lia. }
    lra.
Qed.

Lemma brightness_depends_on_colour_only_witness :
  Z.land 4294967295 16777215 = 16777215%Z /\ bright 4294967295 = true /\
  bright 4294902015 = false.
Proof.
  assert (H : Z.land 4294967295 16777215 = 16777215%Z) by reflexivity.
  split; [exact H|].
  split; [exact (proj1 (proj2 (proj2 (brightness_depends_on_colour_only 4294967295))) H)|].
  vm_compute. reflexivity.
Defined.

Lemma clamp01_range v : unit_interval (clamp01 v).
Proof.
  unfold clamp01, unit_interval. split.
  - apply Q.le_max_l.
  - apply Q.max_lub; [lra | apply Q.le_min_l].
Qed.

Lemma clamp01_inside v : unit_interval v -> clamp01 v == v.
Proof.
  intros [A B]. unfold clamp01.
  rewrite (Q.min_r 1 v) by exact B. apply Q.max_r, A.
Qed.

Lemma clamp01_low v : v <= 0 -> clamp01 v == 0.
Proof.
  intros A. unfold clamp01. apply Q.max_l.
  apply Qle_trans with v; [apply Q.le_min_r | exact A].
Qed.

Lemma clamp01_high v : 1 <= v -> clamp01 v == 1.
Proof.
  intros A. unfold clamp01. rewrite (Q.min_l 1 v) by exact A.
  apply Q.max_r. lra.
Qed.

Lemma clamp01_monotone a b : a <= b -> clamp01 a <= clamp01 b.
Proof.
  intros H. unfold clamp01.
  apply Q.max_le_compat_l, Q.min_le_compat_l, H.
Qed.

(** X3.  The ergonomic mapping sends every centroid into [0, 1], is
    monotone, is flat at 0 on the left tenth and at 1 on the right tenth of
    the camera image, and is the affine map (raw - 0.1) / 0.8 in between;
    the centre of the image is a fixed point. *)
Theorem remap_has_dead_zones (raw raw' : Q) :
  unit_interval (remap raw) /\
  (raw <= raw' -> remap raw <= remap raw') /\
  (raw <= 0.1 -> remap raw == 0) /\
  (0.9 <= raw -> remap raw == 1) /\
  (0.1 <= raw -> raw <= 0.9 -> remap raw == (raw - 0.1) / 0.8) /\
  remap 0.5 == 0.5.
Proof.
  unfold remap.
  assert (D : forall v, (v - 0.1) / 0.8 == (v - 0.1) * (10 # 8)).
  { intros v. field. }
  split; [apply clamp01_range|]. split; [|split; [|split; [|split]]].
  - intros H. apply clamp01_monotone. rewrite !D. lra.
  - intros H. apply clamp01_low. rewrite D. lra.
  - intros H. apply clamp01_high. rewrite D. lra.
  - intros A B. apply clamp01_inside. unfold unit_interval. rewrite D. lra.
  - by_eval.
Qed.

Lemma remap_has_dead_zones_witness :
  (0.05 <= 0.95) /\ remap 0.05 == 0 /\ remap 0.95 == 1 /\
  remap 0.05 <= remap 0.95.
Proof.
  assert (H : 0.05 <= 0.95) by by_eval.
  pose proof (remap_has_dead_zones 0.05 0.95) as (_ & M & _).
  split; [exact H|]. split; [by_eval|]. split; [by_eval | exact (M H)].
Defined.

Lemma update_unit z k :
  sound k -> unit_interval (k_x k) -> unit_interval z ->
  unit_interval (k_x (kalman_update z k)).
Proof.
  intros Hk [X0 X1] [Z0 Z1]. unfold unit_interval.
  destruct (update_between z k Hk) as [[A B]|[A B]]; split; lra.
Qed.

Lemma update_noise z k :
  k_q (kalman_update z k) = k_q k /\ k_r (kalman_update z k) = k_r k.
Proof. split; reflexivity. Qed.

Lemma detect_invariant sumX count k :
  sound k -> unit_interval (k_x k) ->
  let '(k', rep) := detect sumX count k in
  sound k' /\ unit_interval (k_x k') /\
  k_q k' = k_q k /\ k_r k' = k_r k /\
  (exists d, rep = Some (k_x k', d)).
Proof.
  intros Hk Hx. unfold detect. destruct (8 <? count)%Z.
  - assert (Hz : unit_interval
                   (remap (inject_Z sumX / inject_Z count / inject_Z procWidth)))
      by apply clamp01_range.
    split; [apply update_sound, Hk|]. split; [apply update_unit; assumption|].
    split; [reflexivity|]. split; [reflexivity|]. exists true. reflexivity.
  - split; [exact Hk|]. split; [exact Hx|]. split; [reflexivity|].
    split; [reflexivity|]. exists false. reflexivity.
Qed.

Lemma processFrame_invariant feed k :
  sound k -> unit_interval (k_x k) ->
  let '(k', rep, _) := processFrame feed k in
  sound k' /\ unit_interval (k_x k') /\
  k_q k' = k_q k /\ k_r k' = k_r k /\
  (rep = None /\ k' = k \/ exists d, rep = Some (k_x k', d)).
Proof.
  intros Hk Hx. destruct feed as [| |data]; cbn [processFrame].
  - split; [exact Hk|]. split; [exact Hx|]. auto.
  - split; [exact Hk|]. split; [exact Hx|]. auto.
  - destruct (scan data 0 0 0) as [sumX count].
    pose proof (detect_invariant sumX count k Hk Hx) as H.
    destruct (detect sumX count k) as [k' rep].
    destruct H as (A & B & C & D & E).
    split; [exact A|]. split; [exact B|]. auto.
Qed.

(** X4.  Started from an estimate in [0, 1] with a non-negative variance
    and positive noise constants (as [kalmanX] is), [processFrame] keeps
    the estimate in [0, 1] and the variance non-negative and never writes
    the noise constants, whatever the camera delivers; every report carries
    the current estimate, so every position handed to the engine is in
    [0, 1] and keeps the paddle's left end between -70 and 730. *)
Theorem estimate_stays_normalized (feeds : list Feed) (k : Kalman) :
  0 <= k_p k -> 0 < k_q k -> 0 < k_r k ->
  0 <= k_x k -> k_x k <= 1 ->
  let '(k', reps) := processFrames feeds k in
  unit_interval (k_x k') /\ 0 <= k_p k' /\
  k_q k' = k_q k /\ k_r k' = k_r k /\
  Forall report_in_range reps /\
  (forall x d e, In (Some (x, d)) reps ->
     let e' := GameWorld.handleHandUpdate x d e in
     - (70) <= GameWorld.paddle_px e' /\ GameWorld.paddle_px e' <= 730).
Proof.
  intros Hp Hq Hr X0 X1.
  assert (Hk : sound k) by (repeat split; assumption).
  assert (Hx : unit_interval (k_x k)) by (split; assumption).
  clear Hp Hq Hr X0 X1.
  assert (Main : let '(k', reps) := processFrames feeds k in
            sound k' /\ unit_interval (k_x k') /\
            k_q k' = k_q k /\ k_r k' = k_r k /\ Forall report_in_range reps).
  { revert k Hk Hx. induction feeds as [|feed rest IH]; intros k Hk Hx.
    - cbn [processFrames]. split; [exact Hk|]. split; [exact Hx|].
      split; [reflexivity|]. split; [reflexivity | constructor].
    - cbn [processFrames].
      pose proof (processFrame_invariant feed k Hk Hx) as H.
      destruct (processFrame feed k) as [[k1 rep] again].
      destruct H as (A & B & C & D & E).
      assert (R : report_in_range rep).
      { destruct E as [[-> _]|[d ->]]; [exact I | exact B]. }
      destruct again.
      + specialize (IH k1 A B). destruct (processFrames rest k1) as [k2 reps].
        destruct IH as (A2 & B2 & C2 & D2 & E2).
        split; [exact A2|]. split; [exact B2|]. split; [congruence|].
        split; [congruence|]. constructor; assumption.
      + split; [exact A|]. split; [exact B|]. split; [exact C|].
        split; [exact D|]. constructor; [exact R | constructor]. }
  destruct (processFrames feeds k) as [k' reps].
  destruct Main as (A & B & C & D & E).
  split; [exact B|]. split; [apply A|]. split; [exact C|]. split; [exact D|].
  split; [exact E|].
  intros x d e Hin. rewrite Forall_forall in E. specialize (E _ Hin).
  cbn [report_in_range] in E. destruct E as [E0 E1].
  unfold GameWorld.paddle_px, GameWorld.handleHandUpdate, GameWorld.pw.
  cbn [GameWorld.set_isHandDetected GameWorld.set_handX GameWorld.handX].
  setoid_replace (140 / 2) with 70 by reflexivity.
  split; lra.
Qed.

(** A detected frame (nine bright pixels in the rightmost column) between
    two dark ones. *)
Lemma estimate_stays_normalized_witness :
  let lit := Pixels (repeat 0%Z 79 ++ [4294967295]%Z) in
  let feeds := [ Pixels []; Pixels (repeat 4294967295%Z 9); NotReady ] in
  (0 <= k_p kalmanX /\ 0 < k_q kalmanX /\ 0 < k_r kalmanX /\
   0 <= k_x kalmanX /\ k_x kalmanX <= 1) /\
  map (option_map snd) (snd (processFrames feeds kalmanX))
  = [Some false; Some true; None] /\
  unit_interval (k_x (fst (processFrames feeds kalmanX))).
Proof.
  cbv zeta.
  assert (H : 0 <= k_p kalmanX /\ 0 < k_q kalmanX /\ 0 < k_r kalmanX /\
              0 <= k_x kalmanX /\ k_x kalmanX <= 1) by by_eval.
  destruct H as (H1 & H2 & H3 & H4 & H5).
  pose proof (estimate_stays_normalized
                [ Pixels []; Pixels (repeat 4294967295%Z 9); NotReady ]
                kalmanX H1 H2 H3 H4 H5) as H.
  destruct (processFrames [ Pixels []; Pixels (repeat 4294967295%Z 9); NotReady ]
              kalmanX) as [k' reps] eqn:E.
  destruct H as (U & _).
  split; [repeat split; assumption|]. split; [|exact U].
  cbn [snd]. vm_compute in E. injection E as _ <-. reflexivity.
Defined.

Lemma frac_le a b c d : 0 < b -> 0 < d -> a * d <= c * b -> a / b <= c / d.
Proof.
  intros Hb Hd H. apply Qle_shift_div_r; [exact Hb|].
  assert (E : c / d * b == c * b / d) by (field; lra).
  rewrite E. apply Qle_shift_div_l; assumption.
Qed.

Lemma frac_lt a b c d : 0 < b -> 0 < d -> a * d < c * b -> a / b < c / d.
Proof.
  intros Hb Hd H. apply Qlt_shift_div_r; [exact Hb|].
  assert (E : c / d * b == c * b / d) by (field; lra).
  rewrite E. apply Qlt_shift_div_l; assumption.
Qed.

Lemma gain_lower k : sound k -> k_q k / (k_q k + k_r k) <= gain k.
Proof.
  intros (Hp & Hq & Hr). unfold gain, predicted.
  apply frac_le; try lra.
  assert (0 <= k_p k * k_r k) by (apply Qmult_le_0_compat; lra). lra.
Qed.

Lemma gain_upper k : sound k -> k_p k < k_r k ->
  gain k < (k_q k + k_r k) / (k_q k + 2 * k_r k).
Proof.
  intros (Hp & Hq & Hr) Hlt. unfold gain, predicted.
  apply frac_lt; try lra.
  assert (k_p k * k_r k < k_r k * k_r k) by (apply Qmult_lt_compat_r; assumption).
  lra.
Qed.

Lemma update_variance z k : sound k ->
  k_q k * k_r k / (k_q k + k_r k) <= k_p (kalman_update z k) /\
  k_p (kalman_update z k) < k_r k.
Proof.
  intros Hk. pose proof Hk as (Hp & Hq & Hr).
  assert (E : k_p (kalman_update z k)
              == k_r k * (k_p k + k_q k) / (k_p k + k_q k + k_r k)).
  { cbn [kalman_update k_p]. field. lra. }
  rewrite E. split.
  - apply frac_le; try lra.
    assert (0 <= k_p k * (k_r k * k_r k)).
    { apply Qmult_le_0_compat; [lra|]. apply Qmult_le_0_compat; lra. }
    lra.
  - apply Qlt_shift_div_r; [lra|].
    assert (0 < k_r k * k_r k) by (apply Qmult_lt_0_compat; assumption).
    lra.
Qed.

(** X5.  The gain never drops below q / (q + r); one update brings the
    variance into [q r / (q + r), r), where it stays, so every later gain
    is below (q + r) / (q + 2 r).  With the constants of [kalmanX] every
    update therefore moves the estimate at least two thirds, and after the
    first update less than three quarters, of the way to the measurement. *)
Theorem gain_stays_in_a_band (k : Kalman) (z0 : Q) (zs : list Q) :
  0 <= k_p k -> 0 < k_q k -> 0 < k_r k ->
  let lo := k_q k / (k_q k + k_r k) in
  let hi := (k_q k + k_r k) / (k_q k + 2 * k_r k) in
  lo <= gain k /\
  (k_q k * k_r k / (k_q k + k_r k) <= k_p (track (z0 :: zs) k)
   /\ k_p (track (z0 :: zs) k) < k_r k) /\
  Forall (fun g => lo <= g /\ g < hi) (gains zs (kalman_update z0 k)) /\
  (k_q k = k_q kalmanX -> k_r k = k_r kalmanX -> lo == 2 / 3 /\ hi == 3 / 4).
Proof.
  intros Hp Hq Hr lo hi.
  assert (Hk : sound k) by (repeat split; assumption).
  assert (Inv : forall l k1,
            sound k1 -> k_q k1 = k_q k -> k_r k1 = k_r k ->
            k_q k * k_r k / (k_q k + k_r k) <= k_p k1 -> k_p k1 < k_r k ->
            (k_q k * k_r k / (k_q k + k_r k) <= k_p (track l k1)
             /\ k_p (track l k1) < k_r k) /\
            Forall (fun g => lo <= g /\ g < hi) (gains l k1)).
  { induction l as [|z l IH]; intros k1 S1 Eq Er Lo Hi; cbn [track gains].
    - split; [split; assumption | constructor].
    - pose proof (update_variance z k1 S1) as [V1 V2]. rewrite Eq, Er in V1. rewrite Er in V2.
      destruct (IH (kalman_update z k1) (update_sound z k1 S1) Eq Er V1 V2)
        as [A B].
      split; [exact A|]. constructor; [|exact B]. split.
      + pose proof (gain_lower k1 S1) as G. rewrite Eq, Er in G. exact G.
      + assert (Hi' : k_p k1 < k_r k1) by (rewrite Er; exact Hi).
        pose proof (gain_upper k1 S1 Hi') as G. rewrite Eq, Er in G. exact G. }
  pose proof (update_variance z0 k Hk) as [V1 V2].
  destruct (Inv zs (kalman_update z0 k) (update_sound z0 k Hk) eq_refl eq_refl V1 V2)
    as [A B].
  split; [apply gain_lower, Hk|]. split; [exact A|]. split; [exact B|].
  intros Eq Er. unfold lo, hi. rewrite Eq, Er. split; by_eval.
Qed.

Lemma gain_stays_in_a_band_witness :
  (0 <= k_p kalmanX /\ 0 < k_q kalmanX /\ 0 < k_r kalmanX) /\
  Forall (fun g => 2 / 3 <= g /\ g < 3 / 4)
    (gains [0; 1; 0.5] (kalman_update 1 kalmanX)).
Proof.
  assert (H : 0 <= k_p kalmanX /\ 0 < k_q kalmanX /\ 0 < k_r kalmanX) by by_eval.
  destruct H as (H1 & H2 & H3).
  pose proof (gain_stays_in_a_band kalmanX 1 [0; 1; 0.5] H1 H2 H3) as H.
  cbv zeta in H. destruct H as (_ & _ & F & _).
  split; [repeat split; assumption|].
  eapply Forall_impl; [|exact F]. cbv beta. intros g [A B]. split.
  - eapply Qle_trans; [|exact A]. by_eval.
  - eapply Qlt_le_trans; [exact B|]. by_eval.
Defined.

End VisionTrackerMore.

(** ** More on the engine *)

Module GameWorldMore.
Import GameWorld Pipeline Readings Scenarios Ranges Health Inputs.
Import GameWorldFacts VisionTrackerMore.

(** X6.  The mouse listener does nothing while the game is paused.
    Otherwise, over a container of positive width, it stores the pointer's
    fraction of the width clamped to [0, 1]: the fraction itself inside the
    container, 0 to its left and 1 to its right; it writes nothing else,
    not even the detection flag. *)
Theorem mouse_position_is_clamped (clientX rectLeft rectWidth : Q) (e : Engine) :
  0 < rectWidth ->
  let e' := handleMove false clientX rectLeft rectWidth e in
  handleMove true clientX rectLeft rectWidth e = e /\
  unit_interval (handX e') /\
  (rectLeft <= clientX -> clientX <= rectLeft + rectWidth ->
   handX e' == (clientX - rectLeft) / rectWidth) /\
  (clientX <= rectLeft -> handX e' == 0) /\
  (rectLeft + rectWidth <= clientX -> handX e' == 1) /\
  set_handX (handX e) e' = e.
Proof.
  intros Hw e'. subst e'. unfold handleMove. cbn [set_handX handX].
  split; [reflexivity|]. split; [apply clamp01_range|].
  split; [|split; [|split]].
  - intros A B. apply clamp01_inside. split.
    + apply Qle_shift_div_l; lra.
    + apply Qle_shift_div_r; lra.
  - intros A. apply clamp01_low. apply Qle_shift_div_r; lra.
  - intros A. apply clamp01_high. apply Qle_shift_div_l; lra.
  - destruct e. reflexivity.
Qed.

Lemma mouse_position_is_clamped_witness :
  (0 < 800) /\
  handX (handleMove false 300 100 800 (engine MEDIUM 0)) == 1 / 4 /\
  handX (handleMove false 50 100 800 (engine MEDIUM 0)) == 0.
Proof.
  assert (H : 0 < 800) by by_eval.
  split; [exact H|].
  pose proof (mouse_position_is_clamped 300 100 800 (engine MEDIUM 0) H) as A.
  pose proof (mouse_position_is_clamped 50 100 800 (engine MEDIUM 0) H) as B.
  cbv zeta in A, B.
  destruct A as (_ & _ & A & _). destruct B as (_ & _ & _ & B & _).
  split.
  - rewrite A by by_eval. by_eval.
  - apply B. by_eval.
Defined.

Lemma deliver_paused_mouse e clientX rectLeft rectWidth :
  deliver true e (MouseMove clientX rectLeft rectWidth) = e.
Proof. reflexivity. Qed.

Lemma last_report_paused inputs : forall e acc,
  (match acc with
   | Some (x, d) => handX e = x /\ isHandDetected e = d
   | None => True
   end) ->
  let e' := fold_left (deliver true) inputs e in
  match fold_left (fun acc i => match i with
                                | HandUpdate x detected => Some (x, detected)
                                | MouseMove _ _ _ => acc
                                end) inputs acc with
  | Some (x, d) => handX e' = x /\ isHandDetected e' = d
  | None => acc = None /\ e' = e
  end.
Proof.
  induction inputs as [|i rest IH]; intros e acc Hacc; cbn [fold_left].
  - destruct acc as [[x d]|]; [exact Hacc | split; reflexivity].
  - destruct i as [x d|cx l w].
    + specialize (IH (deliver true e (HandUpdate x d)) (Some (x, d))).
      cbv zeta in IH.
      destruct (fold_left _ rest (Some (x, d))) as [[x' d']|].
      * apply IH. split; reflexivity.
      * destruct IH as [IH _]; [split; reflexivity | discriminate IH].
    + rewrite deliver_paused_mouse. apply IH, Hacc.
Qed.

(** X7.  While the game is paused, mouse events never move the paddle but
    vision reports still do: after a paused frame the engine is exactly
    what it was if no vision report arrived, and otherwise it differs
    only by the position and flag of the last report. *)
Theorem paused_paddle_follows_the_camera_only (theme : GameTheme)
    (gd : GameDifficulty) (f : Frame) (e : Engine) :
  f_paused f = true ->
  let e' := engine_of (frame theme gd f e) in
  same_simulation e e' /\
  match last_report (f_inputs f) with
  | Some (x, d) => e' = set_isHandDetected d (set_handX x e)
  | None => e' = e
  end.
Proof.
  intros P e'. subst e'. rewrite (frame_paused _ _ _ _ P). cbn [engine_of fst].
  pose proof (deliver_same_simulation true (f_inputs f) e) as S.
  split; [exact S|].
  pose proof (last_report_paused (f_inputs f) e None I) as H. cbv zeta in H.
  unfold last_report.
  destruct (fold_left _ (f_inputs f) None) as [[x d]|]; [|exact (proj2 H)].
  destruct H as [Hx Hd].
  destruct S as (S1 & S2 & S3 & S4 & S5 & S6 & S7 & S8).
  destruct (fold_left (deliver true) (f_inputs f) e), e.
  cbn in *. subst. reflexivity.
Qed.

Lemma paused_paddle_follows_the_camera_only_witness :
  let f := mkFrame true [MouseMove 300 100 800; HandUpdate 0.25 false;
                         MouseMove 700 100 800] 5 5 draws_left in
  f_paused f = true /\
  engine_of (frame COSMIC MEDIUM f (engine MEDIUM 0))
  = set_isHandDetected false (set_handX 0.25 (engine MEDIUM 0)).
Proof.
  cbv zeta.
  assert (H : f_paused (mkFrame true [MouseMove 300 100 800; HandUpdate 0.25 false;
                         MouseMove 700 100 800] 5 5 draws_left) = true)
    by reflexivity.
  split; [exact H|].
  exact (proj2 (paused_paddle_follows_the_camera_only COSMIC MEDIUM _
                  (engine MEDIUM 0) H)).
Defined.

Lemma variant_range d : random d -> (0 <= Qfloor (d * 3) <= 2)%Z.
Proof.
  intros [A B]. split.
  - change 0%Z with (Qfloor 0). apply Qfloor_resp_le. lra.
  - pose proof (Qfloor_le (d * 3)) as H.
    assert (H3 : inject_Z (Qfloor (d * 3)) < inject_Z 3)
      by (change (inject_Z 3) with 3; lra).
    rewrite <- Zlt_Qlt in H3. lia.
Qed.

Lemma spawned_well_formed rnd : fair rnd -> well_formed (spawned rnd).
Proof.
  intros (Hb & Hi & Hx & Hs & Hv). unfold well_formed, spawned. cbv zeta.
  cbn [obj_x obj_y obj_speed obj_radius obj_variant].
  destruct Hx, Hs. repeat split; try lra; try apply (variant_range _ Hv).
Qed.

(** X8.  With random draws in [0, 1), a spawned object starts at height
    -50 in a column between 50 and 750, with a speed of at least 4 and at
    most 7, a radius of 20 and a variant index of 0, 1 or 2; it is a hazard
    exactly
    when the first draw is below 0.22; it is not hit on the frame it is
    spawned; and the paddle can be put over its column: the normalized
    position x / 800 is in [0, 1] and the paddle's span then contains x. *)
Theorem spawned_object_is_in_play (rnd : Draws) :
  fair rnd ->
  let obj := spawned rnd in
  well_formed obj /\ obj_y obj == - (50) /\
  (obj_type obj = BAD <-> rnd_bad rnd < 0.22) /\
  (forall px, hit px paddle_py obj = false) /\
  (let h := obj_x obj / 800 in
   unit_interval h /\
   h * 800 - pw / 2 < obj_x obj /\ obj_x obj < h * 800 - pw / 2 + pw).
Proof.
  intros F obj. pose proof (spawned_well_formed rnd F) as W.
  fold obj in W. pose proof W as ((X0 & X1) & _).
  split; [exact W|]. split; [reflexivity|]. split; [|split].
  - unfold obj, spawned. cbv zeta. cbn [obj_type].
    destruct (ltb (rnd_bad rnd) 0.22) eqn:E.
    + apply ltb_lt in E. tauto.
    + apply ltb_ge in E. split; [discriminate | intros H; exfalso; lra].
  - intros px. destruct (hit px paddle_py obj) eqn:H; [|reflexivity].
    apply hit_spec in H. destruct H as (_ & _ & H & _).
    unfold obj, spawned, paddle_py in H. cbv zeta in H. cbn [obj_y] in H.
    exfalso. lra.
  - cbv zeta.
    assert (E : obj_x obj / 800 * 800 == obj_x obj) by (field).
    unfold pw. setoid_replace (140 / 2) with 70 by reflexivity.
    rewrite E. split; [|split; lra].
    split; [apply Qle_shift_div_l; lra | apply Qle_shift_div_r; lra].
Qed.

Lemma spawned_object_is_in_play_witness :
  fair draws_mid /\
  obj_x (spawned draws_mid) == 400 /\ obj_type (spawned draws_mid) = GOOD /\
  well_formed (spawned draws_mid).
Proof.
  assert (F : fair draws_mid) by by_eval.
  split; [exact F|]. split; [by_eval|]. split; [reflexivity|].
  exact (proj1 (spawned_object_is_in_play draws_mid F)).
Defined.

(** *** The collision pass *)

Lemma resolve_sounds theme settings px py objs : forall e e' kept evs,
  resolve theme settings px py objs e = (e', kept, evs) ->
  evs = map (sound_of theme) (filter (hit px py) objs).
Proof.
  induction objs as [|obj rest IH]; intros e e' kept evs H.
  - injection H as <- <- <-. reflexivity.
  - cbn [resolve filter] in *. destruct (hit px py obj).
    + cbn [map]. unfold sound_of at 1. destruct (obj_type obj);
        match type of H with
        | context [resolve ?t ?s ?x ?y ?r ?e0] =>
            destruct (resolve t s x y r e0) as [[e3 k3] ev3] eqn:R
        end;
        injection H as <- <- <-; apply IH in R; rewrite R; reflexivity.
    + match type of H with
      | context [resolve ?t ?s ?x ?y ?r ?e0] =>
          destruct (resolve t s x y r e0) as [[e3 k3] ev3] eqn:R
      end.
      injection H as <- <- <-. apply IH in R. exact R.
Qed.

(** The collision pass of a RUNNING frame, as [resolve] sees it. *)
Lemma loop_pass theme gd time now rnd e e' evs again :
  loop theme gd false time now rnd e = (e', evs, again) ->
  let settings := DIFFICULTY_SETTINGS gd in
  let dt := time - lastTime e in
  let fires := ltb (spawnRate settings (score e)) (spawnTimer e + dt) in
  let objs := motionUpdater theme dt (difficulty e) (objects e)
              ++ (if fires then [spawned rnd] else []) in
  exists e2 e3 kept hs,
    (score e2 = score e /\ lives e2 = lives e /\ combo e2 = combo e) /\
    resolve theme settings (paddle_px e) paddle_py objs e2 = (e3, kept, hs) /\
    (score e' = score e3 /\ lives e' = lives e3 /\ combo e' = combo e3) /\
    objects e' = kept /\
    again = negb (Qle_bool (lives e') 0) /\
    evs = hs ++ (if again then [] else [GameOver (floorQ (score e'))]).
Proof.
  rewrite loop_running. unfold loop_code_order, collisionResolver. cbv zeta.
  set (settings := DIFFICULTY_SETTINGS gd).
  set (dt := time - lastTime e).
  set (e1 := set_objects _ (set_lastTime time e)).
  set (e2 := spawner settings dt rnd e1).
  pose proof (spawner_rest settings dt rnd e1) as (S1 & S2 & S3 & S4 & _).
  pose proof (spawner_objects settings dt rnd e1) as So.
  fold e2 in S1, S2, S3, S4, So.
  cbn [e1 set_objects set_lastTime score lives combo handX objects spawnTimer]
    in S1, S2, S3, S4, So.
  fold dt in So.
  assert (Px : paddle_px e2 = paddle_px e) by (unfold paddle_px; rewrite S4; reflexivity).
  rewrite Px, So.
  destruct (resolve theme settings (paddle_px e) paddle_py _ e2)
    as [[e3 kept] hs] eqn:R.
  unfold terminationCheck. cbn [set_difficulty set_objects lives score].
  intros H. exists e2, e3, kept, hs.
  split; [auto|]. split; [exact R|].
  destruct (Qle_bool (lives e3) 0) eqn:Q; injection H as <- <- <-;
    cbn [set_difficulty set_objects lives score combo objects];
    rewrite ?Q; cbn [negb]; rewrite ?app_nil_r; auto 10.
Qed.

(** X9.  On a RUNNING frame an object of the previous state disappears
    only by leaving the playfield (its new height is 650 or more) or by
    being hit; conversely every object left after the frame is below 650
    and was not hit, and an object spawned on the frame is always kept. *)
Theorem objects_leave_by_exit_or_hit (theme : GameTheme) (gd : GameDifficulty)
    (time now : Q) (rnd : Draws) (e : Engine) (obj : GameObject) :
  In obj (objects e) ->
  let e' := engine_of (loop theme gd false time now rnd e) in
  let obj' := advance (Qmin (time - lastTime e) 32 / 16.67)
                      (gravityMult theme) (difficulty e) obj in
  (In obj' (objects e') \/ 650 <= obj_y obj' \/
   hit (paddle_px e) paddle_py obj' = true) /\
  (forall o, In o (objects e') ->
     obj_y o < 650 /\ hit (paddle_px e) paddle_py o = false) /\
  (ltb (spawnRate (DIFFICULTY_SETTINGS gd) (score e))
       (spawnTimer e + (time - lastTime e)) = true ->
   In (spawned rnd) (objects e')).
Proof.
  intros Hin e' obj'. subst e'.
  destruct (loop theme gd false time now rnd e) as [[e' evs] again] eqn:L.
  apply loop_facts in L. cbv zeta in L. destruct L as (_ & _ & O & _).
  cbn [engine_of fst]. rewrite O. split; [|split].
  - destruct (hit (paddle_px e) paddle_py obj') eqn:Hh; [auto|].
    destruct (Qlt_le_dec (obj_y obj') 650) as [Hy|Hy]; [left | auto].
    apply filter_In. split; [|rewrite Hh; reflexivity].
    apply in_or_app. left. unfold motionUpdater. apply filter_In. split.
    + apply in_map, Hin.
    + apply ltb_lt, Hy.
  - intros o Ho. apply filter_In in Ho. destruct Ho as [Ho Hh].
    apply negb_true_iff in Hh. split; [|exact Hh].
    apply in_app_or in Ho. destruct Ho as [Ho|Ho].
    + unfold motionUpdater in Ho. apply filter_In in Ho. apply ltb_lt, Ho.
    + match type of Ho with In _ (if ?c then _ else _) => destruct c end;
        [|contradiction].
      destruct Ho as [<-|[]]. cbn. reflexivity.
  - intros F. rewrite F. apply filter_In. split.
    + apply in_or_app. right. left. reflexivity.
    + apply negb_true_iff.
      destruct (hit (paddle_px e) paddle_py (spawned rnd)) eqn:H; [|reflexivity].
      apply hit_spec in H. destruct H as (_ & _ & H & _).
      unfold spawned, paddle_py in H. cbv zeta in H. cbn [obj_y] in H.
      exfalso. lra.
Qed.

Lemma objects_leave_by_exit_or_hit_witness :
  let obj := mkObject 0 400 645 20 6 GOOD 0 in
  let e := set_objects [obj] (engine MEDIUM 0) in
  In obj (objects e) /\
  objects (engine_of (loop COSMIC MEDIUM false 16.67 16.67 draws_left e)) = [] /\
  (forall o,
     In o (objects (engine_of (loop COSMIC MEDIUM false 16.67 16.67 draws_left e))) ->
     obj_y o < 650 /\ hit (paddle_px e) paddle_py o = false).
Proof.
  cbv zeta.
  assert (H : In (mkObject 0 400 645 20 6 GOOD 0)
                 (objects (set_objects [mkObject 0 400 645 20 6 GOOD 0]
                                       (engine MEDIUM 0))))
    by (left; reflexivity).
  split; [exact H|]. split; [vm_compute; reflexivity|].
  exact (proj1 (proj2 (objects_leave_by_exit_or_hit COSMIC MEDIUM 16.67 16.67
                         draws_left _ _ H))).
Defined.

(** X10.  The collision pass of a RUNNING frame keeps exactly the objects
    that are not hit, in array order, and sends one sound per hit object,
    in the same order: a collect sound for a GOOD object, a hazard sound
    for a BAD one.  No object is both kept and counted. *)
Theorem one_sound_per_hit (theme : GameTheme) (gd : GameDifficulty)
    (time now : Q) (rnd : Draws) (e : Engine) :
  let r := loop theme gd false time now rnd e in
  let dt := time - lastTime e in
  let fires := ltb (spawnRate (DIFFICULTY_SETTINGS gd) (score e))
                   (spawnTimer e + dt) in
  let objs := motionUpdater theme dt (difficulty e) (objects e)
              ++ (if fires then [spawned rnd] else []) in
  let struck := filter (hit (paddle_px e) paddle_py) objs in
  hits (events_of r) = map (sound_of theme) struck /\
  objects (engine_of r)
  = filter (fun o => negb (hit (paddle_px e) paddle_py o)) objs /\
  (length (objects (engine_of r)) + length (hits (events_of r))
   = length objs)%nat.
Proof.
  cbv zeta.
  destruct (loop theme gd false time now rnd e) as [[e' evs] again] eqn:L.
  pose proof (loop_pass _ _ _ _ _ _ _ _ _ L) as P. cbv zeta in P.
  destruct P as (e2 & e3 & kept & hs & _ & R & _ & K & _ & E).
  pose proof (resolve_sounds _ _ _ _ _ _ _ _ _ R) as So.
  pose proof (resolve_kept _ _ _ _ _ _ _ _ _ R) as Kp.
  pose proof (resolve_events _ _ _ _ _ _ _ _ _ R) as Ev.
  cbn [engine_of events_of fst snd].
  assert (Hh : hits evs = hs).
  { rewrite E. unfold hits. rewrite filter_app.
    destruct again; cbn [filter is_hit_event]; rewrite app_nil_r;
      apply hit_events_no_game_over, Ev. }
  rewrite Hh, K, So, Kp. split; [reflexivity|]. split; [reflexivity|].
  rewrite length_map.
  match goal with |- context [filter ?f ?l] => generalize l end.
  intros l. induction l as [|o l IH]; [reflexivity|]. cbn [filter].
  destruct (hit (paddle_px e) paddle_py o); cbn [negb length]; lia.
Qed.

(** *** The counters *)

Lemma whole_inject z : whole (inject_Z z).
Proof. exists z. reflexivity. Qed.

Lemma whole_plus a b : whole a -> whole b -> whole (a + b).
Proof.
  intros [x Hx] [y Hy]. exists (x + y)%Z. rewrite Hx, Hy, inject_Z_plus. reflexivity.
Qed.

Lemma whole_minus a b : whole a -> whole b -> whole (a - b).
Proof.
  intros [x Hx] [y Hy]. exists (x - y)%Z.
  rewrite Hx, Hy. unfold Z.sub. rewrite inject_Z_plus, inject_Z_opp. reflexivity.
Qed.

Lemma whole_floor a : whole a -> floorQ a == a.
Proof.
  intros [x Hx]. unfold floorQ. rewrite (Qfloor_comp _ _ Hx), Qfloor_Z.
  symmetry. exact Hx.
Qed.

Lemma hazards_nonneg evs : 0 <= hazards evs.
Proof.
  unfold hazards. change 0 with (inject_Z 0). rewrite <- Zle_Qle. lia.
Qed.

Lemma resolve_whole theme settings px py objs : forall e e' kept evs,
  resolve theme settings px py objs e = (e', kept, evs) ->
  whole (hazardPenalty settings) ->
  whole (score e) /\ whole (combo e) /\ whole (lives e) ->
  whole (score e') /\ whole (combo e') /\ whole (lives e').
Proof.
  induction objs as [|obj rest IH]; intros e e' kept evs H Hp (Hs & Hc & Hl).
  - injection H as <- <- <-. auto.
  - step_resolve H R; apply IH in R; try exact R; try exact Hp;
      cbn [set_score set_combo set_lives score combo lives].
    + repeat split; try assumption.
      * apply whole_plus; [exact Hs|].
        apply whole_plus; [apply (whole_inject 5) | apply whole_inject].
      * apply whole_plus; [exact Hc | apply (whole_inject 1)].
    + repeat split; try assumption.
      * apply (whole_inject 0).
      * apply whole_minus; assumption.
    + auto.
Qed.

Lemma frame_tallied theme gd f e :
  tallied gd e -> tallied gd (engine_of (frame theme gd f e)).
Proof.
  intros (Ws & Wc & Wl & S0 & C0 & L0).
  pose proof (deliver_same_simulation (f_paused f) (f_inputs f) e)
    as (D1 & D2 & D3 & _).
  unfold frame. set (e0 := fold_left _ (f_inputs f) e) in *.
  destruct (f_paused f).
  - cbn [loop engine_of fst]. unfold tallied. rewrite D1, D2, D3. auto 10.
  - destruct (loop theme gd false (f_time f) (f_now f) (f_rnd f) e0)
      as [[e' evs] again] eqn:L.
    pose proof (loop_pass _ _ _ _ _ _ _ _ _ L) as P. cbv zeta in P.
    destruct P as (e2 & e3 & kept & hs & (A1 & A2 & A3) & R & (B1 & B2 & B3) & _).
    apply loop_facts in L. cbv zeta in L.
    destruct L as (_ & _ & _ & _ & Lv & Sm & _).
    cbn [engine_of fst].
    assert (W : whole (score e3) /\ whole (combo e3) /\ whole (lives e3)).
    { apply (resolve_whole _ _ _ _ _ _ _ _ _ R).
      - rewrite hazardPenalty_one. apply (whole_inject 1).
      - rewrite A1, A2, A3, D1, D2, D3. auto. }
    destruct W as (W1 & W2 & W3).
    destruct Sm as [Sm1 Sm2]; [rewrite D3; exact C0|].
    rewrite D1 in Sm1. rewrite D2, hazardPenalty_one in Lv.
    pose proof (hazards_nonneg evs) as Hz.
    unfold tallied. rewrite B1, B2, B3.
    split; [exact W1|]. split; [exact W2|]. split; [exact W3|].
    rewrite <- B1, <- B2, <- B3.
    split; [lra|]. split; [exact Sm2|]. rewrite Lv. lra.
Qed.

Lemma run_tallied theme gd fs : forall e,
  tallied gd e -> tallied gd (engine_of (run theme gd fs e)).
Proof.
  induction fs as [|f rest IH]; intros e T; [exact T|].
  cbn [run]. pose proof (frame_tallied theme gd f e T) as T1.
  destruct (frame theme gd f e) as [[e1 evs1] [|]]; cbn [engine_of fst] in T1.
  - specialize (IH e1 T1).
    destruct (run theme gd rest e1) as [[e2 evs2] again2]. exact IH.
  - exact T1.
Qed.

Lemma engine_tallied gd now0 : tallied gd (engine gd now0).
Proof.
  unfold tallied. cbn [engine score combo lives]. repeat split; try lra.
  - apply (whole_inject 0).
  - apply (whole_inject 0).
  - destruct gd; [apply (whole_inject 5) | apply (whole_inject 3) | apply (whole_inject 1)].
Qed.

(** X11.  In every state a session reaches, the score, the combo and the
    lives are whole numbers, the score and the combo are not negative and
    the lives do not exceed the initial lives.  So the floor taken when the
    game ends changes nothing, and neither would a floor of the combo. *)
Theorem counters_are_whole_numbers (theme : GameTheme) (gd : GameDifficulty)
    (now0 : Q) (fs : list Frame) :
  let e := session theme gd now0 fs in
  (whole (score e) /\ whole (combo e) /\ whole (lives e)) /\
  (0 <= score e /\ 0 <= combo e) /\
  lives e <= initialLives (DIFFICULTY_SETTINGS gd) /\
  floorQ (score e) == score e.
Proof.
  intros e.
  pose proof (run_tallied theme gd fs _ (engine_tallied gd now0)) as T.
  fold (session theme gd now0 fs) in T. fold e in T.
  destruct T as (Ws & Wc & Wl & S0 & C0 & L0).
  repeat split; try assumption. apply whole_floor, Ws.
Qed.

Lemma initialLives_pos gd : 0 < initialLives (DIFFICULTY_SETTINGS gd).
Proof. destruct gd; by_eval. Qed.

(** X12.  Lives are only ever lost, one per hazard hit: after any session
    the lives are the initial lives minus the number of hazard sounds the
    session has sent. *)
Theorem each_hazard_costs_one_life (theme : GameTheme) (gd : GameDifficulty)
    (now0 : Q) (fs : list Frame) :
  let r := run theme gd fs (engine gd now0) in
  lives (engine_of r)
  == initialLives (DIFFICULTY_SETTINGS gd) - hazards (events_of r) /\
  hazards (events_of r)
  == inject_Z (Z.of_nat (length (filter is_hazard (hits (events_of r))))).
Proof.
  cbv zeta.
  destruct (run theme gd fs (engine gd now0)) as [[e' evs] again] eqn:R.
  apply run_facts in R. destruct R as (L & _).
  cbn [engine_of events_of fst snd]. split.
  - rewrite L, hazardPenalty_one. cbn [engine lives]. ring.
  - unfold hazards. rewrite hazards_of_hits. reflexivity.
Qed.

(** X13.  In any session, [onGameOver] is called at most once.  While the
    loop keeps requesting frames the lives are positive and nothing but hit
    sounds has been sent; when it stops, the lives are zero or less, the
    call is the last thing sent, and its argument is exactly the final
    score. *)
Theorem game_over_is_reported_once (theme : GameTheme) (gd : GameDifficulty)
    (now0 : Q) (fs : list Frame) :
  let r := run theme gd fs (engine gd now0) in
  let e := engine_of r in
  (length (filter is_game_over (events_of r)) <= 1)%nat /\
  (if again_of r
   then 0 < lives e /\ events_of r = hits (events_of r)
   else lives e <= 0 /\
        events_of r = hits (events_of r) ++ [GameOver (floorQ (score e))] /\
        floorQ (score e) == score e).
Proof.
  cbv zeta.
  pose proof (run_tallied theme gd fs _ (engine_tallied gd now0)) as T.
  destruct (run theme gd fs (engine gd now0)) as [[e' evs] again] eqn:R.
  apply run_facts in R. destruct R as (_ & _ & _ & A & B).
  cbn [engine_of events_of again_of fst snd] in *.
  destruct again.
  - destruct (A eq_refl) as [Hh Hl].
    destruct (hit_events_no_game_over evs Hh) as [G Hs].
    rewrite G, Hs. split; [cbn; lia|]. split; [|reflexivity].
    apply Hl. cbn [engine lives]. apply initialLives_pos.
  - destruct (B eq_refl) as (Hl & hs & Hh & ->).
    destruct (hit_events_no_game_over hs Hh) as [G Hs].
    assert (E : hits (hs ++ [GameOver (floorQ (score e'))]) = hs).
    { unfold hits in *. rewrite filter_app. cbn [filter is_hit_event].
      rewrite app_nil_r. exact Hs. }
    rewrite E, filter_app, G. split; [cbn; lia|]. split; [exact Hl|].
    split; [reflexivity|]. apply whole_floor, T.
Qed.

Lemma streak_app c evs1 evs2 :
  streak c (evs1 ++ evs2) = streak (streak c evs1) evs2.
Proof. unfold streak. apply fold_left_app. Qed.

Lemma resolve_streak theme settings px py objs : forall e e' kept evs c,
  resolve theme settings px py objs e = (e', kept, evs) ->
  combo e == inject_Z (Z.of_nat c) ->
  combo e' == inject_Z (Z.of_nat (streak c evs)).
Proof.
  induction objs as [|obj rest IH]; intros e e' kept evs c H Hc.
  - injection H as <- <- <-. exact Hc.
  - step_resolve H R.
    + apply (IH _ _ _ _ (S c)) in R; [exact R|].
      cbn [set_score set_combo combo]. rewrite Hc, Nat2Z.inj_succ.
      unfold Z.succ. rewrite inject_Z_plus. reflexivity.
    + apply (IH _ _ _ _ O) in R; [exact R|]. reflexivity.
    + apply (IH _ _ _ _ c) in R; [exact R | exact Hc].
Qed.

Lemma frame_streak theme gd f e e' evs again c :
  frame theme gd f e = (e', evs, again) ->
  combo e == inject_Z (Z.of_nat c) ->
  combo e' == inject_Z (Z.of_nat (streak c evs)).
Proof.
  intros F Hc.
  pose proof (deliver_same_simulation (f_paused f) (f_inputs f) e)
    as (_ & _ & D3 & _).
  unfold frame in F. destruct (f_paused f).
  - cbn [loop] in F. injection F as <- <- <-. rewrite D3. exact Hc.
  - pose proof (loop_pass _ _ _ _ _ _ _ _ _ F) as P. cbv zeta in P.
    destruct P as (e2 & e3 & kept & hs & (_ & _ & A3) & R & (_ & _ & B3) & _ & _ & E).
    assert (S : streak c evs = streak c hs).
    { rewrite E, streak_app. destruct again; reflexivity. }
    rewrite S, B3. apply (resolve_streak _ _ _ _ _ _ _ _ _ _ R).
    rewrite A3, D3. exact Hc.
Qed.

Lemma run_streak theme gd fs : forall e e' evs again c,
  run theme gd fs e = (e', evs, again) ->
  combo e == inject_Z (Z.of_nat c) ->
  combo e' == inject_Z (Z.of_nat (streak c evs)).
Proof.
  induction fs as [|f rest IH]; intros e e' evs again c H Hc.
  - injection H as <- <- <-. exact Hc.
  - cbn [run] in H. destruct (frame theme gd f e) as [[e1 evs1] again1] eqn:F.
    pose proof (frame_streak _ _ _ _ _ _ _ _ F Hc) as H1.
    destruct again1.
    + destruct (run theme gd rest e1) as [[e2 evs2] again2] eqn:R.
      injection H as <- <- <-. rewrite streak_app.
      apply (IH _ _ _ _ _ R H1).
    + injection H as <- <- <-. exact H1.
Qed.

Lemma streak_hits c evs : streak c (hits evs) = streak c evs.
Proof.
  revert c. unfold hits, streak. induction evs as [|ev rest IH]; intros c; [reflexivity|].
  destruct ev; cbn [filter is_hit_event fold_left]; apply IH.
Qed.

Lemma streak_collects theme c n : streak c (repeat (PlayCollect theme) n) = (c + n)%nat.
Proof.
  revert c. induction n as [|n IH]; intros c; cbn [repeat]; unfold streak in *;
    cbn [fold_left]; [lia | rewrite IH; lia].
Qed.

(** X14.  The combo counts the GOOD hits since the last BAD hit: if the
    hits of a session end with [n] collect sounds that follow a hazard
    sound, or are [n] collect sounds and nothing else, the combo is [n]. *)
Theorem combo_counts_the_current_streak (theme : GameTheme) (gd : GameDifficulty)
    (now0 : Q) (fs : list Frame) (pre : list Event) (n : nat) :
  hits (events_of (run theme gd fs (engine gd now0)))
  = pre ++ repeat (PlayCollect theme) n ->
  pre = [] \/ (exists pre', pre = pre' ++ [PlayHazard theme]) ->
  combo (session theme gd now0 fs) == inject_Z (Z.of_nat n).
Proof.
  intros Hh Hpre. unfold session.
  destruct (run theme gd fs (engine gd now0)) as [[e' evs] again] eqn:R.
  cbn [engine_of events_of fst snd] in *.
  assert (C0 : combo (engine gd now0) == inject_Z (Z.of_nat 0)) by reflexivity.
  rewrite (run_streak _ _ _ _ _ _ _ _ R C0), <- streak_hits, Hh, streak_app.
  assert (E : streak 0 pre = O).
  { destruct Hpre as [->|[pre' ->]]; [reflexivity|].
    rewrite streak_app. reflexivity. }
  rewrite E, streak_collects. reflexivity.
Qed.

Lemma combo_counts_the_current_streak_witness :
  let fs := hidden_tab 22 in
  hits (events_of (run NEON_CITY MEDIUM fs (engine MEDIUM 0)))
  = [] ++ repeat (PlayCollect NEON_CITY) 1 /\
  combo (session NEON_CITY MEDIUM 0 fs) == 1.
Proof.
  cbv zeta.
  assert (H : hits (events_of (run NEON_CITY MEDIUM (hidden_tab 22) (engine MEDIUM 0)))
              = [] ++ repeat (PlayCollect NEON_CITY) 1)
    by (vm_compute; reflexivity).
  split; [exact H|].
  exact (combo_counts_the_current_streak NEON_CITY MEDIUM 0 (hidden_tab 22)
           [] 1 H (or_introl eq_refl)).
Defined.

Lemma floor_quarter c :
  floorQ (inject_Z (Z.of_nat c) / 4) == inject_Z (Z.of_nat (c / 4)).
Proof.
  unfold floorQ. change 4 with (inject_Z 4). rewrite <- Zdiv_Qdiv.
  rewrite Nat2Z.inj_div. reflexivity.
Qed.

Lemma inject_nat_plus a b :
  inject_Z (Z.of_nat (a + b)) == inject_Z (Z.of_nat a) + inject_Z (Z.of_nat b).
Proof. rewrite Nat2Z.inj_add, inject_Z_plus. reflexivity. Qed.

Lemma resolve_points theme settings px py objs : forall e e' kept evs c,
  resolve theme settings px py objs e = (e', kept, evs) ->
  combo e == inject_Z (Z.of_nat c) ->
  score e' == score e + inject_Z (Z.of_nat (points c evs)).
Proof.
  induction objs as [|obj rest IH]; intros e e' kept evs c H Hc.
  - injection H as <- <- <-. cbn [points]. change (inject_Z (Z.of_nat 0)) with 0. ring.
  - step_resolve H R.
    + apply (IH _ _ _ _ (S c)) in R.
      * rewrite R. cbn [set_score set_combo score points].
        rewrite !inject_nat_plus.
        assert (F : floorQ (combo e / 4) == inject_Z (Z.of_nat (c / 4))).
        { rewrite <- floor_quarter. unfold floorQ.
          apply inject_Z_injective. apply Qfloor_comp. rewrite Hc. reflexivity. }
        rewrite F. change (inject_Z (Z.of_nat 5)) with 5. ring.
      * cbn [set_score set_combo combo]. rewrite Hc, Nat2Z.inj_succ.
        unfold Z.succ. rewrite inject_Z_plus. reflexivity.
    + apply (IH _ _ _ _ O) in R; [|reflexivity].
      rewrite R. cbn [set_lives set_combo score points]. reflexivity.
    + apply (IH _ _ _ _ c) in R; [exact R | exact Hc].
Qed.

Lemma points_app c evs1 evs2 :
  points c (evs1 ++ evs2) = (points c evs1 + points (streak c evs1) evs2)%nat.
Proof.
  revert c. induction evs1 as [|ev rest IH]; intros c; [reflexivity|].
  destruct ev; cbn [app points]; rewrite IH; unfold streak; cbn [fold_left]; lia.
Qed.

Lemma frame_points theme gd f e e' evs again c :
  frame theme gd f e = (e', evs, again) ->
  combo e == inject_Z (Z.of_nat c) ->
  score e' == score e + inject_Z (Z.of_nat (points c evs)).
Proof.
  intros F Hc.
  pose proof (deliver_same_simulation (f_paused f) (f_inputs f) e)
    as (D1 & _ & D3 & _).
  unfold frame in F. destruct (f_paused f).
  - cbn [loop] in F. injection F as <- <- <-. rewrite D1. cbn [points].
    change (inject_Z (Z.of_nat 0)) with 0. ring.
  - pose proof (loop_pass _ _ _ _ _ _ _ _ _ F) as P. cbv zeta in P.
    destruct P as (e2 & e3 & kept & hs & (A1 & _ & A3) & R & (B1 & _ & _) & _ & _ & E).
    assert (S : points c evs = points c hs).
    { rewrite E, points_app. destruct again; cbn [points]; lia. }
    rewrite S, B1, <- D1, <- A1.
    apply (resolve_points _ _ _ _ _ _ _ _ _ _ R). rewrite A3, D3. exact Hc.
Qed.

Lemma run_points theme gd fs : forall e e' evs again c,
  run theme gd fs e = (e', evs, again) ->
  combo e == inject_Z (Z.of_nat c) ->
  score e' == score e + inject_Z (Z.of_nat (points c evs)).
Proof.
  induction fs as [|f rest IH]; intros e e' evs again c H Hc.
  - injection H as <- <- <-. cbn [points]. change (inject_Z (Z.of_nat 0)) with 0. ring.
  - cbn [run] in H. destruct (frame theme gd f e) as [[e1 evs1] again1] eqn:F.
    pose proof (frame_points _ _ _ _ _ _ _ _ F Hc) as P1.
    pose proof (frame_streak _ _ _ _ _ _ _ _ F Hc) as C1.
    destruct again1.
    + destruct (run theme gd rest e1) as [[e2 evs2] again2] eqn:R.
      injection H as <- <- <-.
      rewrite (IH _ _ _ _ _ R C1), P1, points_app, inject_nat_plus. ring.
    + injection H as <- <- <-. exact P1.
Qed.

Lemma points_streak theme m c :
  (points (4 * c) (repeat (PlayCollect theme) (4 * m))
   = 2 * m * (m + 9) + 4 * m * c)%nat.
Proof.
  revert c. induction m as [|m IH]; intros c; [reflexivity|].
  replace (4 * S m)%nat with (4 + 4 * m)%nat by lia.
  cbn [repeat Nat.add points].
  replace (S (S (S (S (4 * c)))))%nat with (4 * S c)%nat by lia.
  rewrite IH.
  replace (4 * c / 4)%nat with c by (rewrite Nat.mul_comm, Nat.div_mul; lia).
  replace (S (4 * c) / 4)%nat with c.
  2:{ apply (Nat.div_unique _ 4 c 1); lia. }
  replace (S (S (4 * c)) / 4)%nat with c.
  2:{ apply (Nat.div_unique _ 4 c 2); lia. }
  replace (S (S (S (4 * c))) / 4)%nat with c.
  2:{ apply (Nat.div_unique _ 4 c 3); lia. }
  lia.
Qed.

Lemma points_hits c evs : points c (hits evs) = points c evs.
Proof.
  revert c. unfold hits. induction evs as [|ev rest IH]; intros c; [reflexivity|].
  destruct ev; cbn [filter is_hit_event points]; rewrite IH; reflexivity.
Qed.

(** X27.  The score is a function of the sequence of hits alone: each
    GOOD hit earns 5 plus a quarter (rounded down) of the number of GOOD
    hits since the last BAD hit, and a BAD hit earns nothing and only
    resets that count.  An unbroken streak of 4m GOOD hits from the start
    is worth 2m(m + 9) points. *)
Theorem score_is_the_sum_of_the_hit_bonuses (theme : GameTheme)
    (gd : GameDifficulty) (now0 : Q) (fs : list Frame) (m : nat) :
  let r := run theme gd fs (engine gd now0) in
  score (engine_of r) == inject_Z (Z.of_nat (points 0 (hits (events_of r)))) /\
  points 0 (repeat (PlayCollect theme) (4 * m)) = (2 * m * (m + 9))%nat.
Proof.
  cbv zeta.
  destruct (run theme gd fs (engine gd now0)) as [[e' evs] again] eqn:R.
  cbn [engine_of events_of fst snd].
  assert (C0 : combo (engine gd now0) == inject_Z (Z.of_nat 0)) by reflexivity.
  pose proof (run_points _ _ _ _ _ _ _ _ R C0) as P.
  cbn [engine score] in P.
  split.
  - rewrite points_hits, P. ring.
  - pose proof (points_streak theme m 0) as S. rewrite Nat.mul_0_r in S.
    rewrite S. lia.
Qed.

(** *** Timing invariants of a chronological session *)

Lemma controller_monotone s1 s2 t1 t2 :
  s1 <= s2 -> t1 <= t2 ->
  difficultyController s1 t1 <= difficultyController s2 t2.
Proof.
  intros Hs Ht. unfold difficultyController, Qdiv.
  assert (s1 * / 500 <= s2 * / 500) by (apply Qmult_le_compat_r; [exact Hs | by_eval]).
  assert (t1 * / 120000 <= t2 * / 120000)
    by (apply Qmult_le_compat_r; [exact Ht | by_eval]).
  lra.
Qed.

Lemma controller_at_least_one s t :
  0 <= s -> 0 <= t -> 1 <= difficultyController s t.
Proof.
  intros Hs Ht.
  apply Qle_trans with (difficultyController 0 0); [by_eval|].
  apply controller_monotone; assumption.
Qed.

Lemma spawnRate_at_most_base gd s :
  0 <= s -> spawnRate (DIFFICULTY_SETTINGS gd) s
            <= spawnRateBase (DIFFICULTY_SETTINGS gd).
Proof.
  intros Hs. unfold spawnRate. apply Q.max_lub; [destruct gd; by_eval | lra].
Qed.

Lemma step_nonneg dt : 0 <= dt -> 0 <= Qmin dt 32 / 16.67.
Proof.
  intros H. apply Qle_shift_div_l; [by_eval|].
  apply Q.min_glb; lra.
Qed.

Lemma advance_well_formed step g d obj :
  well_formed obj -> 0 <= step -> 0 < g -> 1 <= d ->
  obj_y (advance step g d obj) < 650 ->
  well_formed (advance step g d obj) /\
  obj_y obj <= obj_y (advance step g d obj).
Proof.
  intros (Hx & Hs & Hr & Hv & Hy0 & Hy1) Hstep Hg Hd Hlt.
  assert (M : 0 <= obj_speed obj * step * g * d).
  { repeat apply Qmult_le_0_compat; lra. }
  unfold well_formed. cbn [advance obj_x obj_y obj_speed obj_radius obj_variant] in *.
  repeat split; try tauto; try lra.
Qed.

Lemma deliver_unit isPaused inputs : forall e,
  Forall valid_input inputs -> unit_interval (handX e) ->
  unit_interval (handX (fold_left (deliver isPaused) inputs e)).
Proof.
  induction inputs as [|i rest IH]; intros e Hv Hx; [exact Hx|].
  inversion Hv as [|? ? Hi Hrest]; subst. cbn [fold_left]. apply IH; [exact Hrest|].
  destruct i as [x d|cx l w]; cbn [deliver].
  - exact Hi.
  - unfold handleMove. destruct isPaused; [exact Hx|]. apply clamp01_range.
Qed.

Lemma healthy_later gd t n t' n' e :
  healthy gd t n e -> t <= t' -> n <= n' -> healthy gd t' n' e.
Proof.
  intros ((L0 & L1) & St & S0 & C0 & (D1 & D2) & Sp & O & H) Ht Hn.
  unfold healthy.
  split; [split; lra|]. split; [lra|]. split; [exact S0|]. split; [exact C0|].
  split; [split; [exact D1|]|].
  { eapply Qle_trans; [exact D2|]. apply controller_monotone; lra. }
  split; [exact Sp|]. split; [exact O | exact H].
Qed.

(** One frame keeps the timing side of the engine healthy and never
    lowers the multiplier. *)
Lemma frame_healthy theme gd t n f e :
  healthy gd t n e -> orderly_frame t n f ->
  healthy gd (f_time f) (f_now f) (engine_of (frame theme gd f e)) /\
  difficulty e <= difficulty (engine_of (frame theme gd f e)).
Proof.
  intros Hh (Ht & Hn & Hf & Hi).
  pose proof Hh as ((L0 & L1) & St & S0 & C0 & (D1 & D2) & (P0 & P1) & O & H).
  pose proof (deliver_same_simulation (f_paused f) (f_inputs f) e)
    as (E1 & E2 & E3 & E4 & E5 & E6 & E7 & E8).
  pose proof (deliver_unit (f_paused f) (f_inputs f) e Hi H) as Hx.
  unfold frame. set (e0 := fold_left _ (f_inputs f) e) in *.
  destruct (f_paused f).
  - cbn [loop engine_of fst]. split; [|rewrite E5; lra].
    unfold healthy. rewrite E1, E3, E4, E5, E6, E7, E8.
    split; [split; lra|]. split; [lra|]. split; [exact S0|]. split; [exact C0|].
    split; [split; [exact D1|]|].
    { eapply Qle_trans; [exact D2|]. apply controller_monotone; lra. }
    split; [split; assumption|]. split; [exact O | exact Hx].
  - destruct (loop theme gd false (f_time f) (f_now f) (f_rnd f) e0)
      as [[e' evs] again] eqn:L.
    apply loop_facts in L. cbv zeta in L.
    destruct L as ((A1 & A2 & A3 & _) & Sp & Ob & Df & _ & Sm & _).
    cbn [engine_of fst].
    destruct Sm as [Sm1 Sm2]; [rewrite E3; exact C0|].
    rewrite E1 in Sm1. rewrite E1, E6, E7 in Sp. rewrite E4, E5, E7 in Ob.
    rewrite E8 in Df, A2.
    assert (Hdt : 0 <= f_time f - lastTime e) by lra.
    assert (Hd' : difficulty e <= difficulty e').
    { rewrite Df. eapply Qle_trans; [exact D2|]. apply controller_monotone; lra. }
    split; [|exact Hd'].
    unfold healthy. rewrite A1, A2, A3, Sp, Ob, Df.
    split; [split; lra|]. split; [lra|]. split; [lra|]. split; [exact Sm2|].
    split; [split; [apply controller_at_least_one; lra | lra]|].
    split.
    { destruct (ltb _ _) eqn:F.
      - split; [lra|]. pose proof (spawnRate_floor (DIFFICULTY_SETTINGS gd) (score e)).
        pose proof (spawnRate_at_most_base gd (score e) S0). lra.
      - apply ltb_ge in F. pose proof (spawnRate_at_most_base gd (score e) S0).
        split; lra. }
    split; [|exact Hx].
    apply Forall_forall. intros o Ho. apply filter_In in Ho. destruct Ho as [Ho _].
    apply in_app_or in Ho. destruct Ho as [Ho|Ho].
    + unfold motionUpdater in Ho. apply filter_In in Ho. destruct Ho as [Ho Hy].
      apply in_map_iff in Ho. destruct Ho as (o0 & <- & Hin).
      rewrite Forall_forall in O.
      apply advance_well_formed;
        [apply O, Hin | apply step_nonneg, Hdt | apply gravityMult_pos
         | exact D1 | apply ltb_lt, Hy].
    + match type of Ho with In _ (if ?c then _ else _) => destruct c end;
        [|contradiction].
      destruct Ho as [<-|[]]. apply spawned_well_formed, Hf.
Qed.

Lemma orderly_clock t n fs :
  orderly t n fs -> t <= fst (clock t n fs) /\ n <= snd (clock t n fs).
Proof.
  revert t n. induction fs as [|f rest IH]; intros t n H; cbn [clock fst snd].
  - split; lra.
  - destruct H as ((Ht & Hn & _) & Hrest). destruct (IH _ _ Hrest). split; lra.
Qed.

Lemma orderly_app t n fs more :
  orderly t n (fs ++ more) ->
  orderly t n fs /\ orderly (fst (clock t n fs)) (snd (clock t n fs)) more.
Proof.
  revert t n. induction fs as [|f rest IH]; intros t n H; cbn [app clock orderly] in *.
  - split; [exact I | exact H].
  - destruct H as [Hf Hrest]. destruct (IH _ _ Hrest). auto.
Qed.

Lemma run_healthy theme gd fs : forall t n e,
  healthy gd t n e -> orderly t n fs ->
  healthy gd (fst (clock t n fs)) (snd (clock t n fs))
          (engine_of (run theme gd fs e)) /\
  difficulty e <= difficulty (engine_of (run theme gd fs e)).
Proof.
  induction fs as [|f rest IH]; intros t n e Hh Ho; cbn [run clock].
  - split; [exact Hh | apply Qle_refl].
  - destruct Ho as [Hf Hrest].
    destruct (frame_healthy theme gd t n f e Hh Hf) as [H1 D1].
    destruct (frame theme gd f e) as [[e1 evs1] [|]]; cbn [engine_of fst] in *.
    + destruct (IH _ _ e1 H1 Hrest) as [H2 D2].
      destruct (run theme gd rest e1) as [[e2 evs2] again2]. cbn [fst] in *.
      split; [exact H2 | eapply Qle_trans; [exact D1 | exact D2]].
    + split; [|exact D1].
      destruct (orderly_clock _ _ _ Hrest). eapply healthy_later; eassumption.
Qed.

Lemma engine_healthy gd now0 : healthy gd 0 now0 (engine gd now0).
Proof.
  unfold healthy. cbn [engine lastTime startTime score combo difficulty
                        spawnTimer objects handX].
  split; [split; lra|]. split; [lra|]. split; [lra|]. split; [lra|].
  split; [split; [lra | (unfold difficultyController; setoid_replace (now0 - now0) with 0 by ring; by_eval)]|].
  split; [split; [lra | destruct gd; by_eval]|].
  split; [constructor | split; by_eval].
Qed.

(** Settles a closed [orderly] condition by evaluation. *)
Ltac orderly_by_eval :=
  vm_compute;
  repeat match goal with
         | |- _ /\ _ => split
         | |- True => exact I
         | |- Forall _ [] => constructor
         | |- _ = _ => reflexivity
         | |- _ -> False => let H := fresh in intro H; discriminate H
         end.

Lemma session_healthy theme gd now0 fs :
  orderly 0 now0 fs ->
  healthy gd (fst (clock 0 now0 fs)) (snd (clock 0 now0 fs))
          (session theme gd now0 fs).
Proof.
  intros H. apply (run_healthy theme gd fs 0 now0 _ (engine_healthy gd now0) H).
Qed.

(** X15.  In a chronological session with random draws in [0, 1), every
    live object is in the column range [50, 750), has a speed of at least 4
    and at most 7, a radius of 20 and a variant index of 0, 1 or 2, and is
    at a height between -50 and 650. *)
Theorem live_objects_are_well_formed (theme : GameTheme) (gd : GameDifficulty)
    (now0 : Q) (fs : list Frame) :
  orderly 0 now0 fs ->
  Forall well_formed (objects (session theme gd now0 fs)).
Proof.
  intros H. apply (session_healthy theme gd now0 fs H).
Qed.

Lemma live_objects_are_well_formed_witness :
  orderly 0 0 (hidden_tab 3) /\
  Forall well_formed (objects (session URBAN_RAIN MEDIUM 0 (hidden_tab 3))) /\
  length (objects (session URBAN_RAIN MEDIUM 0 (hidden_tab 3))) = 2%nat.
Proof.
  assert (H : orderly 0 0 (hidden_tab 3)) by orderly_by_eval.
  split; [exact H|].
  split; [exact (live_objects_are_well_formed URBAN_RAIN MEDIUM 0 _ H)|].
  vm_compute. reflexivity.
Defined.

(** X16.  Objects only fall: on a RUNNING frame of a chronological
    session, the Motion Updater leaves the identity, column, speed, radius,
    category and variant of every live object as they are and does not
    decrease its height. *)
Theorem objects_only_fall (theme : GameTheme) (gd : GameDifficulty)
    (now0 : Q) (fs : list Frame) (f : Frame) (obj : GameObject) :
  orderly 0 now0 (fs ++ [f]) ->
  let e := session theme gd now0 fs in
  In obj (objects e) ->
  let obj' := moved theme f e obj in
  obj_y obj <= obj_y obj' /\
  obj' = mkObject (obj_id obj) (obj_x obj) (obj_y obj') (obj_radius obj)
                  (obj_speed obj) (obj_type obj) (obj_variant obj).
Proof.
  intros H e Hin obj'. apply orderly_app in H. destruct H as [H1 H2].
  pose proof (session_healthy theme gd now0 fs H1) as Hh. fold e in Hh.
  destruct Hh as ((L0 & L1) & _ & _ & _ & (D1 & _) & _ & O & _).
  cbn [orderly] in H2. destruct H2 as ((Ht & _) & _).
  rewrite Forall_forall in O. destruct (O _ Hin) as (_ & (Hs & _) & _).
  split; [|reflexivity].
  unfold obj', moved. cbn [advance obj_y].
  assert (Hstep : 0 <= Qmin (f_time f - lastTime e) 32 / 16.67)
    by (apply step_nonneg; lra).
  pose proof (gravityMult_pos theme) as Hg.
  set (st := Qmin (f_time f - lastTime e) 32 / 16.67) in *. clearbody st.
  assert (0 <= obj_speed obj * st * gravityMult theme * difficulty e).
  { repeat apply Qmult_le_0_compat; lra. }
  lra.
Qed.

Lemma objects_only_fall_witness :
  let e := session URBAN_RAIN MEDIUM 0 (hidden_tab 3) in
  let obj := hd (spawned draws_left) (objects e) in
  orderly 0 0 (hidden_tab 3 ++ [next_steady 3]) /\ In obj (objects e) /\
  obj_y obj <= obj_y (moved URBAN_RAIN (next_steady 3) e obj).
Proof.
  cbv zeta.
  assert (H : orderly 0 0 (hidden_tab 3 ++ [next_steady 3])) by orderly_by_eval.
  assert (Hin : In (hd (spawned draws_left)
                      (objects (session URBAN_RAIN MEDIUM 0 (hidden_tab 3))))
                   (objects (session URBAN_RAIN MEDIUM 0 (hidden_tab 3))))
    by (vm_compute; left; reflexivity).
  split; [exact H|]. split; [exact Hin|].
  exact (proj1 (objects_only_fall URBAN_RAIN MEDIUM 0 _ _ _ H Hin)).
Defined.

(** X17.  In a chronological session the difficulty multiplier is at
    least 1 and never decreases from one state of the session to a later
    one. *)
Theorem difficulty_never_decreases (theme : GameTheme) (gd : GameDifficulty)
    (now0 : Q) (fs more : list Frame) :
  orderly 0 now0 (fs ++ more) ->
  1 <= difficulty (session theme gd now0 fs) /\
  difficulty (session theme gd now0 fs)
  <= difficulty (session theme gd now0 (fs ++ more)).
Proof.
  intros H. apply orderly_app in H. destruct H as [H1 H2].
  pose proof (session_healthy theme gd now0 fs H1) as Hh.
  split; [apply Hh|].
  unfold session at 2.
  destruct (again_of (run theme gd fs (engine gd now0))) eqn:A.
  - rewrite (run_continued _ _ _ _ more A).
    apply (run_healthy theme gd more _ _ _ Hh H2).
  - rewrite (run_stopped _ _ _ _ more A). apply Qle_refl.
Qed.

Lemma difficulty_never_decreases_witness :
  orderly 0 0 ([first_frame; pause_frame] ++ [resume_frame]) /\
  difficulty (session COSMIC MEDIUM 0 [first_frame; pause_frame])
  <= difficulty (session COSMIC MEDIUM 0
                   ([first_frame; pause_frame] ++ [resume_frame])).
Proof.
  assert (H : orderly 0 0 ([first_frame; pause_frame] ++ [resume_frame]))
    by orderly_by_eval.
  split; [exact H|].
  exact (proj2 (difficulty_never_decreases COSMIC MEDIUM 0 _ _ H)).
Defined.

(** X18.  In a chronological session the spawn timer stays between 0 and
    the base spawn interval of the tier (at most 1200 ms): whenever it
    would exceed the current interval it is reset and an object is
    spawned. *)
Theorem spawn_timer_is_bounded (theme : GameTheme) (gd : GameDifficulty)
    (now0 : Q) (fs : list Frame) :
  orderly 0 now0 fs ->
  let e := session theme gd now0 fs in
  0 <= spawnTimer e /\
  spawnTimer e <= spawnRateBase (DIFFICULTY_SETTINGS gd) /\
  spawnRateBase (DIFFICULTY_SETTINGS gd) <= 1200.
Proof.
  intros H e.
  pose proof (session_healthy theme gd now0 fs H) as Hh. fold e in Hh.
  destruct Hh as (_ & _ & _ & _ & _ & (P0 & P1) & _).
  split; [exact P0|]. split; [exact P1|]. destruct gd; by_eval.
Qed.

Lemma spawn_timer_is_bounded_witness :
  orderly 0 0 (hidden_tab 3) /\
  spawnTimer (session URBAN_RAIN MEDIUM 0 (hidden_tab 3)) <= 1000.
Proof.
  assert (H : orderly 0 0 (hidden_tab 3)) by orderly_by_eval.
  split; [exact H|].
  exact (proj1 (proj2 (spawn_timer_is_bounded URBAN_RAIN MEDIUM 0 _ H))).
Defined.

(** X19.  In a chronological session whose vision reports are normalized
    and whose mouse events come with a container of positive width, the
    paddle position stays in [0, 1], so the paddle's left end stays between
    -70 and 730 and its rectangle always overlaps the 800-wide canvas. *)
Theorem paddle_stays_on_the_canvas (theme : GameTheme) (gd : GameDifficulty)
    (now0 : Q) (fs : list Frame) :
  orderly 0 now0 fs ->
  let e := session theme gd now0 fs in
  unit_interval (handX e) /\
  - (70) <= paddle_px e /\ paddle_px e <= 730 /\
  0 < paddle_px e + pw /\ paddle_px e < 800.
Proof.
  intros H e.
  pose proof (session_healthy theme gd now0 fs H) as Hh. fold e in Hh.
  destruct Hh as (_ & _ & _ & _ & _ & _ & _ & (X0 & X1)).
  unfold paddle_px, pw. setoid_replace (140 / 2) with 70 by reflexivity.
  split; [split; assumption|]. repeat split; lra.
Qed.

Lemma paddle_stays_on_the_canvas_witness :
  let f := mkFrame false [MouseMove 900 100 400; HandUpdate 0.25 true;
                          MouseMove (- (5)) 100 400] 16 16 draws_left in
  orderly 0 0 [f] /\
  handX (session COSMIC MEDIUM 0 [f]) == 0 /\
  paddle_px (session COSMIC MEDIUM 0 [f]) == - (70).
Proof.
  cbv zeta.
  assert (H : orderly 0 0
                [mkFrame false [MouseMove 900 100 400; HandUpdate 0.25 true;
                                MouseMove (- (5)) 100 400] 16 16 draws_left]).
  { split; [|exact I]. split; [by_eval|]. split; [by_eval|]. split; [by_eval|].
    repeat constructor; by_eval. }
  pose proof (paddle_stays_on_the_canvas COSMIC MEDIUM 0 _ H) as P.
  cbv zeta in P. destruct P as (_ & P & _).
  split; [exact H|]. split; [by_eval|].
  apply Qle_antisym; [by_eval | exact P].
Defined.

End GameWorldMore.

(** * The end of a game *)

Module EndingFacts.
Import GameWorld Pipeline Scenarios Health Endings.
Import GameWorldFacts GameWorldMore.

Lemma collects_only pre :
  Forall (fun ev => is_collect ev = true) pre ->
  filter is_hazard pre = [] /\ filter is_game_over pre = [] /\
  filter is_collect pre = pre.
Proof.
  induction 1 as [|ev rest Hev _ (IH1 & IH2 & IH3)]; [repeat split|].
  destruct ev; try discriminate Hev.
  cbn [filter is_hazard is_game_over is_collect]. rewrite IH3. auto.
Qed.

Lemma points_hazards theme n c post :
  points c (repeat (PlayHazard theme) (S n) ++ post) = points 0 post.
Proof.
  revert c. induction n as [|n IH]; intros c; [reflexivity|].
  change (repeat (PlayHazard theme) (S (S n)))
    with (PlayHazard theme :: repeat (PlayHazard theme) (S n)).
  cbn [app points]. apply IH.
Qed.

Lemma points_without_collects evs : forall c,
  filter is_collect evs = [] -> points c evs = 0%nat.
Proof.
  induction evs as [|ev rest IH]; intros c H; [reflexivity|].
  destruct ev; cbn [filter is_collect] in H; [discriminate H | |];
    cbn [points]; apply IH, H.
Qed.

Lemma filter_repeat_hazard theme n :
  filter is_hazard (repeat (PlayHazard theme) n) = repeat (PlayHazard theme) n /\
  filter is_game_over (repeat (PlayHazard theme) n) = [] /\
  filter is_collect (repeat (PlayHazard theme) n) = [].
Proof.
  induction n as [|n (IH1 & IH2 & IH3)]; [repeat split|].
  cbn [repeat filter is_hazard is_game_over is_collect]. rewrite IH1. auto.
Qed.

Lemma hits_no_game_over evs : filter is_game_over (hits evs) = [].
Proof.
  unfold hits. induction evs as [|ev rest IH]; [reflexivity|].
  destruct ev; cbn [filter is_hit_event is_game_over]; exact IH.
Qed.

(** C9, the claim as stated fails.  In the throttled session
    [crowded_finish], played from the EASY start with the paddle at rest in
    the centre, three hazards have been hit after 47 frames, the score is 0
    and 2 lives are left; the objects at the head of the array are the
    fourth hazard at height 486.6, the fifth at 476.2 and, behind it in the
    array, the GOOD object at 478.6, all in the column of the paddle.  The
    48th frame, 1201 ms later, moves them by 14.68, 14.68 and 15.04 into the
    band 490..514 and resolves them in array order in one collision pass:
    the fourth hazard, the fifth hazard, then the GOOD object.  The lives
    are tested after the pass, so the game ends with [onGameOver(5)],
    although the score was 0 when the fifth hazard hit. *)
Lemma a_catch_behind_the_fifth_hazard_is_scored :
  let r47 := run URBAN_RAIN EASY (firstn 47 crowded_finish) (engine EASY 0) in
  let r := run URBAN_RAIN EASY crowded_finish (engine EASY 0) in
  length crowded_finish = 48%nat /\
  (events_of r47 = repeat (PlayHazard URBAN_RAIN) 3 /\
   score (engine_of r47) == 0 /\ lives (engine_of r47) == 2 /\
   again_of r47 = true) /\
  (lastTime (engine_of r47) == 56447 /\
   nth 47 crowded_finish (paused 0) = running 57648 draws_left /\
   1.47 < difficulty (engine_of r47) /\ difficulty (engine_of r47) < 1.471) /\
  match objects (engine_of r47) with
  | h4 :: h5 :: g :: _ =>
      (obj_type h4 = BAD /\ obj_x h4 == 400 /\ obj_speed h4 == 4 /\
       486.6 < obj_y h4 /\ obj_y h4 < 486.7) /\
      (obj_type h5 = BAD /\ obj_x h5 == 400 /\ obj_speed h5 == 4 /\
       476.2 < obj_y h5 /\ obj_y h5 < 476.3) /\
      (obj_type g = GOOD /\ obj_x g == 400 /\ obj_speed g == 4.1 /\
       478.6 < obj_y g /\ obj_y g < 478.7)
  | _ => False
  end /\
  events_of r
  = repeat (PlayHazard URBAN_RAIN) 5 ++ [PlayCollect URBAN_RAIN; GameOver 5] /\
  again_of r = false /\
  ~ final_score_is_fixed_at_the_fifth_hit URBAN_RAIN.
Proof.
  cbv zeta. split; [reflexivity|]. split; [by_eval|]. split; [by_eval|].
  split; [by_eval|].
  assert (E : events_of (run URBAN_RAIN EASY crowded_finish (engine EASY 0))
              = repeat (PlayHazard URBAN_RAIN) 5
                ++ [PlayCollect URBAN_RAIN; GameOver 5])
    by (vm_compute; reflexivity).
  split; [exact E|]. split; [by_eval|].
  intros H.
  specialize (H 0 crowded_finish [] [PlayCollect URBAN_RAIN] 5 (Forall_nil _)).
  rewrite E in H.
  assert (F : 5 == inject_Z (Z.of_nat (points 0 []))).
  { apply H; [reflexivity|].
    cbn [repeat app In]. do 6 right. left. reflexivity. }
  vm_compute in F. discriminate F.
Qed.

(** C9, amended.  From any engine with 5 lives (the EASY start) and a
    hazard penalty of 1 (every tier), take a session whose hits are first
    GOOD hits [pre] (possibly none), then five hazard hits, then whatever
    the collision pass of the fifth hazard still resolves, [post] (possibly
    nothing).  The lives end at 0 or below, at 0 when [post] holds no further
    hazard.  What the session sent out is the sounds of these hits followed
    by exactly one [onGameOver], whose argument is the floor of the final
    score: the score reached when the fifth hazard hit plus what the GOOD
    hits of [post] earn from a combo of 0, hence the score at the fifth
    hazard when [post] holds no GOOD hit, and the starting score when there
    is no GOOD hit at all.  The last frame did not request another one, so
    whatever frames might follow never run. *)
Theorem five_hazards_end_the_game (theme : GameTheme) (gd : GameDifficulty)
    (fs : list Frame) (e : Engine) (pre post : list Event) :
  lives e == 5 ->
  Forall (fun ev => is_collect ev = true) pre ->
  hits (events_of (run theme gd fs e))
  = pre ++ repeat (PlayHazard theme) 5 ++ post ->
  let r := run theme gd fs e in
  lives (engine_of r) <= 0 /\
  (filter is_hazard post = [] -> lives (engine_of r) == 0) /\
  events_of r
  = pre ++ repeat (PlayHazard theme) 5 ++ post
    ++ [GameOver (floorQ (score (engine_of r)))] /\
  length (filter is_game_over (events_of r)) = 1%nat /\
  (forall c : nat, combo e == inject_Z (Z.of_nat c) ->
     let at_fifth := score e + inject_Z (Z.of_nat (points c pre)) in
     score (engine_of r) == at_fifth + inject_Z (Z.of_nat (points 0 post)) /\
     (filter is_collect post = [] -> score (engine_of r) == at_fifth)) /\
  (filter is_collect (pre ++ post) = [] -> score (engine_of r) = score e) /\
  again_of r = false /\
  (forall more, run theme gd (fs ++ more) e = r).
Proof.
  intros Hl Hpre Hh r.
  assert (Hstop : forall more, again_of r = false ->
                    run theme gd (fs ++ more) e = r).
  { intros more Ha. apply run_stopped, Ha. }
  subst r. destruct (run theme gd fs e) as [[e' evs] again] eqn:R.
  cbn [engine_of events_of again_of fst snd] in *.
  pose proof (run_facts _ _ _ _ _ _ _ R) as (L & _ & S & T & U).
  destruct (collects_only pre Hpre) as (Hp1 & Hp2 & Hp3).
  destruct (filter_repeat_hazard theme 5) as (Hr1 & Hr2 & Hr3).
  assert (Hg : filter is_game_over post = []).
  { pose proof (hits_no_game_over evs) as G.
    rewrite Hh, !filter_app in G.
    apply app_eq_nil in G. destruct G as [_ G].
    apply app_eq_nil in G. destruct G as [_ G]. exact G. }
  assert (Hz : hazards evs
               == 5 + inject_Z (Z.of_nat (length (filter is_hazard post)))).
  { unfold hazards. rewrite <- hazards_of_hits, Hh, !filter_app, Hp1, Hr1.
    cbn [app]. rewrite length_app, repeat_length, Nat2Z.inj_add, inject_Z_plus.
    reflexivity. }
  rewrite hazardPenalty_one, Hz, Hl in L.
  assert (Hn : 0 <= inject_Z (Z.of_nat (length (filter is_hazard post)))).
  { change 0 with (inject_Z 0). rewrite <- Zle_Qle. lia. }
  assert (L0 : lives e' <= 0) by (rewrite L; lra).
  assert (Ha : again = false).
  { destruct again; [|reflexivity].
    destruct (T eq_refl) as [_ P]. assert (0 < lives e') by (apply P; lra). lra. }
  subst again. destruct (U eq_refl) as (_ & hs & Hs & E).
  assert (Ehs : hs = pre ++ repeat (PlayHazard theme) 5 ++ post).
  { rewrite <- Hh, E. unfold hits. rewrite filter_app. cbn [filter is_hit_event].
    rewrite app_nil_r. symmetry. apply hit_events_no_game_over, Hs. }
  split; [exact L0|].
  split; [intros Hq; rewrite L, Hq; reflexivity|].
  split; [rewrite E, Ehs, <- !app_assoc; reflexivity|].
  split; [rewrite E, Ehs, !filter_app, Hp2, Hr2, Hg; reflexivity|].
  split.
  { intros c Hc. cbv zeta.
    pose proof (run_points _ _ _ _ _ _ _ _ R Hc) as P.
    rewrite <- points_hits, Hh, points_app in P.
    rewrite (points_hazards theme 4) in P.
    rewrite Nat2Z.inj_add, inject_Z_plus, Qplus_assoc in P.
    split; [exact P|].
    intros Hq. rewrite P, (points_without_collects post 0 Hq).
    change (inject_Z (Z.of_nat 0)) with 0. ring. }
  split.
  { intros Hq. apply S. rewrite <- collects_of_hits, Hh, !filter_app, Hr3.
    rewrite filter_app in Hq. exact Hq. }
  split; [reflexivity|].
  intros more. apply Hstop. reflexivity.
Qed.

(** The session [crowded_finish]: no GOOD hit before the five hazards, one
    GOOD hit behind them in the last pass. *)
Lemma five_hazards_end_the_game_witness :
  let r := run URBAN_RAIN EASY crowded_finish (engine EASY 0) in
  lives (engine EASY 0) == 5 /\
  hits (events_of r)
    = repeat (PlayHazard URBAN_RAIN) 5 ++ [PlayCollect URBAN_RAIN] /\
  lives (engine_of r) == 0 /\
  score (engine_of r) == 5 /\
  again_of r = false.
Proof.
  cbv zeta.
  assert (H1 : lives (engine EASY 0) == 5) by by_eval.
  assert (H2 : hits (events_of (run URBAN_RAIN EASY crowded_finish (engine EASY 0)))
               = [] ++ repeat (PlayHazard URBAN_RAIN) 5 ++ [PlayCollect URBAN_RAIN])
    by (vm_compute; reflexivity).
  pose proof (five_hazards_end_the_game URBAN_RAIN EASY crowded_finish
                (engine EASY 0) [] [PlayCollect URBAN_RAIN]
                H1 (Forall_nil _) H2) as (_ & Lv & _ & _ & Sc & _ & A & _).
  split; [exact H1|]. split; [exact H2|].
  split; [apply Lv; reflexivity|].
  split; [|exact A].
  destruct (Sc 0%nat) as [P _]; [reflexivity|].
  rewrite P. reflexivity.
Defined.

End EndingFacts.

(** ** The leaderboard and the game-over screen *)

Module AppFacts.
Import App GameOverScreen LeaderboardView Sorted Permutation.
Import Ranges GameWorldFacts GameWorldMore.
Import String.StringSyntax.
#[local] Open Scope string_scope.
#[local] Open Scope list_scope.
#[local] Open Scope Q_scope.

Lemma insert_perm x l : Permutation (insert x l) (x :: l).
Proof.
  induction l as [|y rest IH]; cbn [insert]; [reflexivity|].
  destruct (GameWorld.ltb (entry_score x) (entry_score y)); [|reflexivity].
  rewrite IH. apply perm_swap.
Qed.

Lemma sort_perm l : Permutation (sortByScore l) l.
Proof.
  induction l as [|x rest IH]; cbn [sortByScore fold_right]; [reflexivity|].
  fold (sortByScore rest). rewrite insert_perm, IH. reflexivity.
Qed.

Lemma insert_descending x l : descending l -> descending (insert x l).
Proof.
  unfold descending. induction 1 as [|y rest Hs IH Hy]; cbn [insert].
  - repeat constructor.
  - destruct (GameWorld.ltb (entry_score x) (entry_score y)) eqn:E.
    + apply ltb_lt in E. constructor; [exact IH|].
      apply (Permutation_Forall (Permutation_sym (insert_perm x rest))).
      constructor; [lra | exact Hy].
    + apply ltb_ge in E. constructor; [constructor; assumption|].
      constructor; [exact E|].
      eapply Forall_impl; [|exact Hy]. cbv beta. intros z Hz. lra.
Qed.

Lemma sort_descending l : descending (sortByScore l).
Proof.
  induction l as [|x rest IH]; cbn [sortByScore fold_right].
  - constructor.
  - apply insert_descending, IH.
Qed.

Lemma insert_stable s x l : with_score s (insert x l) = with_score s (x :: l).
Proof.
  unfold with_score. induction l as [|y rest IH]; cbn [insert]; [reflexivity|].
  destruct (GameWorld.ltb (entry_score x) (entry_score y)) eqn:E; [|reflexivity].
  apply ltb_lt in E. cbn [filter] in *. rewrite IH.
  destruct (Qeq_bool (entry_score x) s) eqn:Ex;
    destruct (Qeq_bool (entry_score y) s) eqn:Ey; try reflexivity.
  apply Qeq_bool_iff in Ex. apply Qeq_bool_iff in Ey. exfalso. lra.
Qed.

Lemma sort_stable s l : with_score s (sortByScore l) = with_score s l.
Proof.
  induction l as [|x rest IH]; cbn [sortByScore fold_right]; [reflexivity|].
  fold (sortByScore rest). rewrite insert_stable. unfold with_score in *.
  cbn [filter]. rewrite IH. reflexivity.
Qed.

Lemma insert_on_top x l :
  Forall (fun y => entry_score y <= entry_score x) l -> insert x l = x :: l.
Proof.
  destruct l as [|y rest]; [reflexivity|]. intros H. inversion H as [|? ? Hy _]; subst.
  cbn [insert]. destruct (GameWorld.ltb (entry_score x) (entry_score y)) eqn:E;
    [|reflexivity].
  apply ltb_lt in E. exfalso. lra.
Qed.

Lemma sort_sorted l : descending l -> sortByScore l = l.
Proof.
  unfold descending. induction 1 as [|x rest Hs IH Hx]; [reflexivity|].
  cbn [sortByScore fold_right]. fold (sortByScore rest). rewrite IH.
  apply insert_on_top, Hx.
Qed.

(** X20.  The sort of the leaderboard arranges any list of entries by
    decreasing score without adding or losing an entry, keeps entries of
    equal score in the order they had (so an older entry stays ahead of a
    newer one with the same score), and leaves a board that is already in
    order exactly as it is. *)
Theorem board_sort_is_stable (l : list LeaderboardEntry) (s : Q) :
  descending (sortByScore l) /\
  Permutation (sortByScore l) l /\
  with_score s (sortByScore l) = with_score s l /\
  (descending l -> sortByScore l = l) /\
  sortByScore (sortByScore l) = sortByScore l.
Proof.
  split; [apply sort_descending|]. split; [apply sort_perm|].
  split; [apply sort_stable|]. split; [apply sort_sorted|].
  apply sort_sorted, sort_descending.
Qed.

Lemma board_sort_is_stable_witness :
  let a := mkEntry "a" "P" "aero" 40 GameWorld.COSMIC GameWorld.EASY 1 in
  let b := mkEntry "b" "P" "aero" 70 GameWorld.COSMIC GameWorld.EASY 2 in
  let c := mkEntry "c" "P" "aero" 40 GameWorld.COSMIC GameWorld.EASY 3 in
  descending [b; a; c] /\
  sortByScore [a; b; c] = [b; a; c] /\ sortByScore [b; a; c] = [b; a; c].
Proof.
  cbv zeta.
  set (a := mkEntry "a" "P" "aero" 40 GameWorld.COSMIC GameWorld.EASY 1).
  set (b := mkEntry "b" "P" "aero" 70 GameWorld.COSMIC GameWorld.EASY 2).
  set (c := mkEntry "c" "P" "aero" 40 GameWorld.COSMIC GameWorld.EASY 3).
  assert (H : descending [b; a; c]) by (repeat constructor; by_eval).
  split; [exact H|]. split; [vm_compute; reflexivity|].
  exact (proj1 (proj2 (proj2 (proj2 (board_sort_is_stable [b; a; c] 0)))) H).
Defined.

Lemma insert_app x A B :
  Forall (fun y => entry_score y <= entry_score x) B ->
  insert x (A ++ B) = insert x A ++ B.
Proof.
  intros HB. induction A as [|y A IH]; cbn [app insert].
  - apply insert_on_top, HB.
  - destruct (GameWorld.ltb (entry_score x) (entry_score y));
      [rewrite IH|]; reflexivity.
Qed.

Lemma insert_past x A l :
  Forall (fun y => entry_score x < entry_score y) A ->
  insert x (A ++ l) = A ++ insert x l.
Proof.
  induction 1 as [|y A Hy _ IH]; cbn [app insert]; [reflexivity|].
  apply ltb_lt in Hy. rewrite Hy, IH. reflexivity.
Qed.

Lemma sort_forall (P : LeaderboardEntry -> Prop) l :
  Forall P l -> Forall P (sortByScore l).
Proof. apply Permutation_Forall, Permutation_sym, sort_perm. Qed.

Lemma at_least_forall s l :
  Forall (fun y => s <= entry_score y) (at_least s l).
Proof.
  apply Forall_forall. intros y Hy. apply filter_In in Hy.
  apply Qle_bool_iff, Hy.
Qed.

Lemma below_forall s l :
  Forall (fun y => entry_score y < s) (below s l).
Proof.
  apply Forall_forall. intros y Hy. apply filter_In in Hy.
  apply ltb_lt, Hy.
Qed.

Lemma at_least_or_below s x :
  (Qle_bool s (entry_score x) = true
   /\ GameWorld.ltb (entry_score x) s = false /\ s <= entry_score x) \/
  (Qle_bool s (entry_score x) = false
   /\ GameWorld.ltb (entry_score x) s = true /\ entry_score x < s).
Proof.
  unfold GameWorld.ltb. destruct (Qle_bool s (entry_score x)) eqn:E; [left|right].
  - repeat split. apply Qle_bool_iff, E.
  - repeat split. apply Qnot_le_lt. intros H. apply Qle_bool_iff in H. congruence.
Qed.

(** A new entry goes behind every entry that scores at least as much and
    ahead of every entry that scores less. *)
Lemma sort_with_new prev n :
  sortByScore (prev ++ [n])
  = sortByScore (at_least (entry_score n) prev)
    ++ n :: sortByScore (below (entry_score n) prev).
Proof.
  induction prev as [|x prev IH]; [reflexivity|].
  cbn [app sortByScore fold_right]. fold (sortByScore (prev ++ [n])).
  rewrite IH. unfold at_least, below. cbn [filter].
  fold (at_least (entry_score n) prev). fold (below (entry_score n) prev).
  destruct (at_least_or_below (entry_score n) x) as [(E1 & E2 & H)|(E1 & E2 & H)];
    rewrite E1, E2.
  - cbn [sortByScore fold_right]. fold (sortByScore (at_least (entry_score n) prev)).
    apply insert_app. constructor; [exact H|].
    eapply Forall_impl; [|apply sort_forall, below_forall].
    cbv beta. intros y Hy. lra.
  - cbn [sortByScore fold_right]. fold (sortByScore (below (entry_score n) prev)).
    change (sortByScore (at_least (entry_score n) prev)
            ++ n :: sortByScore (below (entry_score n) prev))
      with (sortByScore (at_least (entry_score n) prev)
            ++ [n] ++ sortByScore (below (entry_score n) prev)).
    rewrite app_assoc, insert_past.
    + rewrite <- app_assoc. reflexivity.
    + apply Forall_app. split; [|constructor; [exact H | constructor]].
      eapply Forall_impl; [|apply sort_forall, at_least_forall].
      cbv beta. intros y Hy. lra.
Qed.

Lemma sort_split s prev :
  sortByScore prev
  = sortByScore (at_least s prev) ++ sortByScore (below s prev).
Proof.
  induction prev as [|x prev IH]; [reflexivity|].
  cbn [sortByScore fold_right]. fold (sortByScore prev).
  rewrite IH. unfold at_least, below. cbn [filter].
  fold (at_least s prev). fold (below s prev).
  destruct (at_least_or_below s x) as [(E1 & E2 & H)|(E1 & E2 & H)];
    rewrite E1, E2; cbn [sortByScore fold_right].
  - fold (sortByScore (at_least s prev)). apply insert_app.
    eapply Forall_impl; [|apply sort_forall, below_forall].
    cbv beta. intros y Hy. lra.
  - fold (sortByScore (below s prev)). apply insert_past.
    eapply Forall_impl; [|apply sort_forall, at_least_forall].
    cbv beta. intros y Hy. lra.
Qed.

Lemma firstn_subset {A} n (l : list A) x : In x (firstn n l) -> In x l.
Proof.
  intros H. rewrite <- (firstn_skipn n l). apply in_or_app. left. exact H.
Qed.

Lemma firstn_descending n l : descending l -> descending (firstn n l).
Proof.
  unfold descending. intros H. revert n.
  induction H as [|x rest Hs IH Hx]; intros n; destruct n; cbn [firstn];
    try constructor.
  - apply IH.
  - apply Forall_forall. intros y Hy. rewrite Forall_forall in Hx.
    apply Hx, (firstn_subset _ _ _ Hy).
Qed.

(** X21.  [handleGameOver] switches to the game-over scene, remembers the
    reported score, and leaves a board that is in decreasing order of
    score, holds one entry more than before but never more than ten, and
    contains nothing but entries of the old board and the new entry, whose
    score is the floor of the reported score; an empty pilot name is
    recorded as ANONYMOUS. *)
Theorem game_over_updates_the_board (score : Q) (id : String.string) (now : Q)
    (st : AppState) :
  let st' := handleGameOver score id now st in
  let n := newEntry score id now st in
  currentScene st' = GAME_OVER /\ lastScore st' = score /\
  leaderboard st' = firstn 10 (sortByScore (leaderboard st ++ [n])) /\
  descending (leaderboard st') /\
  length (leaderboard st') = Nat.min 10 (S (length (leaderboard st))) /\
  (forall en, In en (leaderboard st') -> In en (leaderboard st) \/ en = n) /\
  entry_score n = floorQ score /\
  (pilotName st = "" -> entry_pilotName n = "ANONYMOUS") /\
  (pilotName st <> "" -> entry_pilotName n = pilotName st).
Proof.
  cbv zeta. unfold handleGameOver. cbv zeta.
  cbn [currentScene lastScore leaderboard]. fold (newEntry score id now st).
  set (n := newEntry score id now st).
  split; [reflexivity|]. split; [reflexivity|]. split; [reflexivity|].
  split; [apply firstn_descending, sort_descending|]. split; [|split; [|split; [|split]]].
  - rewrite length_firstn, (Permutation_length (sort_perm _)), length_app.
    cbn [length]. f_equal. lia.
  - intros en H. apply firstn_subset in H.
    apply (Permutation_in _ (sort_perm _)) in H.
    apply in_app_or in H. destruct H as [H|[H|[]]]; auto.
  - reflexivity.
  - intros E. unfold n, newEntry, nameOrAnonymous. cbn [entry_pilotName].
    rewrite E. reflexivity.
  - intros E. unfold n, newEntry, nameOrAnonymous. cbn [entry_pilotName].
    destruct (String.eqb (pilotName st) "") eqn:Q; [|reflexivity].
    apply String.eqb_eq in Q. contradiction.
Qed.

Lemma game_over_updates_the_board_witness :
  let st := initialApp [] in
  pilotName st <> "" /\
  entry_pilotName (newEntry 42 "k3" 7 st) = "PILOT_01" /\
  leaderboard (handleGameOver 42 "k3" 7 st)
  = [mkEntry "k3" "PILOT_01" "aero" 42 GameWorld.COSMIC GameWorld.MEDIUM 7].
Proof.
  cbv zeta.
  assert (H : pilotName (initialApp []) <> "") by discriminate.
  pose proof (game_over_updates_the_board 42 "k3" 7 (initialApp [])) as P.
  cbv zeta in P. destruct P as (_ & _ & _ & _ & _ & _ & _ & _ & P).
  split; [exact H|]. split; [exact (P H) | vm_compute; reflexivity].
Defined.

(** X22.  The new run is ranked behind every previous entry that scores at
    least as much (a tie goes to the older entry) and ahead of every entry
    that scores less.  So it enters the board, at the position given by the
    number of previous entries scoring at least as much, when fewer than
    ten of them do; otherwise it is dropped and the board is just the old
    entries in order. *)
Theorem new_run_ranks_behind_its_ties (score : Q) (id : String.string) (now : Q)
    (st : AppState) :
  let st' := handleGameOver score id now st in
  let n := newEntry score id now st in
  let ahead := at_least (floorQ score) (leaderboard st) in
  let behind := below (floorQ score) (leaderboard st) in
  leaderboard st'
  = firstn 10 (sortByScore ahead ++ n :: sortByScore behind) /\
  ((length ahead < 10)%nat ->
   nth_error (leaderboard st') (length ahead) = Some n) /\
  ((10 <= length ahead)%nat ->
   leaderboard st' = firstn 10 (sortByScore (leaderboard st))).
Proof.
  cbv zeta. unfold handleGameOver. cbv zeta. cbn [leaderboard].
  fold (newEntry score id now st). set (n := newEntry score id now st).
  change (floorQ score) with (entry_score n).
  set (A := sortByScore (at_least (entry_score n) (leaderboard st))).
  set (B := sortByScore (below (entry_score n) (leaderboard st))).
  assert (LA : length A = length (at_least (entry_score n) (leaderboard st))).
  { apply Permutation_length, sort_perm. }
  rewrite sort_with_new. fold A B. split; [reflexivity|]. rewrite <- LA. split.
  - intros H.
    assert (E : firstn 10 (A ++ n :: B)
                = A ++ n :: firstn (10 - S (length A)) B).
    { rewrite firstn_app. rewrite (firstn_all2 A) by lia.
      destruct (10 - length A)%nat as [|k] eqn:K; [lia|].
      cbn [firstn]. do 3 f_equal. lia. }
    rewrite E, nth_error_app2 by lia. rewrite Nat.sub_diag. reflexivity.
  - intros H. rewrite (sort_split (entry_score n) (leaderboard st)). fold A B.
    rewrite !firstn_app.
    replace (10 - length A)%nat with O by lia. cbn [firstn]. reflexivity.
Qed.

Lemma new_run_ranks_behind_its_ties_witness :
  let old := mkEntry "o" "P" "aero" 40 GameWorld.COSMIC GameWorld.EASY 1 in
  let st := initialApp [old] in
  (length (at_least (floorQ 40) (leaderboard st)) < 10)%nat /\
  nth_error (leaderboard (handleGameOver 40 "n" 2 st)) 1
  = Some (newEntry 40 "n" 2 st) /\
  leaderboard (handleGameOver 40 "n" 2 st)
  = [old; mkEntry "n" "PILOT_01" "aero" 40 GameWorld.COSMIC GameWorld.MEDIUM 2].
Proof.
  cbv zeta.
  set (st := initialApp [mkEntry "o" "P" "aero" 40 GameWorld.COSMIC GameWorld.EASY 1]).
  assert (H : (length (at_least (floorQ 40) (leaderboard st)) < 10)%nat)
    by (vm_compute; lia).
  split; [exact H|].
  split; [exact (proj1 (proj2 (new_run_ranks_behind_its_ties 40 "n" 2 st)) H)|].
  vm_compute. reflexivity.
Defined.

Lemma fold_max_compat xs : forall a b, a == b ->
  fold_left Qmax xs a == fold_left Qmax xs b.
Proof.
  induction xs as [|x xs IH]; intros a b H; cbn [fold_left]; [exact H|].
  apply IH. rewrite H. reflexivity.
Qed.

Lemma fold_max_out xs : forall a b,
  fold_left Qmax xs (Qmax a b) == Qmax a (fold_left Qmax xs b).
Proof.
  induction xs as [|x xs IH]; intros a b; cbn [fold_left]; [reflexivity|].
  rewrite <- IH. apply fold_max_compat. rewrite Q.max_assoc. reflexivity.
Qed.

Lemma maximum_cons a b xs : maximum a (b :: xs) == Qmax a (maximum b xs).
Proof. unfold maximum. cbn [fold_left]. apply fold_max_out. Qed.

Lemma highScore_cons x l :
  l <> [] -> highScore (x :: l) == Qmax (entry_score x) (highScore l).
Proof.
  destruct l as [|y l]; [congruence|]. intros _.
  unfold highScore. cbn [map]. apply maximum_cons.
Qed.

Lemma insert_nonempty x l : insert x l <> [].
Proof.
  destruct l as [|y l]; cbn [insert]; [discriminate|].
  destruct (GameWorld.ltb _ _); discriminate.
Qed.

Lemma sort_nonempty l : l <> [] -> sortByScore l <> [].
Proof.
  destruct l as [|x l]; [congruence|]. intros _.
  cbn [sortByScore fold_right]. apply insert_nonempty.
Qed.

Lemma highScore_descending x l :
  descending (x :: l) -> highScore (x :: l) == entry_score x.
Proof.
  unfold descending. revert x. induction l as [|y l IH]; intros x H.
  - reflexivity.
  - inversion H as [|? ? Hs Hx]; subst. inversion Hx as [|? ? Hy Hl]; subst.
    rewrite highScore_cons by discriminate. rewrite (IH y Hs).
    apply Q.max_l, Hy.
Qed.

Lemma highScore_insert x l :
  descending l -> l <> [] ->
  highScore (insert x l) == Qmax (entry_score x) (highScore l).
Proof.
  intros Hd Hn. destruct l as [|y l]; [congruence|].
  pose proof (insert_descending x _ Hd) as Hi.
  rewrite (highScore_descending y l Hd).
  cbn [insert] in *. destruct (GameWorld.ltb (entry_score x) (entry_score y)) eqn:E.
  - apply ltb_lt in E. rewrite (highScore_descending _ _ Hi).
    symmetry. apply Q.max_r. lra.
  - apply ltb_ge in E. rewrite (highScore_descending _ _ Hi).
    symmetry. apply Q.max_l. lra.
Qed.

Lemma highScore_sort l : highScore (sortByScore l) == highScore l.
Proof.
  induction l as [|x l IH]; [reflexivity|].
  cbn [sortByScore fold_right]. fold (sortByScore l).
  destruct l as [|y l]; [reflexivity|].
  rewrite highScore_insert;
    [|apply sort_descending | apply sort_nonempty; discriminate].
  rewrite IH. symmetry. apply highScore_cons. discriminate.
Qed.

Lemma highScore_firstn n l :
  descending l -> highScore (firstn (S n) l) == highScore l.
Proof.
  intros H. destruct l as [|x l]; [reflexivity|].
  pose proof (firstn_descending (S n) _ H) as H'. cbn [firstn] in *.
  rewrite (highScore_descending _ _ H'), (highScore_descending _ _ H).
  reflexivity.
Qed.

Lemma highScore_with_new prev n :
  highScore (prev ++ [n])
  == match prev with
     | [] => entry_score n
     | _ => Qmax (highScore prev) (entry_score n)
     end.
Proof.
  induction prev as [|x prev IH]; [reflexivity|].
  cbn [app]. rewrite highScore_cons by (destruct prev; discriminate).
  rewrite IH. destruct prev as [|y prev].
  - reflexivity.
  - rewrite (highScore_cons x (y :: prev)) by discriminate.
    rewrite Q.max_assoc. reflexivity.
Qed.

Lemma highScore_bounds l :
  Forall (fun en => entry_score en <= highScore l) l.
Proof.
  induction l as [|x l IH]; [constructor|].
  destruct l as [|y l]; [constructor; [apply Qle_refl | constructor]|].
  assert (E := highScore_cons x (y :: l) ltac:(discriminate)).
  constructor.
  - rewrite E. apply Q.le_max_l.
  - eapply Forall_impl; [|exact IH]. cbv beta. intros en Hen.
    rewrite E. eapply Qle_trans; [exact Hen | apply Q.le_max_r].
Qed.

Lemma highScore_after_game (score : Q) (id : String.string) (now : Q)
    (st : AppState) :
  highScore (leaderboard (handleGameOver score id now st))
  == match leaderboard st with
     | [] => floorQ score
     | _ => Qmax (highScore (leaderboard st)) (floorQ score)
     end /\
  floorQ score <= highScore (leaderboard (handleGameOver score id now st)).
Proof.
  unfold handleGameOver. cbv zeta. cbn [leaderboard].
  fold (newEntry score id now st). set (n := newEntry score id now st).
  assert (E : highScore (firstn 10 (sortByScore (leaderboard st ++ [n])))
              == match leaderboard st with
                 | [] => floorQ score
                 | _ => Qmax (highScore (leaderboard st)) (floorQ score)
                 end).
  { rewrite highScore_firstn by apply sort_descending.
    rewrite highScore_sort. apply highScore_with_new. }
  split; [exact E|].
  rewrite E. destruct (leaderboard st); [apply Qle_refl | apply Q.le_max_r].
Qed.

(** X23.  The high score after a game is the larger of the previous high
    score and the floor of the reported score (the floor alone on an empty
    board): cutting the board to ten entries never loses the best one.  So
    on a board that is not empty the high score never decreases, and no
    entry of the board ever exceeds it. *)
Theorem high_score_keeps_the_best (score : Q) (id : String.string) (now : Q)
    (st : AppState) :
  let st' := handleGameOver score id now st in
  highScore (leaderboard st')
  == match leaderboard st with
     | [] => floorQ score
     | _ => Qmax (highScore (leaderboard st)) (floorQ score)
     end /\
  floorQ score <= highScore (leaderboard st') /\
  (leaderboard st <> [] ->
   highScore (leaderboard st) <= highScore (leaderboard st')) /\
  Forall (fun en => entry_score en <= highScore (leaderboard st'))
         (leaderboard st').
Proof.
  cbv zeta.
  destruct (highScore_after_game score id now st) as [E F].
  split; [exact E|]. split; [exact F|]. split.
  - intros Hn. rewrite E.
    destruct (leaderboard st); [congruence | apply Q.le_max_l].
  - apply highScore_bounds.
Qed.

Lemma high_score_keeps_the_best_witness :
  let old := mkEntry "o" "P" "aero" 40 GameWorld.COSMIC GameWorld.EASY 1 in
  let st := initialApp [old] in
  leaderboard st <> [] /\
  highScore (leaderboard st) <= highScore (leaderboard (handleGameOver 25 "n" 2 st)) /\
  highScore (leaderboard (handleGameOver 25 "n" 2 st)) == 40.
Proof.
  cbv zeta.
  set (st := initialApp [mkEntry "o" "P" "aero" 40 GameWorld.COSMIC GameWorld.EASY 1]).
  assert (H : leaderboard st <> []) by discriminate.
  split; [exact H|].
  split; [exact (proj1 (proj2 (proj2 (high_score_keeps_the_best 25 "n" 2 st))) H)|].
  by_eval.
Defined.

(** X24.  The game-over screen is rendered with the high score of the
    board that already contains the run.  Its "new high score" banner is
    therefore shown exactly when the reported score is positive and no
    previous entry scores more (a tie with the previous best counts), and
    the "previous best" it displays is never below the floor of the
    reported score. *)
Theorem new_high_banner (score : Q) (id : String.string) (now : Q)
    (st : AppState) :
  let st' := handleGameOver score id now st in
  (isNewHigh (lastScore st') (highScore (leaderboard st')) = true <->
   0 < score /\
   Forall (fun en => entry_score en <= score) (leaderboard st)) /\
  floorQ (lastScore st') <= highScore (leaderboard st').
Proof.
  cbv zeta.
  destruct (highScore_after_game score id now st) as [E F].
  assert (L : lastScore (handleGameOver score id now st) = score) by reflexivity.
  rewrite L. split; [|exact F].
  unfold isNewHigh. rewrite andb_true_iff, Qle_bool_iff, ltb_lt, E.
  pose proof (Qfloor_le score) as Fl. fold (floorQ score) in Fl.
  pose proof (highScore_bounds (leaderboard st)) as B.
  destruct (leaderboard st) as [|y l] eqn:K.
  - split; [intros [_ P]; split; [exact P | constructor]|].
    intros [P _]. split; [exact Fl | exact P].
  - split.
    + intros [A P]. split; [exact P|].
      eapply Forall_impl; [|exact B]. cbv beta. intros en Hen.
      eapply Qle_trans; [exact Hen|].
      eapply Qle_trans; [apply Q.le_max_l | exact A].
    + intros [P A]. split; [|exact P].
      apply Q.max_lub; [|exact Fl].
      assert (Hd : descending (sortByScore (y :: l))) by apply sort_descending.
      pose proof (highScore_sort (y :: l)) as Hs.
      destruct (sortByScore (y :: l)) as [|z zs] eqn:Z.
      * exfalso. apply (sort_nonempty (y :: l)); [discriminate | exact Z].
      * rewrite <- Hs, (highScore_descending z zs Hd).
        rewrite Forall_forall in A. apply A.
        apply (Permutation_in _ (sort_perm (y :: l))). rewrite Z. left. reflexivity.
Qed.

Lemma new_high_banner_witness :
  let old := mkEntry "o" "P" "aero" 40 GameWorld.COSMIC GameWorld.EASY 1 in
  let st := initialApp [old] in
  (0 < 40 /\ Forall (fun en => entry_score en <= 40) (leaderboard st)) /\
  isNewHigh (lastScore (handleGameOver 40 "n" 2 st))
            (highScore (leaderboard (handleGameOver 40 "n" 2 st))) = true.
Proof.
  cbv zeta.
  set (st := initialApp [mkEntry "o" "P" "aero" 40 GameWorld.COSMIC GameWorld.EASY 1]).
  assert (H : 0 < 40 /\ Forall (fun en => entry_score en <= 40) (leaderboard st))
    by (split; [by_eval | repeat constructor; by_eval]).
  split; [exact H|].
  exact (proj2 (proj1 (new_high_banner 40 "n" 2 st)) H).
Defined.

Lemma evaluation_rank s :
  (3000 <= s /\ rank (evaluation s) = "S") \/
  (1500 <= s /\ s < 3000 /\ rank (evaluation s) = "A") \/
  (750 <= s /\ s < 1500 /\ rank (evaluation s) = "B") \/
  (250 <= s /\ s < 750 /\ rank (evaluation s) = "C") \/
  (s < 250 /\ rank (evaluation s) = "D").
Proof.
  unfold evaluation.
  destruct (Qle_bool 3000 s) eqn:E1;
    [left; split; [apply Qle_bool_iff, E1 | reflexivity]|].
  assert (H1 : s < 3000).
  { apply Qnot_le_lt. intros H. apply Qle_bool_iff in H. congruence. }
  destruct (Qle_bool 1500 s) eqn:E2;
    [right; left; repeat split; [apply Qle_bool_iff, E2 | exact H1]|].
  assert (H2 : s < 1500).
  { apply Qnot_le_lt. intros H. apply Qle_bool_iff in H. congruence. }
  destruct (Qle_bool 750 s) eqn:E3;
    [right; right; left; repeat split; [apply Qle_bool_iff, E3 | exact H2]|].
  assert (H3 : s < 750).
  { apply Qnot_le_lt. intros H. apply Qle_bool_iff in H. congruence. }
  destruct (Qle_bool 250 s) eqn:E4;
    [right; right; right; left; repeat split; [apply Qle_bool_iff, E4 | exact H3]|].
  right; right; right; right. split; [|reflexivity].
  apply Qnot_le_lt. intros H. apply Qle_bool_iff in H. congruence.
Qed.

(** X25.  The performance rank follows the score: a higher score never
    earns a lower rank, rank S is given exactly from 3000 on, A from 1500,
    B from 750, C from 250, and D below 250 (negative scores included). *)
Theorem rank_follows_the_score (s1 s2 : Q) :
  s1 <= s2 ->
  (grade (rank (evaluation s1)) <= grade (rank (evaluation s2)))%nat /\
  (rank (evaluation s2) = "S" <-> 3000 <= s2) /\
  (rank (evaluation s2) = "A" <-> 1500 <= s2 /\ s2 < 3000) /\
  (rank (evaluation s2) = "B" <-> 750 <= s2 /\ s2 < 1500) /\
  (rank (evaluation s2) = "C" <-> 250 <= s2 /\ s2 < 750) /\
  (rank (evaluation s2) = "D" <-> s2 < 250).
Proof.
  intros H.
  destruct (evaluation_rank s1) as [(A1 & R1)|[(A1 & B1 & R1)|[(A1 & B1 & R1)|[(A1 & B1 & R1)|(A1 & R1)]]]];
  destruct (evaluation_rank s2) as [(A2 & R2)|[(A2 & B2 & R2)|[(A2 & B2 & R2)|[(A2 & B2 & R2)|(A2 & R2)]]]];
  rewrite R1, R2; try (exfalso; lra);
  (split; [vm_compute; lia|]);
  repeat split; intros; try discriminate; try lra;
    try (exfalso; lra);
    repeat match goal with H0 : _ /\ _ |- _ => destruct H0 end;
    try (exfalso; lra).
Qed.

Lemma rank_follows_the_score_witness :
  (749 <= 750) /\
  rank (evaluation 749) = "C" /\ rank (evaluation 750) = "B" /\
  (grade (rank (evaluation 749)) <= grade (rank (evaluation 750)))%nat.
Proof.
  assert (H : 749 <= 750) by by_eval.
  split; [exact H|]. split; [reflexivity|]. split; [reflexivity|].
  exact (proj1 (rank_follows_the_score 749 750 H)).
Defined.

Lemma find_avatar avatars a :
  In a avatars ->
  (forall b, In b avatars -> avatar_id b = avatar_id a -> b = a) ->
  find (fun b => String.eqb (avatar_id b) (avatar_id a)) avatars = Some a.
Proof.
  intros Hin Huniq.
  destruct (find (fun b => String.eqb (avatar_id b) (avatar_id a)) avatars)
    as [b|] eqn:F.
  - apply find_some in F. destruct F as [Hb Eb]. apply String.eqb_eq in Eb.
    f_equal. apply Huniq; assumption.
  - exfalso. pose proof (find_none _ _ F a Hin) as N. cbv beta in N.
    rewrite String.eqb_refl in N. discriminate N.
Qed.

(** X26.  In a list of avatars with distinct identifiers and non-empty
    emojis, as [AVATARS] is, the leaderboard shows for an avatar's
    identifier that avatar's emoji, and the default glyph for an identifier
    no avatar has.  So every entry that [handleGameOver] records while one
    of the four avatars is selected is displayed with that avatar's
    emoji. *)
Theorem avatar_lookup (avatars : list PlayerAvatar) (a : PlayerAvatar)
    (id : String.string) :
  (In a avatars ->
   (forall b, In b avatars -> avatar_id b = avatar_id a -> b = a) ->
   avatar_emoji a <> "" ->
   getAvatarEmoji avatars (avatar_id a) = avatar_emoji a) /\
  ((forall b, In b avatars -> avatar_id b <> id) ->
   getAvatarEmoji avatars id = "👤") /\
  (In a AVATARS -> getAvatarEmoji AVATARS (avatar_id a) = avatar_emoji a) /\
  (forall score eid now st,
     In (selectedAvatar st) AVATARS ->
     getAvatarEmoji AVATARS (entry_avatarId (newEntry score eid now st))
     = avatar_emoji (selectedAvatar st)).
Proof.
  assert (G : forall l b, In b l ->
            (forall c, In c l -> avatar_id c = avatar_id b -> c = b) ->
            avatar_emoji b <> "" ->
            getAvatarEmoji l (avatar_id b) = avatar_emoji b).
  { intros l b Hin Hu He. unfold getAvatarEmoji.
    rewrite (find_avatar l b Hin Hu).
    destruct (String.eqb (avatar_emoji b) "") eqn:E; [|reflexivity].
    apply String.eqb_eq in E. contradiction. }
  assert (GA : forall b, In b AVATARS ->
             getAvatarEmoji AVATARS (avatar_id b) = avatar_emoji b).
  { intros b Hb. cbn [AVATARS In] in Hb.
    destruct Hb as [<-|[<-|[<-|[<-|[]]]]]; vm_compute; reflexivity. }
  split; [apply G|]. split; [|split; [apply GA|]].
  - intros Hn. unfold getAvatarEmoji.
    destruct (find (fun b => String.eqb (avatar_id b) id) avatars) as [b|] eqn:F;
      [|reflexivity].
    apply find_some in F. destruct F as [Hb Eb]. apply String.eqb_eq in Eb.
    exfalso. apply (Hn b Hb Eb).
  - intros score eid now st Hs. cbn [newEntry entry_avatarId]. apply GA, Hs.
Qed.

Lemma avatar_lookup_witness :
  let gears := mkAvatar "gears" "Gears" "🤖" "#fbbf24" in
  In gears AVATARS /\
  (forall b, In b AVATARS -> avatar_id b <> "ghost") /\
  getAvatarEmoji AVATARS (avatar_id gears) = "🤖" /\
  getAvatarEmoji AVATARS "ghost" = "👤".
Proof.
  cbv zeta.
  assert (H1 : In (mkAvatar "gears" "Gears" "🤖" "#fbbf24") AVATARS)
    by (right; right; left; reflexivity).
  assert (H2 : forall b, In b AVATARS -> avatar_id b <> "ghost").
  { intros b Hb. cbn [AVATARS In] in Hb.
    destruct Hb as [<-|[<-|[<-|[<-|[]]]]]; discriminate. }
  pose proof (avatar_lookup AVATARS (mkAvatar "gears" "Gears" "🤖" "#fbbf24") "ghost")
    as (_ & N & A & _).
  split; [exact H1|]. split; [exact H2|]. split; [exact (A H1) | exact (N H2)].
Defined.

End AppFacts.

(** * AudioEngine *)

Module AudioEngineFacts.
Import Health AudioEngine.







Lemma pattern_nth notes step type vol useDelay rf now rnd (i : nat) :
  (i < 300)%nat ->
  nth_error (createMelodyPattern notes step type vol useDelay rf now rnd) i =
  Some (playTick notes step type vol useDelay rf (rnd i)
          (now + inject_Z (Z.of_nat i) * step) i).
Proof.
  intros Hi. unfold createMelodyPattern.
  rewrite nth_error_map.
  assert (E : nth_error (seq 0 300) i = Some i).
  { rewrite nth_error_nth' with (d := O) by (rewrite length_seq; exact Hi).
    rewrite seq_nth by exact Hi. reflexivity. }
  rewrite E. reflexivity.
Qed.

(** X29 ([createMelodyPattern]): the pattern is 300 ticks long.  With a
    positive step, tick [i] starts at [now + i * step] and is stopped one
    step after its start; the end of its gain fade lies after its start,
    before its stop and before the start of the next tick, which starts
    later than this one; with a step of 0.1 s or more, as all the themes
    have, the gain has reached its peak before the fade ends.  With a
    non-empty list of positive notes and a random factor that is not
    negative the tick sounds note [i mod notes.length], raised by at most the
    random factor times the note, and not at all when the factor is 0. *)
Theorem melody_ticks_fade_before_the_next (notes : list Q) (step : Q)
    (type : OscillatorType) (vol : Q) (useDelay : bool) (rf : Q) (now : Q)
    (rnd : nat -> Q) (i : nat) :
  notes <> [] -> Forall (fun f => 0 < f) notes -> 0 < step -> 0 <= rf ->
  random (rnd i) -> (i < 300)%nat ->
  let pattern := createMelodyPattern notes step type vol useDelay rf now rnd in
  length pattern = 300%nat /\
  exists t base,
    nth_error pattern i = Some t /\
    tick_start t == now + inject_Z (Z.of_nat i) * step /\
    tick_stop t == tick_start t + step /\
    (tick_start t < tick_release t /\ tick_release t < tick_stop t) /\
    (0.1 <= step -> tick_attack t < tick_release t) /\
    (forall t', nth_error pattern (S i) = Some t' ->
       tick_start t < tick_start t' /\ tick_release t < tick_start t') /\
    nth_error notes (i mod length notes) = Some base /\
    match tick_frequency t with
    | Some f => base <= f /\ f <= base + rf * base /\ (rf == 0 -> f == base)
    | None => False
    end.
Proof.
  intros Hne Hpos Hstep Hrf [R0 R1] Hi pattern.
  split.
  { unfold pattern, createMelodyPattern. rewrite length_map, length_seq.
    reflexivity. }
  assert (Hlen : (length notes <> 0)%nat).
  { destruct notes; [congruence | discriminate]. }
  assert (Hlt : (i mod length notes < length notes)%nat)
    by (apply Nat.mod_upper_bound; exact Hlen).
  destruct (nth_error notes (i mod length notes)) as [base|] eqn:Eb.
  2:{ apply nth_error_None in Eb. lia. }
  assert (Hb : 0 < base).
  { apply nth_error_In in Eb.
    rewrite Forall_forall in Hpos. apply Hpos. exact Eb. }
  eexists. exists base.
  split; [apply pattern_nth; exact Hi|].
  unfold playTick.
  cbn [tick_start tick_attack tick_release tick_stop tick_frequency].
  rewrite Eb.
  split; [reflexivity|].
  split; [reflexivity|].
  split; [split; lra|].
  split.
  { intros Hs. lra. }
  split.
  { intros t' Ht'.
    assert (Hi' : (S i < 300)%nat).
    { assert (L : (S i < length pattern)%nat)
        by (apply nth_error_Some; rewrite Ht'; discriminate).
      unfold pattern, createMelodyPattern in L.
      rewrite length_map, length_seq in L. exact L. }
    unfold pattern in Ht'. rewrite (pattern_nth _ _ _ _ _ _ _ _ _ Hi') in Ht'.
    injection Ht' as <-. unfold playTick. cbn [tick_start].
    rewrite Zpos_P_of_succ_nat. unfold Z.succ. rewrite inject_Z_plus.
    change (inject_Z 1) with 1.
    set (n := inject_Z (Z.of_nat i)).
    assert (En : (n + 1) * step == n * step + step) by ring.
    rewrite En. split; lra. }
  split; [reflexivity|].
  assert (P1 : 0 <= rnd i * rf) by (apply Qmult_le_0_compat; assumption).
  assert (P2 : 0 <= rnd i * rf * base)
    by (apply Qmult_le_0_compat; [exact P1 | lra]).
  assert (P3 : 0 <= (1 - rnd i) * rf)
    by (apply Qmult_le_0_compat; [lra | exact Hrf]).
  assert (P4 : 0 <= (1 - rnd i) * rf * base)
    by (apply Qmult_le_0_compat; [exact P3 | lra]).
  split; [lra|].
  split; [nra|].
  intros Z0. rewrite Z0. ring.
Qed.

Lemma melody_ticks_fade_before_the_next_witness :
  (7 < 300)%nat /\
  exists t base,
    nth_error (chimes 0 (fun _ => 0.5)) 7 = Some t /\
    tick_start t == 0 + inject_Z (Z.of_nat 7) * 4.0 /\
    tick_stop t == tick_start t + 4.0 /\
    (tick_start t < tick_release t /\ tick_release t < tick_stop t) /\
    (0.1 <= 4.0 -> tick_attack t < tick_release t) /\
    (forall t', nth_error (chimes 0 (fun _ => 0.5)) 8 = Some t' ->
       tick_start t < tick_start t' /\ tick_release t < tick_start t') /\
    nth_error [2000; 2500; 3000] (7 mod 3) = Some base /\
    match tick_frequency t with
    | Some f => base <= f /\ f <= base + 0.1 * base /\ (0.1 == 0 -> f == base)
    | None => False
    end.
Proof.
  assert (H1 : [2000; 2500; 3000] <> @nil Q) by discriminate.
  assert (H2 : Forall (fun f => 0 < f) [2000; 2500; 3000]).
  { repeat constructor. }
  assert (H3 : 0 < 4.0) by reflexivity.
  assert (H4 : 0 <= 0.1) by (vm_compute; discriminate).
  assert (H5 : random ((fun _ : nat => 0.5) 7%nat)).
  { split; [vm_compute; discriminate | reflexivity]. }
  assert (H6 : (7 < 300)%nat) by lia.
  split; [exact H6|].
  exact (proj2 (melody_ticks_fade_before_the_next [2000; 2500; 3000] 4.0 sine
                  0.01 true 0.1 0 (fun _ => 0.5) 7 H1 H2 H3 H4 H5 H6)).
Defined.

End AudioEngineFacts.
